(** * A key-value store on scoreboard tables: the codec and the [Database] class

    Shallow embedding of [src/scripts/api.js] (lines 17-240): the constant
    [MAX_DATABASE_STRING_SIZE], the functions [chunkString], [textToBinary],
    [binaryToText] and the class [Database]; and, of the rest of the file,
    the class [CommandBuilder], the class [tickTimeout] with
    [setTickTimeout] and [setTickInterval], the log of block breaks, the
    check of positions, [betweenXYZ], and [getTagStartsWith],
    [getGenericName] and [getStack].

    JavaScript strings are sequences of 16-bit code units; a code unit is
    modelled as an [N] below [2^16], and the wrap-around of
    [String.fromCharCode] is written out. *)

From Stdlib Require Import List NArith ZArith Bool Ascii String Lia.
From Stdlib Require DecimalN DecimalPos QArith Qabs.
#[local] Set Warnings "-register-all,-abstract-large-number".
Import ListNotations.

Local Open Scope N_scope.

(** ** Text *)

Abbreviation char16 := N.
Abbreviation text := (list char16).

(** Every unit of a JavaScript string is below [2^16]. *)
Definition is_char16 (c : char16) : Prop := c < 65536.
Definition well_formed (s : text) : Prop := Forall is_char16 s.

(** An ASCII literal as text. *)
Definition lit (s : string) : text := map N_of_ascii (list_ascii_of_string s).

(** [LineTerminator] of ECMA-262: LF, CR, LS (U+2028), PS (U+2029). *)
Definition is_line_terminator (c : char16) : bool :=
  (c =? 10) || (c =? 13) || (c =? 8232) || (c =? 8233).

(** [WhiteSpace] of ECMA-262: TAB, VT, FF, SP, NBSP, ZWNBSP and the
    space separators (category Zs). *)
Definition is_white_space (c : char16) : bool :=
  (c =? 9) || (c =? 11) || (c =? 12) || (c =? 32) || (c =? 160)
  || (c =? 5760) || ((8192 <=? c) && (c <=? 8202))
  || (c =? 8239) || (c =? 8287) || (c =? 12288) || (c =? 65279).

(** [StrWhiteSpaceChar], which is also the class [\s] of a regular
    expression. *)
Definition is_space (c : char16) : bool :=
  is_white_space c || is_line_terminator c.

(** [Array.prototype.join]. *)
Fixpoint join (sep : text) (l : list text) : text :=
  match l with
  | [] => []
  | [x] => x
  | x :: l' => x ++ sep ++ join sep l'
  end.

(** [str.split(sep)] for a separator of one code unit: never empty. *)
Fixpoint split_on (sep : char16) (s : text) : list text :=
  match s with
  | [] => [[]]
  | c :: s' =>
      if c =? sep then [] :: split_on sep s'
      else match split_on sep s' with
           | h :: t => (c :: h) :: t
           | [] => [[c]]
           end
  end.

(** [str.split("")]: the code units, one string each. *)
Definition split_units (s : text) : list text := map (fun c => [c]) s.

(** ** What a computation throws

    [CommandError] is what the host throws for a command that fails.
    [Diverged] and [OutsideModel] are the model's own and no JavaScript
    errors: a loop that was given too few rounds, and a value that the
    model does not hold (an operation on a document that is neither an
    object nor [null], a number that is no integer below [2^53]).  A
    computation that ends in one of the two says nothing about the code. *)
Inductive exn :=
| TypeError
| SyntaxError
| CommandError
| Diverged
| OutsideModel.

Definition result (A : Type) : Type := (A + exn)%type.

(** What a [catch] clause can catch: the errors of JavaScript. *)
Definition catchable (e : exn) : bool :=
  match e with
  | Diverged | OutsideModel => false
  | _ => true
  end.

(** ** chunkString *)

Definition MAX_DATABASE_STRING_SIZE : N := 32000.

(** One run of the regular expression [.{1,n}] from the start of [s]:
    the longest prefix of at most [n] units none of which is a line
    terminator (the dot matches no line terminator), and the rest. *)
Fixpoint take_dots (n : nat) (s : text) : text * text :=
  match n, s with
  | S n', c :: s' =>
      if is_line_terminator c then ([], s)
      else let (m, r) := take_dots n' s' in (c :: m, r)
  | _, _ => ([], s)
  end.

(** [RegExp.prototype.exec] for [.{1,n}]: the first position from which
    the expression matches, found by stepping over the units the dot
    refuses; [None] when there is no match. *)
Fixpoint exec_dots (n : nat) (s : text) : option (text * text) :=
  match s with
  | [] => None
  | c :: s' =>
      if is_line_terminator c then exec_dots n s'
      else Some (take_dots n s)
  end.

(** [str.match(re)] with the flag [g]: the matches from left to right,
    each search starting where the last match ended. A match is never
    empty, so [length s] rounds are enough. *)
Fixpoint match_all (fuel : nat) (n : nat) (s : text) : list text :=
  match fuel with
  | O => []
  | S fuel' =>
      match exec_dots n s with
      | None => []
      | Some (m, r) => m :: match_all fuel' n r
      end
  end.

(** [str.match(re)] for the expression [.{1,n}] with the flag [g]: the
    array of the matches, [null] (here [None]) when nothing matches. *)
Definition match_dots (str : text) (n : nat) : option (list text) :=
  match match_all (S (List.length str)) n str with
  | [] => None
  | l => Some l
  end.

(** [new RegExp(".{1," + length + "}", "g")], as the bound of the
    expression.  For [length = 0] the pattern is [.{1,0}], whose numbers
    are out of order: the constructor throws a [SyntaxError]. *)
Definition new_RegExp_dots (length : N) : result nat :=
  if length =? 0 then inr SyntaxError else inl (N.to_nat length).

(** [chunkString(str, length)] is [str.match(new RegExp(".{1,"+length+"}","g"))]. *)
Definition chunkString (str : text) (length : N) : result (option (list text)) :=
  match new_RegExp_dots length with
  | inl n => inl (match_dots str n)
  | inr e => inr e
  end.

(** ** textToBinary *)

(** [n.toString(2)] for a non-negative integer. *)
Fixpoint bits_of_positive (p : positive) (acc : text) : text :=
  match p with
  | xH => 49 :: acc
  | xO q => bits_of_positive q (48 :: acc)
  | xI q => bits_of_positive q (49 :: acc)
  end.

(** The Number values the codec meets: integers, and what [parseInt]
    and [charCodeAt] answer when there is nothing to read. *)
Inductive number :=
| NaN
| Int (z : Z)
| Infinity (negative : bool).

(** [x.toString(2)]. *)
Definition toString2 (x : number) : text :=
  match x with
  | NaN => lit "NaN"
  | Infinity false => lit "Infinity"
  | Infinity true => lit "-Infinity"
  | Int Z0 => [48]
  | Int (Zpos p) => bits_of_positive p []
  | Int (Zneg p) => 45 :: bits_of_positive p []
  end.

(** [s.charCodeAt(0)]. *)
Definition charCodeAt0 (s : text) : number :=
  match s with
  | c :: _ => Int (Z.of_N c)
  | [] => NaN
  end.

Definition textToBinary (t : text) : text :=
  join [32] (map (fun char => toString2 (charCodeAt0 char)) (split_units t)).

(** ** binaryToText *)

Fixpoint skip_spaces (s : text) : text :=
  match s with
  | c :: s' => if is_space c then skip_spaces s' else s
  | [] => []
  end.

(** The longest prefix of binary digits, as the value read so far and the
    number of digits. *)
Fixpoint binary_digits (s : text) (acc : N) (count : nat) : N * nat :=
  match s with
  | c :: s' =>
      if c =? 48 then binary_digits s' (2 * acc) (S count)
      else if c =? 49 then binary_digits s' (2 * acc + 1) (S count)
      else (acc, count)
  | [] => (acc, count)
  end.

(** The Number value of a mathematical integer: the nearest double, ties
    to even; [None] is an overflow to infinity. *)
Definition to_double (m : N) : option N :=
  let l := N.size m in
  if l <=? 53 then Some m
  else
    let shift := l - 53 in
    let q := N.shiftr m shift in
    let r := N.land m (N.ones shift) in
    let half := N.shiftl 1 (shift - 1) in
    let q' := if (half <? r) || ((r =? half) && N.odd q) then q + 1 else q in
    let v := N.shiftl q' shift in
    if N.shiftl 1 1024 <=? v then None else Some v.

(** [parseInt(string, 2)]. *)
Definition parseInt2 (s : text) : number :=
  let s1 := skip_spaces s in
  let '(neg, s2) :=
    match s1 with
    | c :: s' => if c =? 45 then (true, s')
                 else if c =? 43 then (false, s') else (false, s1)
    | [] => (false, s1)
    end in
  match binary_digits s2 0 O with
  | (_, O) => NaN
  | (m, _) =>
      match to_double m with
      | None => Infinity neg
      | Some v => Int (if neg then Z.opp (Z.of_N v) else Z.of_N v)
      end
  end.

(** [ToUint16]. *)
Definition ToUint16 (x : number) : char16 :=
  match x with
  | Int z => Z.to_N (Z.modulo z 65536)
  | _ => 0
  end.

(** [String.fromCharCode(x)]. *)
Definition fromCharCode (x : number) : text := [ToUint16 x].

Definition binaryToText (binary : text) : text :=
  join [] (map (fun char => fromCharCode (parseInt2 char)) (split_on 32 binary)).

(** ** JSON

    [JSON.stringify] and [JSON.parse] belong to the language, not to the
    repository.  They are modelled after ECMA-262 on the fragment of JSON
    whose numbers are integers below [2^53] in magnitude: for a text that
    is JSON but holds another number (a fraction, an exponent, a larger
    integer, a negative zero) the parser has no value to give and answers
    [OutsideModel].  An object holds its members in the order in which
    JavaScript lists them ([OrdinaryOwnPropertyKeys]): the keys that are
    array indices first, in ascending order, then the other keys in the
    order of their creation. *)

Inductive json :=
| JNull
| JBool (b : bool)
| JNum (z : Z)
| JStr (s : text)
| JArr (elements : list json)
| JObj (members : list (text * json)).

Definition text_eqb (a b : text) : bool :=
  if list_eq_dec N.eq_dec a b then true else false.

(** The own property [key] of an object's member list. *)
Fixpoint lookup (key : text) (members : list (text * json)) : option json :=
  match members with
  | [] => None
  | (k, v) :: rest => if text_eqb k key then Some v else lookup key rest
  end.

Definition has_own (key : text) (m : list (text * json)) : bool :=
  match lookup key m with Some _ => true | None => false end.

Fixpoint remove (key : text) (members : list (text * json))
  : list (text * json) :=
  match members with
  | [] => []
  | (k, w) :: rest =>
      if text_eqb k key then rest else (k, w) :: remove key rest
  end.

(** *** JSON.stringify *)

Fixpoint uint_text (d : Decimal.uint) : text :=
  match d with
  | Decimal.Nil => []
  | Decimal.D0 d => 48 :: uint_text d
  | Decimal.D1 d => 49 :: uint_text d
  | Decimal.D2 d => 50 :: uint_text d
  | Decimal.D3 d => 51 :: uint_text d
  | Decimal.D4 d => 52 :: uint_text d
  | Decimal.D5 d => 53 :: uint_text d
  | Decimal.D6 d => 54 :: uint_text d
  | Decimal.D7 d => 55 :: uint_text d
  | Decimal.D8 d => 56 :: uint_text d
  | Decimal.D9 d => 57 :: uint_text d
  end.

(** The decimal digits of a non-negative integer, as a template literal
    and [JSON.stringify] write them. *)
Definition decimal (n : N) : text := uint_text (N.to_uint n).

Definition number_text (z : Z) : text :=
  match z with
  | Zneg p => 45 :: decimal (Npos p)
  | _ => decimal (Z.to_N z)
  end.

Definition hex_digit (n : N) : char16 :=
  if n <? 10 then 48 + n else 87 + n.

(** The escape [\uXXXX], in lower case as [JSON.stringify] writes it. *)
Definition unicode_escape (c : char16) : text :=
  [92; 117; hex_digit (c / 4096 mod 16); hex_digit (c / 256 mod 16);
   hex_digit (c / 16 mod 16); hex_digit (c mod 16)].

Definition is_high_surrogate (c : char16) : bool :=
  (55296 <=? c) && (c <=? 56319).
Definition is_low_surrogate (c : char16) : bool :=
  (56320 <=? c) && (c <=? 57343).

(** One code unit of [QuoteJSONString] that is no surrogate. *)
Definition quote_unit (c : char16) : text :=
  if c =? 8 then [92; 98]
  else if c =? 9 then [92; 116]
  else if c =? 10 then [92; 110]
  else if c =? 12 then [92; 102]
  else if c =? 13 then [92; 114]
  else if c =? 34 then [92; 34]
  else if c =? 92 then [92; 92]
  else if c <? 32 then unicode_escape c
  else [c].

(** The inside of [QuoteJSONString]: a surrogate pair is kept, a lone
    surrogate is escaped; U+2028 and U+2029 are written as they are. *)
Fixpoint quote_units (s : text) : text :=
  match s with
  | [] => []
  | c :: s' =>
      if is_high_surrogate c then
        match s' with
        | d :: s'' =>
            if is_low_surrogate d then c :: d :: quote_units s''
            else unicode_escape c ++ quote_units s'
        | [] => unicode_escape c
        end
      else if is_low_surrogate c then unicode_escape c ++ quote_units s'
      else quote_unit c ++ quote_units s'
  end.

Definition QuoteJSONString (s : text) : text := 34 :: quote_units s ++ [34].

Fixpoint JSON_stringify (v : json) : text :=
  match v with
  | JNull => lit "null"
  | JBool true => lit "true"
  | JBool false => lit "false"
  | JNum z => number_text z
  | JStr s => QuoteJSONString s
  | JArr l => 91 :: join [44] (map JSON_stringify l) ++ [93]
  | JObj m =>
      123 :: join [44]
               (map (fun kv => QuoteJSONString (fst kv) ++ 58 :: JSON_stringify (snd kv)) m)
          ++ [125]
  end.

(** *** The order of the members *)

Definition is_digit (c : char16) : bool := (48 <=? c) && (c <=? 57).

(** The value of the decimal digits a text starts with, read after
    [acc], and what follows them. *)
Fixpoint parse_digits (s : text) (acc : N) : N * text :=
  match s with
  | c :: s' => if is_digit c then parse_digits s' (10 * acc + (c - 48)) else (acc, s)
  | [] => (acc, s)
  end.

(** The array index a key stands for: the key is the decimal digits,
    without a leading zero, of an integer below [2^32 - 1]. *)
Definition array_index (key : text) : option N :=
  let n := fst (parse_digits key 0) in
  if text_eqb (decimal n) key && (n <? 4294967295) then Some n else None.

(** [key] is listed before [k] whichever was created first: an array
    index before a larger one and before every key that is none. *)
Definition listed_before (key k : text) : bool :=
  match array_index key, array_index k with
  | Some i, Some j => i <? j
  | Some _, None => true
  | None, _ => false
  end.

(** The keys are in the order in which JavaScript lists them. *)
Fixpoint in_order (keys : list text) : bool :=
  match keys with
  | [] => true
  | k :: rest => forallb (fun k' => negb (listed_before k' k)) rest && in_order rest
  end.

(** A new member takes the place in which it is listed: an array index
    among the array indices, any other key at the end. *)
Fixpoint insert (key : text) (v : json) (members : list (text * json))
  : list (text * json) :=
  match members with
  | [] => [(key, v)]
  | (k, w) :: rest =>
      if listed_before key k then (key, v) :: (k, w) :: rest
      else (k, w) :: insert key v rest
  end.

(** The value of an existing member changes where the member is. *)
Fixpoint replace (key : text) (v : json) (members : list (text * json))
  : list (text * json) :=
  match members with
  | [] => []
  | (k, w) :: rest =>
      if text_eqb k key then (k, v) :: rest else (k, w) :: replace key v rest
  end.

(** [CreateDataProperty], which is also what an assignment does on a
    plain object. *)
Definition put (key : text) (v : json) (members : list (text * json))
  : list (text * json) :=
  if has_own key members then replace key v members else insert key v members.

(** *** JSON.parse *)

Definition is_json_space (c : char16) : bool :=
  (c =? 32) || (c =? 9) || (c =? 10) || (c =? 13).

Fixpoint skip_ws (s : text) : text :=
  match s with
  | c :: s' => if is_json_space c then skip_ws s' else s
  | [] => []
  end.

Fixpoint strip_prefix (p s : text) : option text :=
  match p, s with
  | [], _ => Some s
  | a :: p', b :: s' => if a =? b then strip_prefix p' s' else None
  | _ :: _, [] => None
  end.

Definition hex_value (c : char16) : option N :=
  if (48 <=? c) && (c <=? 57) then Some (c - 48)
  else if (97 <=? c) && (c <=? 102) then Some (c - 87)
  else if (65 <=? c) && (c <=? 70) then Some (c - 55)
  else None.

Definition hex4 (a b c d : char16) : option char16 :=
  match hex_value a, hex_value b, hex_value c, hex_value d with
  | Some x, Some y, Some z, Some w => Some (4096 * x + 256 * y + 16 * z + w)
  | _, _, _, _ => None
  end.

Definition unescape (c : char16) : option char16 :=
  if c =? 34 then Some 34
  else if c =? 92 then Some 92
  else if c =? 47 then Some 47
  else if c =? 98 then Some 8
  else if c =? 102 then Some 12
  else if c =? 110 then Some 10
  else if c =? 114 then Some 13
  else if c =? 116 then Some 9
  else None.

(** The units of a string literal after its opening quote, up to the
    closing one; [acc] holds what was read, last unit first. *)
Fixpoint parse_string (s : text) (acc : text) : option (text * text) :=
  match s with
  | [] => None
  | c :: r =>
      if c =? 34 then Some (rev acc, r)
      else if c =? 92 then
        match r with
        | e :: r' =>
            if e =? 117 then
              match r' with
              | h1 :: h2 :: h3 :: h4 :: r'' =>
                  match hex4 h1 h2 h3 h4 with
                  | Some u => parse_string r'' (u :: acc)
                  | None => None
                  end
              | _ => None
              end
            else
              match unescape e with
              | Some u => parse_string r' (u :: acc)
              | None => None
              end
        | [] => None
        end
      else if c <? 32 then None
      else parse_string r (c :: acc)
  end.

(** The integer part of a number literal: [0], or digits that start
    with none. *)
Definition parse_natural (s : text) : option (N * text) :=
  match s with
  | c :: s' =>
      if negb (is_digit c) then None
      else Some (if c =? 48 then (0, s') else parse_digits s 0)
  | [] => None
  end.

(** One digit at least, and what follows the digits. *)
Definition skip_digits (s : text) : option text :=
  match s with
  | c :: _ => if is_digit c then Some (snd (parse_digits s 0)) else None
  | [] => None
  end.

(** The fraction of a number literal, if it has one: whether it has, and
    what follows; a point without a digit is a [SyntaxError]. *)
Definition parse_fraction (s : text) : result (bool * text) :=
  match s with
  | c :: r =>
      if c =? 46 then
        match skip_digits r with
        | Some r' => inl (true, r')
        | None => inr SyntaxError
        end
      else inl (false, s)
  | [] => inl (false, s)
  end.

(** The exponent of a number literal, if it has one. *)
Definition parse_exponent (s : text) : result (bool * text) :=
  match s with
  | c :: r =>
      if (c =? 101) || (c =? 69) then
        let r1 := match r with
                  | d :: r' => if (d =? 43) || (d =? 45) then r' else r
                  | [] => r
                  end in
        match skip_digits r1 with
        | Some r' => inl (true, r')
        | None => inr SyntaxError
        end
      else inl (false, s)
  | [] => inl (false, s)
  end.

(** A number literal.  The value is in the model when the literal is an
    integer below [2^53] in magnitude, without a fraction and without an
    exponent, and is not [-0]. *)
Definition parse_number (s : text) : result (json * text) :=
  let '(negative, s1) :=
    match s with
    | c :: s' => if c =? 45 then (true, s') else (false, s)
    | [] => (false, s)
    end in
  match parse_natural s1 with
  | None => inr SyntaxError
  | Some (n, r) =>
      match parse_fraction r with
      | inr e => inr e
      | inl (fraction, r1) =>
          match parse_exponent r1 with
          | inr e => inr e
          | inl (exponent, r2) =>
              if fraction || exponent || (9007199254740992 <=? n)
                 || (negative && (n =? 0))
              then inr OutsideModel
              else inl (JNum (if negative then Z.opp (Z.of_N n) else Z.of_N n), r2)
          end
      end
  end.

Definition expect (c : char16) (s : text) : option text :=
  match skip_ws s with
  | d :: r => if c =? d then Some r else None
  | [] => None
  end.

(** A value, and what follows it.  [fuel] bounds the depth of the calls;
    a call that has none left answers [Diverged]. *)
Fixpoint parse_value (fuel : nat) (s : text) : result (json * text) :=
  match fuel with
  | O => inr Diverged
  | S fuel' =>
      match skip_ws s with
      | [] => inr SyntaxError
      | c :: r =>
          if c =? 34 then
            match parse_string r [] with
            | Some (str, r') => inl (JStr str, r')
            | None => inr SyntaxError
            end
          else if c =? 91 then
            match expect 93 r with
            | Some r' => inl (JArr [], r')
            | None => parse_elements fuel' r []
            end
          else if c =? 123 then
            match expect 125 r with
            | Some r' => inl (JObj [], r')
            | None => parse_members fuel' r []
            end
          else
            match strip_prefix (lit "null") (c :: r) with
            | Some r' => inl (JNull, r')
            | None =>
            match strip_prefix (lit "true") (c :: r) with
            | Some r' => inl (JBool true, r')
            | None =>
            match strip_prefix (lit "false") (c :: r) with
            | Some r' => inl (JBool false, r')
            | None => parse_number (c :: r)
            end end end
      end
  end
with parse_elements (fuel : nat) (s : text) (acc : list json)
  : result (json * text) :=
  match fuel with
  | O => inr Diverged
  | S fuel' =>
      match parse_value fuel' s with
      | inl (v, r) =>
          match skip_ws r with
          | d :: r' =>
              if d =? 44 then parse_elements fuel' r' (v :: acc)
              else if d =? 93 then inl (JArr (rev (v :: acc)), r')
              else inr SyntaxError
          | [] => inr SyntaxError
          end
      | inr e => inr e
      end
  end
with parse_members (fuel : nat) (s : text) (acc : list (text * json))
  : result (json * text) :=
  match fuel with
  | O => inr Diverged
  | S fuel' =>
      match expect 34 s with
      | Some r0 =>
          match parse_string r0 [] with
          | Some (key, r1) =>
              match expect 58 r1 with
              | Some r2 =>
                  match parse_value fuel' r2 with
                  | inl (v, r3) =>
                      match skip_ws r3 with
                      | d :: r4 =>
                          if d =? 44 then parse_members fuel' r4 (put key v acc)
                          else if d =? 125 then inl (JObj (put key v acc), r4)
                          else inr SyntaxError
                      | [] => inr SyntaxError
                      end
                  | inr e => inr e
                  end
              | None => inr SyntaxError
              end
          | None => inr SyntaxError
          end
      | None => inr SyntaxError
      end
  end.

(** [JSON.parse(text)]: the value, or the [SyntaxError] it throws; for
    a text with a number outside the model, [OutsideModel].  No text needs
    a depth of calls beyond twice its units (see [JSON_parse_ends]). *)
Definition JSON_parse (s : text) : result json :=
  match parse_value (2 * List.length s + 2) s with
  | inl (v, r) => match skip_ws r with [] => inl v | _ => inr SyntaxError end
  | inr e => inr e
  end.

(** *** Properties of a document

    [d[key]], [d[key] = v], [delete d[key]] and [Object.keys(d)] for a
    document that [JSON.parse] returned.  They are modelled for plain
    objects and for [null]; the exotic behaviour of arrays and of
    primitive values is outside the model. *)

(** The names of the properties of [Object.prototype] (ECMA-262, with
    its annex B), which every plain object inherits.  The file adds none. *)
Definition Object_prototype_names : list text :=
  map lit
    [ "constructor"; "hasOwnProperty"; "isPrototypeOf";
      "propertyIsEnumerable"; "toLocaleString"; "toString"; "valueOf";
      "__proto__"; "__defineGetter__"; "__defineSetter__";
      "__lookupGetter__"; "__lookupSetter__" ]%string.

Definition inherits (key : text) : bool :=
  existsb (text_eqb key) Object_prototype_names.

(** What reading a property answers: the value of the object's own
    member, or what [Object.prototype] holds under the name (a function;
    for [__proto__], [Object.prototype] itself), or [undefined]. *)
Inductive property :=
| Own (v : json)
| Inherited (name : text)
| Undefined.

(** What an object without a member [key] answers for it. *)
Definition not_own (key : text) : property :=
  if inherits key then Inherited key else Undefined.

(** [d[key]]. *)
Definition get_property (d : json) (key : text) : result property :=
  match d with
  | JObj m =>
      inl (match lookup key m with
           | Some v => Own v
           | None => not_own key
           end)
  | JNull => inr TypeError
  | _ => inr OutsideModel
  end.

(** [d[key] = v].  Assigning to [__proto__] runs the setter of
    [Object.prototype] and creates no member, unless the object has a
    member of that name of its own. *)
Definition set_property (d : json) (key : text) (v : json) : result json :=
  match d with
  | JObj m =>
      if text_eqb key (lit "__proto__") && negb (has_own key m) then inl d
      else inl (JObj (put key v m))
  | JNull => inr TypeError
  | _ => inr OutsideModel
  end.

(** [delete d[key]]: the operator's value and the object afterwards.  The
    members of a parsed object are configurable, so the operator answers
    [true] whether or not the member was there. *)
Definition delete_property (d : json) (key : text) : result (bool * json) :=
  match d with
  | JObj m => inl (true, JObj (remove key m))
  | JNull => inr TypeError
  | _ => inr OutsideModel
  end.

(** [Object.keys(d)]. *)
Definition Object_keys (d : json) : result (list text) :=
  match d with
  | JObj m => inl (map fst m)
  | JNull => inr TypeError
  | _ => inr OutsideModel
  end.

(** [Object.values(d)]. *)
Definition Object_values (d : json) : result (list json) :=
  match d with
  | JObj m => inl (map snd m)
  | JNull => inr TypeError
  | _ => inr OutsideModel
  end.

(** ** The backing system

    The scoreboard of the host is no code of the repository.  Section 6
    of the specification gives its interface: tables (objectives) that
    are created and dropped by name, named entries (players) with an
    integer value in a table, a test of one entry that answers its value
    or fails, and one text that lists every entry name.  A command that
    fails makes [runCommand] of the host throw.  The name of an entry is
    a string of bounded length (sections 1 and 3). *)

Record objective := { objective_name : text; scores : list (text * Z) }.

Definition scoreboard := list objective.

Inductive command :=
| ObjectivesAdd (name : text)
| ObjectivesRemove (name : text)
| PlayersAdd (player objective : text) (count : Z)
| PlayersSet (player objective : text) (score : Z)
| PlayersTest (player objective : text)
| PlayersList.

(** What a command answers: nothing of interest, the score a test
    found (the second word of the host's message), or the listing. *)
Inductive reply :=
| Done
| Score (z : Z)
| Listing (t : text).

Definition has_objective (name : text) (w : scoreboard) : bool :=
  existsb (fun o => text_eqb (objective_name o) name) w.

Fixpoint score_of (player : text) (l : list (text * Z)) : option Z :=
  match l with
  | [] => None
  | (p, z) :: rest => if text_eqb p player then Some z else score_of player rest
  end.

Fixpoint set_score (player : text) (z : Z) (l : list (text * Z))
  : list (text * Z) :=
  match l with
  | [] => [(player, z)]
  | (p, y) :: rest =>
      if text_eqb p player then (p, z) :: rest
      else (p, y) :: set_score player z rest
  end.

Fixpoint scores_in (name : text) (w : scoreboard) : option (list (text * Z)) :=
  match w with
  | [] => None
  | o :: rest =>
      if text_eqb (objective_name o) name then Some (scores o)
      else scores_in name rest
  end.

Fixpoint with_scores (name : text) (l : list (text * Z)) (w : scoreboard)
  : scoreboard :=
  match w with
  | [] => []
  | o :: rest =>
      if text_eqb (objective_name o) name
      then {| objective_name := name; scores := l |} :: rest
      else o :: with_scores name l rest
  end.

Definition drop_objective (name : text) (w : scoreboard) : scoreboard :=
  filter (fun o => negb (text_eqb (objective_name o) name)) w.

(** The entries that have a value in some table, each once. *)
Definition tracked_players (w : scoreboard) : list text :=
  nodup (list_eq_dec N.eq_dec) (flat_map (fun o => map fst (scores o)) w).

(** Modelled from the spec: [listAllCounters], the one text that lists
    every entry name; the host's wording of it is not in the repository.
    The names are written one after the other, separated by a comma and
    a space. *)
Definition players_list (w : scoreboard) : text :=
  join (lit ", ") (tracked_players w).

(** Modelled from the spec: the bound on the name of an entry, "the
    backing system's hard per-string limit of ~32767" (section 3), in
    code units. *)
Definition MAX_NAME : N := 32767.

(** The name is within the bound. *)
Definition fits (name : text) : bool := N.of_nat (List.length name) <=? MAX_NAME.

(** Modelled from the spec: the host's commands on the scoreboard
    ([createTable], [dropTable], [setCounter], [testCounter],
    [listAllCounters]), which are not in the repository.  [None] when the
    command fails: a table is created twice, a table or an entry is
    missing, or the name of an entry to write is beyond the bound. *)
Definition run (c : command) (w : scoreboard) : option (reply * scoreboard) :=
  match c with
  | ObjectivesAdd name =>
      if has_objective name w then None
      else Some (Done, w ++ [{| objective_name := name; scores := [] |}])
  | ObjectivesRemove name =>
      if has_objective name w then Some (Done, drop_objective name w) else None
  | PlayersAdd player name count =>
      match scores_in name w with
      | Some l =>
          if fits player then
            let old := match score_of player l with Some z => z | None => 0%Z end in
            Some (Done, with_scores name (set_score player (old + count)%Z l) w)
          else None
      | None => None
      end
  | PlayersSet player name score =>
      match scores_in name w with
      | Some l =>
          if fits player
          then Some (Done, with_scores name (set_score player score l) w)
          else None
      | None => None
      end
  | PlayersTest player name =>
      match scores_in name w with
      | Some l =>
          match score_of player l with
          | Some z => Some (Score z, w)
          | None => None
          end
      | None => None
      end
  | PlayersList => Some (Listing (players_list w), w)
  end.

(** ** The class Database *)

Module Chunk.
Record t := { index : N; data : text }.
End Chunk.

(** What a [Database] object holds besides its table name: the cache
    [MEMORY], and the scoreboard of the world it runs in. *)
Record state := { MEMORY : list Chunk.t; world : scoreboard }.

(** Computations that read and write the state and may throw; what was
    written before a throw stays written. *)
Definition M (A : Type) : Type := state -> result A * state.

Definition ret {A} (a : A) : M A := fun st => (inl a, st).
Definition throw {A} (e : exn) : M A := fun st => (inr e, st).
Definition bind {A B} (m : M A) (k : A -> M B) : M B :=
  fun st => match m st with
            | (inl a, st') => k a st'
            | (inr e, st') => (inr e, st')
            end.
Definition try_catch {A} (m : M A) (handler : exn -> M A) : M A :=
  fun st => match m st with
            | (inl a, st') => (inl a, st')
            | (inr e, st') => if catchable e then handler e st' else (inr e, st')
            end.
Definition lift {A} (r : result A) : M A := fun st => (r, st).

Notation "x <- m ;; k" := (bind m (fun x => k))
  (at level 61, m at next level, right associativity).
Notation "m ;;; k" := (bind m (fun _ => k))
  (at level 61, right associativity).

Definition get_MEMORY : M (list Chunk.t) := fun st => (inl (MEMORY st), st).
Definition set_MEMORY (m : list Chunk.t) : M unit :=
  fun st => (inl tt, {| MEMORY := m; world := world st |}).
Definition push (c : Chunk.t) : M unit :=
  fun st => (inl tt, {| MEMORY := MEMORY st ++ [c]; world := world st |}).

(** [world.getDimension("overworld").runCommand(command)]: throws when
    the command fails. *)
Definition dimension_runCommand (c : command) : M reply :=
  fun st => match run c (world st) with
            | Some (r, w) => (inl r, {| MEMORY := MEMORY st; world := w |})
            | None => (inr CommandError, st)
            end.

(** The function [runCommand] of the file: the error is caught and
    answered as a marker, which no caller in the class reads. *)
Definition runCommand (c : command) : M unit :=
  try_catch (dimension_runCommand c ;;; ret tt) (fun _ => ret tt).

(** The payload of the fallback chunk, ["01111011 01111101"]. *)
Definition fallback_data : text := lit "01111011 01111101".

(** A unit of the class [[0-1\s]]. *)
Definition is_payload_unit (c : char16) : bool :=
  (c =? 48) || (c =? 49) || is_space c.

Fixpoint take_payload (s : text) : text * text :=
  match s with
  | c :: s' =>
      if is_payload_unit c
      then let (p, r) := take_payload s' in (c :: p, r)
      else ([], s)
  | [] => ([], [])
  end.

(** [s.match(new RegExp("(?<=" + name + "\\()[0-1\\s]+(?=\\))"))]: the
    first place that follows [name(] where a run of payload units, as
    long as it can be, ends at a closing parenthesis; [None] is [null].
    The name goes into the expression as it is: this is what the
    expression matches for a name of letters, digits and underscores. *)
Fixpoint regex_match (name : text) (s : text) : option text :=
  match s with
  | [] => None
  | _ :: s' =>
      match strip_prefix (name ++ [40]) s with
      | Some r =>
          match take_payload r with
          | (c :: p, d :: _) =>
              if d =? 41 then Some (c :: p) else regex_match name s'
          | _ => regex_match name s'
          end
      | None => regex_match name s'
      end
  end.

Definition is_word_unit (c : char16) : bool :=
  ((48 <=? c) && (c <=? 57)) || ((65 <=? c) && (c <=? 90))
  || ((97 <=? c) && (c <=? 122)) || (c =? 95).

(** A table name of letters, digits and underscores. *)
Definition plain_name (name : text) : Prop :=
  forallb is_word_unit name = true.

Section Database.

Variable TABLE_NAME : text.

(** The template [`DB_${this.TABLE_NAME}_${i}`]. *)
Definition chunk_table (i : N) : text :=
  lit "DB_" ++ TABLE_NAME ++ lit "_" ++ decimal i.

(** The entry name [`${name}(${data})`]. *)
Definition entry_name (i : N) (data : text) : text :=
  chunk_table i ++ [40] ++ data ++ [41].

Definition build : M unit :=
  runCommand (ObjectivesAdd TABLE_NAME) ;;;
  runCommand (PlayersAdd (lit "DB_SAVE") TABLE_NAME 0).

Definition SCOREBOARD_DATA : M text :=
  r <- dimension_runCommand PlayersList ;;
  match r with
  | Listing t => ret t
  | _ => throw TypeError
  end.

(** The getter [SAVE_NAMES]: the score of [DB_SAVE] in the table of the
    store, [0] when the test fails. *)
Definition SAVE_NAMES : M Z :=
  try_catch
    (r <- dimension_runCommand (PlayersTest (lit "DB_SAVE") TABLE_NAME) ;;
     match r with
     | Score z => ret z
     | _ => throw TypeError
     end)
    (fun _ => ret 0%Z).

(** The setter [SAVE_NAMES]. *)
Definition set_SAVE_NAMES (value : Z) : M unit :=
  dimension_runCommand (PlayersSet (lit "DB_SAVE") TABLE_NAME value) ;;; ret tt.

(** [for (let i = ...; i <= this.SAVE_NAMES; i++) body]: the bound is
    read again before every round.  [fuel] bounds the rounds; a loop that
    has none left throws [Diverged]. *)
Fixpoint for_SAVE_NAMES (fuel : nat) (i : N) (body : N -> M unit) : M unit :=
  match fuel with
  | O => throw Diverged
  | S fuel' =>
      n <- SAVE_NAMES ;;
      if (Z.of_N i <=? n)%Z
      then body i ;;; for_SAVE_NAMES fuel' (N.succ i) body
      else ret tt
  end.

(** The loop from [0], with the rounds the first reading of the bound
    allows and one more for the test that ends it. *)
Definition for_each_saved (body : N -> M unit) : M unit :=
  n <- SAVE_NAMES ;;
  for_SAVE_NAMES (S (Z.to_nat (n + 1))) 0 body.

(** One round of the loop of [fetch]; [null[0]] is a [TypeError]. *)
Definition fetch_round (i : N) : M unit :=
  t <- SCOREBOARD_DATA ;;
  match regex_match (chunk_table i) t with
  | Some RAW_TABLE_DATA =>
      push {| Chunk.index := i; Chunk.data := RAW_TABLE_DATA |}
  | None => throw TypeError
  end.

Definition fetch : M unit :=
  try_catch
    (for_each_saved fetch_round)
    (fun _ => set_MEMORY [{| Chunk.index := 0; Chunk.data := fallback_data |}]).

(** One round of the loop of [wipe]. *)
Definition wipe_round (i : N) : M unit :=
  runCommand (ObjectivesRemove (chunk_table i)).

Definition wipe : M unit :=
  set_MEMORY [] ;;;
  for_each_saved wipe_round ;;;
  runCommand (ObjectivesRemove TABLE_NAME) ;;;
  build.

(** The constructor, on the scoreboard [w]. *)
Definition new_Database (w : scoreboard) : result unit * state :=
  (build ;;; fetch) {| MEMORY := []; world := w |}.

(** The getter [data]. *)
Definition data : M json :=
  try_catch
    (m <- get_MEMORY ;;
     let data := map (fun a => binaryToText (Chunk.data a)) m in
     lift (JSON_parse (join [] data)))
    (fun _ => ret (JObj [])).

(** The loop of [save] over [SPLIT_DATA.entries()]. *)
Fixpoint save_chunks (index : N) (chunks : list text) : M unit :=
  match chunks with
  | [] => ret tt
  | chunk :: rest =>
      let name := chunk_table index in
      set_SAVE_NAMES (Z.of_N index) ;;;
      let data := textToBinary chunk in
      push {| Chunk.index := index; Chunk.data := data |} ;;;
      runCommand (ObjectivesAdd name) ;;;
      runCommand (PlayersSet (entry_name index data) name 0) ;;;
      save_chunks (N.succ index) rest
  end.

(** [save] from the serialized text on: [chunkString], [wipe], and the
    loop; [null.entries()] is a [TypeError]. *)
Definition save_text (serialized : text) : M unit :=
  SPLIT_DATA <- lift (chunkString serialized MAX_DATABASE_STRING_SIZE) ;;
  wipe ;;;
  match SPLIT_DATA with
  | Some chunks => save_chunks 0 chunks
  | None => throw TypeError
  end.

Definition save (json : json) : M unit := save_text (JSON_stringify json).

Definition get (key : text) : M property :=
  data <- data ;; lift (get_property data key).

Definition set (key : text) (value : json) : M unit :=
  data <- data ;;
  data <- lift (set_property data key value) ;;
  save data.

Definition keys : M (list text) :=
  data <- data ;; lift (Object_keys data).

Definition has (key : text) : M bool :=
  ks <- keys ;; ret (existsb (text_eqb key) ks).

Definition delete (key : text) : M bool :=
  json <- data ;;
  r <- lift (delete_property json key) ;;
  let '(status, json) := r in
  save json ;;;
  ret status.

Definition size : M nat := ks <- keys ;; ret (List.length ks).

Definition clear : M unit := save (JObj []).

Definition values : M (list json) :=
  data <- data ;; lift (Object_values data).

Definition getCollection : M json := data.

End Database.

(** * The vocabulary of the statements *)

(** ** Texts and pieces *)

Definition units (s : text) : N := N.of_nat (List.length s).

Definition no_line_terminator (s : text) : Prop :=
  forallb (fun c => negb (is_line_terminator c)) s = true.

(** What a match and the rest keep of the text: everything but the line
    terminators stepped over. *)
Definition strip_line_terminators (s : text) : text :=
  filter (fun c => negb (is_line_terminator c)) s.


(** The units of each piece of a split. *)
Definition piece_units (split : result (option (list text)))
  : result (option (list N)) :=
  match split with
  | inl l => inl (option_map (map units) l)
  | inr e => inr e
  end.

(** A text without U+2028 and U+2029. *)
Definition no_line_separator (s : text) : Prop :=
  ~ In 8232 s /\ ~ In 8233 s.

(** The text ends with an underscore and the digits of [i]. *)
Definition ends_with_index (i : N) (x : text) : Prop :=
  exists y, x = y ++ 95 :: decimal i.

(** ** Documents *)

(** The nodes of a document. *)
Fixpoint json_size (d : json) : nat :=
  match d with
  | JArr l => S (list_sum (map json_size l))
  | JObj m => S (list_sum (map (fun kv => json_size (snd kv)) m))
  | _ => 1%nat
  end.

(** A document of the fragment: its strings and keys are made of 16-bit
    units, its numbers are integers a double holds exactly, and every
    object has each key once, the keys in the order in which JavaScript
    lists them. *)
Fixpoint well_formed_json (d : json) : Prop :=
  match d with
  | JNum z => (Z.abs z < 2 ^ 53)%Z
  | JStr s => well_formed s
  | JArr l =>
      (fix all (l : list json) : Prop :=
         match l with
         | [] => True
         | x :: l' => well_formed_json x /\ all l'
         end) l
  | JObj m =>
      NoDup (map fst m)
      /\ in_order (map fst m) = true
      /\ (fix all (m : list (text * json)) : Prop :=
            match m with
            | [] => True
            | kv :: m' =>
                well_formed (fst kv) /\ well_formed_json (snd kv) /\ all m'
            end) m
  | _ => True
  end.

(** The strings of a document, keys included. *)
Fixpoint strings_of (d : json) : list text :=
  match d with
  | JStr s => [s]
  | JArr l => flat_map strings_of l
  | JObj m => flat_map (fun kv => fst kv :: strings_of (snd kv)) m
  | _ => []
  end.

(** The text of one member. *)
Definition member_text (kv : text * json) : text :=
  QuoteJSONString (fst kv) ++ 58 :: JSON_stringify (snd kv).

(** The value of decimal digits read after [acc]. *)
Fixpoint uint_value (d : Decimal.uint) (acc : N) : N :=
  match d with
  | Decimal.Nil => acc
  | Decimal.D0 d => uint_value d (10 * acc)
  | Decimal.D1 d => uint_value d (10 * acc + 1)
  | Decimal.D2 d => uint_value d (10 * acc + 2)
  | Decimal.D3 d => uint_value d (10 * acc + 3)
  | Decimal.D4 d => uint_value d (10 * acc + 4)
  | Decimal.D5 d => uint_value d (10 * acc + 5)
  | Decimal.D6 d => uint_value d (10 * acc + 6)
  | Decimal.D7 d => uint_value d (10 * acc + 7)
  | Decimal.D8 d => uint_value d (10 * acc + 8)
  | Decimal.D9 d => uint_value d (10 * acc + 9)
  end.

(** The text goes on with something that is no digit. *)
Definition no_digit_ahead (rest : text) : Prop :=
  match rest with
  | [] => True
  | c :: _ => is_digit c = false
  end.

(** What may follow a value inside a text: nothing, a comma, or a
    closing bracket or brace. *)
Definition value_follows (rest : text) : Prop :=
  match rest with
  | [] => True
  | c :: _ => c = 44 \/ c = 93 \/ c = 125
  end.

(** [parse_value] reads the text of [d] back, whatever follows. *)
Definition reads_back (d : json) : Prop :=
  well_formed_json d ->
  forall (fuel : nat) (rest : text),
  (2 * json_size d <= fuel)%nat -> value_follows rest ->
  parse_value fuel (JSON_stringify d ++ rest) = inl (d, rest).

(** ** The scoreboard *)

(** The scoreboard after a command, whether it failed or not. *)
Definition exec (c : command) (w : scoreboard) : scoreboard :=
  match run c w with Some (_, w') => w' | None => w end.

(** The entries of the scoreboard, each with its table. *)
Definition players (w : scoreboard) : list (text * text) :=
  flat_map (fun o => map (fun e => (objective_name o, fst e)) (scores o)) w.

(** ** The store *)

(** The text the cache decodes to. *)
Definition cached_text (st : state) : text :=
  join [] (map (fun a => binaryToText (Chunk.data a)) (MEMORY st)).

(** What the getter [data] makes of what [JSON.parse] answers: the
    value it returns, the empty object for the error it throws. *)
Definition caught (r : result json) : result json :=
  match r with
  | inl v => inl v
  | inr e => if catchable e then inl (JObj []) else inr e
  end.

(** What the loop of [save] leaves in the cache. *)
Fixpoint encode_chunks (index : N) (chunks : list text) : list Chunk.t :=
  match chunks with
  | [] => []
  | chunk :: rest =>
      {| Chunk.index := index; Chunk.data := textToBinary chunk |}
        :: encode_chunks (N.succ index) rest
  end.

Section Vocabulary.

Variable T : text.

(** The chunk-count record of a store: the score of [DB_SAVE] in its
    table. *)
Definition count_record (w : scoreboard) : option Z :=
  match scores_in T w with
  | Some l => score_of (lit "DB_SAVE") l
  | None => None
  end.

(** What the getter [SAVE_NAMES] reads. *)
Definition bound (w : scoreboard) : Z :=
  match count_record w with Some z => z | None => 0%Z end.

(** [w'] has no table and no entry that [w] has not, and the same table
    of the store. *)
Definition shrinks (w w' : scoreboard) : Prop :=
  scores_in T w' = scores_in T w
  /\ (forall n, has_objective n w' = true -> has_objective n w = true)
  /\ (forall o p, In (o, p) (players w') -> In (o, p) (players w)).

(** An entry that [save] writes for this store. *)
Definition chunk_entry (o p : text) : Prop :=
  exists i chunk,
    o = chunk_table T i /\ p = entry_name T i (textToBinary chunk).

(** The invariant of the backing state: the chunk-count record is [n],
    and the chunk tables are those of the indices from [0] to [n]. *)
Definition chunk_range (n : N) (w : scoreboard) : Prop :=
  count_record w = Some (Z.of_N n)
  /\ forall j, has_objective (chunk_table T j) w = true <-> j <= n.

(** No chunk table lies above the bound that [wipe] reads. *)
Definition no_stale_chunk (w : scoreboard) : Prop :=
  forall j, has_objective (chunk_table T j) w = true ->
            (Z.of_N j <= bound w)%Z.

(** An entry name in which the expression of [fetch] for the index [j]
    finds nothing: one without a parenthesis, or the entry of another
    index. *)
Definition harmless (j : N) (p : text) : Prop :=
  ~ In 40 p
  \/ exists i chunk, i <> j /\ p = entry_name T i (textToBinary chunk).

(** The entry names that [save] makes of a serialized text are all
    within the bound of the backing system. *)
Definition names_fit (serialized : text) : bool :=
  match chunkString serialized MAX_DATABASE_STRING_SIZE with
  | inl (Some chunks) =>
      forallb (fun c => fits (entry_name T (Chunk.index c) (Chunk.data c)))
              (encode_chunks 0 chunks)
  | _ => true
  end.

(** A scoreboard the store can share: every entry with a parenthesis in
    its name is one that [save] wrote, in the table of its chunk. *)
Definition well_kept (w : scoreboard) : Prop :=
  forall o q, In (o, q) (players w) -> ~ In 40 q \/ chunk_entry o q.

End Vocabulary.

(** ** Concrete inputs *)

(** A store named [T], constructed on an empty scoreboard. *)
Definition store_T : text := lit "T".
Definition fresh : state := snd (new_Database store_T []).

(** The document with one member [a], the string of the one unit
    U+2028 (line separator). *)
Definition doc_ls : json := JObj [(lit "a", JStr [8232])].

(** The document with one member [a], a string of U+2028 and [n] times
    the letter x. *)
Definition long_doc (n : N) : json :=
  JObj [(lit "a", JStr (8232 :: repeat 120 (N.to_nat n)))].

(** A scoreboard on which something else wrote the text of [doc_ls] as
    the chunk [0] of the store [T]. *)
Definition written_elsewhere : scoreboard :=
  [ {| objective_name := store_T; scores := [(lit "DB_SAVE", 0%Z)] |};
    {| objective_name := chunk_table store_T 0;
       scores := [(entry_name store_T 0 (textToBinary (JSON_stringify doc_ls)), 0%Z)] |} ].

(** * The rest of the file

    Functions and classes of [src/scripts/api.js] beside the store. *)

(** ** The class CommandBuilder

    Lines 242-316 of [src/scripts/api.js].  [String.prototype.toLowerCase]
    belongs to the language and follows the Unicode case mappings; the
    class is modelled for any function in its place.  A callback is a
    value of a type that is not looked into. *)

Module CommandBuilder.

(** What [register] is given.  A field that may be missing is an option;
    the name is a string. *)
Record registerInformation := {
  register_private : option bool;
  register_cancelMessage : option bool;
  register_name : text;
  register_aliases : option (list text);
  register_description : option text;
  register_usage : option text;
  register_example : option text
}.

(** Whether a condition holds of a value that is a boolean or missing,
    and of one that is a string or missing: [undefined], [false] and the
    empty string do not pass. *)
Definition truthy_bool (b : option bool) : bool :=
  match b with Some true => true | _ => false end.
Definition truthy_text (s : option text) : bool :=
  match s with Some (_ :: _) => true | _ => false end.

(** [array.includes(x)] for strings. *)
Definition includes (x : text) (l : list text) : bool :=
  existsb (text_eqb x) l.

Section Class.

Variable toLowerCase : text -> text.
Variable Callback : Type.

(** An element of [_registrationInformation]; [None] is [null] or
    [undefined]. *)
Record storedRegisterInformation := {
  private : bool;
  cancelMessage : bool;
  name : text;
  aliases : option (list text);
  description : option text;
  usage : option text;
  example : option text;
  callback : Callback
}.

Record t := {
  prefix : text;
  _registrationInformation : list storedRegisterInformation
}.

(** The constructor. *)
Definition new : t := {| prefix := lit "."; _registrationInformation := [] |}.

Definition register (register : registerInformation) (callback : Callback)
    (this : t) : t :=
  {| prefix := prefix this;
     _registrationInformation :=
       _registrationInformation this
       ++ [{| private := if truthy_bool (register_private register)
                         then true else false;
              cancelMessage := if truthy_bool (register_cancelMessage register)
                               then true else false;
              name := toLowerCase (register_name register);
              aliases := match register_aliases register with
                         | Some l => Some (map toLowerCase l)
                         | None => None
                         end;
              description := register_description register;
              usage := register_usage register;
              example := if truthy_text (register_example register)
                         then register_example register else None;
              callback := callback |}] |}.

(** [get()]: the loop pushes the name of every element that is not
    private. *)
Definition get (this : t) : list text :=
  fold_left
    (fun commands element =>
       if private element then commands else commands ++ [name element])
    (_registrationInformation this) [].

Definition getAllRegistation (this : t) : list storedRegisterInformation :=
  _registrationInformation this.

(** The test both loops of [getRegistration] make of an element:
    [element.name.toLowerCase() === name ||
     (element.aliases && element.aliases.includes(name))]. *)
Definition answers_to (name' : text) (element : storedRegisterInformation)
  : bool :=
  text_eqb (toLowerCase (name element)) name'
  || match aliases element with
     | Some l => includes name' l
     | None => false
     end.

(** [getRegistration(name)]; [None] is [undefined]. *)
Definition getRegistration (name' : text) (this : t)
  : option storedRegisterInformation :=
  let command := existsb (answers_to name') (_registrationInformation this) in
  if negb command then None
  else
    fold_left
      (fun register element =>
         if private element then register
         else
           let eachCommand := answers_to name' element in
           if negb eachCommand then register else Some element)
      (_registrationInformation this) None.

(** The builder after a sequence of calls of [register]. *)
Definition registered (calls : list (registerInformation * Callback)) : t :=
  fold_left (fun this rc => register (fst rc) (snd rc) this) calls new.

(** An element that [getRegistration(name)] passes over. *)
Definition passed_over (name' : text) (element : storedRegisterInformation)
  : Prop :=
  private element = true \/ answers_to name' element = false.

(** One round of the second loop of [getRegistration]. *)
Definition lookup_step (name' : text)
    (register : option storedRegisterInformation)
    (element : storedRegisterInformation)
  : option storedRegisterInformation :=
  if private element then register
  else if negb (answers_to name' element) then register
  else Some element.

(** An element whose name and aliases are in lower case. *)
Definition lower_case (e : storedRegisterInformation) : Prop :=
  toLowerCase (name e) = name e
  /\ forall l a, aliases e = Some l -> In a l -> toLowerCase a = a.

End Class.

Arguments private {Callback} _.
Arguments cancelMessage {Callback} _.
Arguments name {Callback} _.
Arguments aliases {Callback} _.
Arguments description {Callback} _.
Arguments usage {Callback} _.
Arguments example {Callback} _.
Arguments callback {Callback} _.
Arguments prefix {Callback} _.
Arguments _registrationInformation {Callback} _.
Arguments register toLowerCase {Callback} _ _ _.
Arguments get {Callback} _.
Arguments getAllRegistation {Callback} _.
Arguments answers_to toLowerCase {Callback} _ _.
Arguments getRegistration toLowerCase {Callback} _ _.
Arguments registered toLowerCase {Callback} _.
Arguments passed_over toLowerCase {Callback} _ _.
Arguments lookup_step toLowerCase {Callback} _ _ _.
Arguments lower_case toLowerCase {Callback} _.

End CommandBuilder.

(** [toLowerCase] on the letters A to Z, which is what the function of
    the language does on ASCII text. *)
Definition ascii_toLowerCase (s : text) : text :=
  map (fun c => if (65 <=? c) && (c <=? 90) then c + 32 else c) s.

(** ** betweenXYZ

    Line 1051 of [src/scripts/api.js].  The coordinates are Number values
    that are only compared: a finite one is modelled by the rational it
    stands for, which keeps every comparison. *)

Inductive double :=
| DNaN
| Finite (q : QArith_base.Q)
| DInfinity (negative : bool).

(** [x <= y]; [false] when either is [NaN]. *)
Definition double_le (x y : double) : bool :=
  match x, y with
  | DNaN, _ => false
  | _, DNaN => false
  | DInfinity true, _ => true
  | _, DInfinity false => true
  | DInfinity false, _ => false
  | _, DInfinity true => false
  | Finite p, Finite q => QArith_base.Qle_bool p q
  end.

(** [x >= y], which is [y <= x] for Number values. *)
Definition double_ge (x y : double) : bool := double_le y x.

(** [Math.min(x, y)] and [Math.max(x, y)]: [NaN] when either is. *)
Definition Math_min (x y : double) : double :=
  match x, y with
  | DNaN, _ => DNaN
  | _, DNaN => DNaN
  | _, _ => if double_le x y then x else y
  end.

Definition Math_max (x y : double) : double :=
  match x, y with
  | DNaN, _ => DNaN
  | _, DNaN => DNaN
  | _, _ => if double_le x y then y else x
  end.

(** [array[i]] as [Math.min] and [Math.max] take it: past the end it is
    [undefined], which they read as [NaN]. *)
Definition element_at (array : list double) (i : nat) : double :=
  nth i array DNaN.

(** [array.filter((c, i) => f(c, i))], from the index [i] on. *)
Fixpoint filter_index {A : Type} (f : A -> nat -> bool) (i : nat) (l : list A)
  : list A :=
  match l with
  | [] => []
  | c :: l' =>
      if f c i then c :: filter_index f (S i) l' else filter_index f (S i) l'
  end.

Definition betweenXYZ (XYZa XYZb XYZc : list double) : bool :=
  Nat.eqb (List.length XYZc)
    (List.length
       (filter_index
          (fun c i =>
             double_ge c (Math_min (element_at XYZa i) (element_at XYZb i))
             && double_le c (Math_max (element_at XYZa i) (element_at XYZb i)))
          0 XYZc)).

(** The coordinate [c] lies between [a] and [b], the ends included. *)
Definition within (a b c : double) : bool :=
  (double_le a c && double_le c b) || (double_le b c && double_le c a).

(** ** The class tickTimeout

    Lines 396-438 of [src/scripts/api.js]: [setTickTimeout] and
    [setTickInterval] construct a [tickTimeout], whose constructor
    subscribes a function to the tick event of the host. *)

(** The Number value of an integer: the nearest double. *)
Definition number_of_Z (z : Z) : number :=
  match to_double (Z.abs_N z) with
  | Some v => Int (if (z <? 0)%Z then Z.opp (Z.of_N v) else Z.of_N v)
  | None => Infinity (z <? 0)%Z
  end.

(** [x + y] for the Number values of the codec. *)
Definition number_add (x y : number) : number :=
  match x, y with
  | NaN, _ => NaN
  | _, NaN => NaN
  | Int a, Int b => number_of_Z (a + b)
  | Infinity s, Int _ => Infinity s
  | Int _, Infinity s => Infinity s
  | Infinity s, Infinity s' => if Bool.eqb s s' then Infinity s else NaN
  end.

(** [x <= y]; [false] when either is [NaN]. *)
Definition number_le (x y : number) : bool :=
  match x, y with
  | NaN, _ => false
  | _, NaN => false
  | Int a, Int b => (a <=? b)%Z
  | Infinity true, _ => true
  | _, Infinity false => true
  | Infinity false, Int _ => false
  | Infinity false, Infinity true => false
  | Int _, Infinity true => false
  end.

(** [x == 0]. *)
Definition number_is_zero (x : number) : bool :=
  match x with Int z => (z =? 0)%Z | _ => false end.

Module tickTimeout.

(** The fields of the object.  A [tick] that was not given is
    [undefined], which the one sum that uses it reads as [NaN]. *)
Record t := { tickDelay : number; callbackTick : number; loop : bool }.

(** The constructor, but for the subscription. *)
Definition new (tick : number) (loop : bool) : t :=
  {| tickDelay := tick; callbackTick := Int 0; loop := loop |}.

(** What one call of the subscribed function did: the object afterwards,
    whether it ran the callback, and whether it unsubscribed itself. *)
Record outcome := { after : t; called : bool; unsubscribed : bool }.

Definition set_callbackTick (v : number) (this : t) : t :=
  {| tickDelay := tickDelay this; callbackTick := v; loop := loop this |}.

(** The function the constructor subscribes, on the event of the tick
    [currentTick]; [callback_throws] says whether the callback throws
    when it is run.  What it throws is caught and logged. *)
Definition subscriber (callback_throws : bool) (currentTick : number)
    (this : t) : outcome :=
  let this :=
    if number_is_zero (callbackTick this)
    then set_callbackTick (number_add currentTick (tickDelay this)) this
    else this in
  if number_le (callbackTick this) currentTick then
    if callback_throws then
      {| after := this; called := true; unsubscribed := false |}
    else if loop this then
      {| after := set_callbackTick (number_add currentTick (tickDelay this)) this;
         called := true; unsubscribed := false |}
    else {| after := this; called := true; unsubscribed := true |}
  else {| after := this; called := false; unsubscribed := false |}.

(** The ticks at which the callback ran, when the host calls the
    subscribed function on every tick event until it unsubscribes. *)
Fixpoint run (throws : number -> bool) (ticks : list number) (this : t)
  : list number :=
  match ticks with
  | [] => []
  | currentTick :: rest =>
      let o := subscriber (throws currentTick) currentTick this in
      (if called o then [currentTick] else [])
      ++ (if unsubscribed o then [] else run throws rest (after o))
  end.

End tickTimeout.

(** [setTickTimeout(callback, tick)] and [setTickInterval(callback, tick)]. *)
Definition setTickTimeout (tick : number) : tickTimeout.t :=
  tickTimeout.new tick false.
Definition setTickInterval (tick : number) : tickTimeout.t :=
  tickTimeout.new tick true.

(** The events of [n] ticks in a row, the first at [t0]. *)
Definition ticks_from (t0 : Z) (n : nat) : list number :=
  map (fun k => Int (t0 + Z.of_nat k)) (seq 0 n).

(** A timeout of delay [d] that is armed for the tick [a + r]. *)
Definition armed (d a r : Z) (loop : bool) : tickTimeout.t :=
  {| tickTimeout.tickDelay := Int d;
     tickTimeout.callbackTick := Int (a + r);
     tickTimeout.loop := loop |}.

(** The runs of an interval of delay [d] in [n] ticks, the first run
    being [r] ticks ahead. *)
Definition hits (d : Z) (n : nat) (r : Z) : nat :=
  Z.to_nat ((Z.of_nat n - 1 - r + d) / d).

(** ** Tags and stacks

    Lines 1115-1153 of [src/scripts/api.js]: [getTagStartsWith],
    [getGenericName] and [getStack].  The tags of an entity are what
    [entity.getTags()] of the host answers, an array of strings. *)

(** [s.startsWith(value)]. *)
Definition startsWith (s value : text) : bool :=
  match strip_prefix value s with Some _ => true | None => false end.

(** [getTagStartsWith(entity, value)] on the tags of the entity; [None]
    is [null]. *)
Definition getTagStartsWith (tags : list text) (value : text) : option text :=
  if Nat.eqb (List.length tags) 0 then None
  else
    match find (fun tag => startsWith tag value) tags with
    | None => None
    | Some tag =>
        match tag with
        | [] => None
        | _ :: _ =>
            if Nat.ltb (List.length tag) (List.length value) then None
            else Some (skipn (List.length value) tag)
        end
    end.

(** [getGenericName(entityName)]: the second piece of the split at the
    colons, its underscores made spaces; there is no second piece
    without a colon, and [undefined.replace] is a [TypeError]. *)
Definition getGenericName (entityName : text) : result text :=
  match nth_error (split_on 58 entityName) 1 with
  | Some piece => inl (map (fun c => if c =? 95 then 32 else c) piece)
  | None => inr TypeError
  end.

(** The value of a digit of [parseInt]: a decimal digit or a letter. *)
Definition digit_value (c : char16) : option N :=
  if is_digit c then Some (c - 48)
  else if (97 <=? c) && (c <=? 122) then Some (c - 87)
  else if (65 <=? c) && (c <=? 90) then Some (c - 55)
  else None.

(** The longest prefix of digits of the radix, as the value read so far
    and the number of digits. *)
Fixpoint radix_digits (radix : N) (s : text) (acc : N) (count : nat)
  : N * nat :=
  match s with
  | c :: s' =>
      match digit_value c with
      | Some v =>
          if v <? radix then radix_digits radix s' (radix * acc + v) (S count)
          else (acc, count)
      | None => (acc, count)
      end
  | [] => (acc, count)
  end.

(** [parseInt(string)] without a radix: radix 10, or 16 after the prefix
    [0x] or [0X]. *)
Definition parseInt (s : text) : number :=
  let s1 := skip_spaces s in
  let '(neg, s2) :=
    match s1 with
    | c :: s' => if c =? 45 then (true, s')
                 else if c =? 43 then (false, s') else (false, s1)
    | [] => (false, s1)
    end in
  let '(radix, s3) :=
    match s2 with
    | 48 :: x :: s' => if (x =? 120) || (x =? 88) then (16, s') else (10, s2)
    | _ => (10, s2)
    end in
  match radix_digits radix s3 0 O with
  | (_, O) => NaN
  | (m, _) =>
      match to_double m with
      | None => Infinity neg
      | Some v => Int (if neg then Z.opp (Z.of_N v) else Z.of_N v)
      end
  end.

(** [getStack(entity)] on the tags of the entity. *)
Definition getStack (tags : list text) : number :=
  let value :=
    match getTagStartsWith tags (lit "stack:") with
    | Some v => v
    | None => lit "1"
    end in
  parseInt value.

(** The tag [`stack:${value.toString()}`] that [setStack] adds, for an
    integer. *)
Definition stack_tag (value : Z) : text := lit "stack:" ++ number_text value.

(** ** The log of block breaks

    Lines 660-683 of [src/scripts/api.js]: the object [log], the function
    subscribed to the block-break event and the one subscribed to the
    leaving of a player.  The log is an object used as a map from player
    names to times; the members an object inherits are outside the
    model.  A time is what [Date.now()] answers, an integer of
    milliseconds. *)

Definition break_log := list (text * Z).

(** [log[name]]; [None] is [undefined]. *)
Fixpoint log_get (name : text) (log : break_log) : option Z :=
  match log with
  | [] => None
  | (p, t) :: rest => if text_eqb p name then Some t else log_get name rest
  end.

(** [log[name] = t]. *)
Fixpoint log_set (name : text) (t : Z) (log : break_log) : break_log :=
  match log with
  | [] => [(name, t)]
  | (p, y) :: rest =>
      if text_eqb p name then (p, t) :: rest else (p, y) :: log_set name t rest
  end.

(** [delete log[name]]. *)
Fixpoint log_delete (name : text) (log : break_log) : break_log :=
  match log with
  | [] => []
  | (p, y) :: rest =>
      if text_eqb p name then rest else (p, y) :: log_delete name rest
  end.

(** The function subscribed to the block-break event, for a player of
    the name [name]; [staff] is [player.hasTag(byPassTag)], and [now1] and
    [now2] are the two readings of [Date.now()].  It answers the log
    afterwards and whether the block was put back.  [old < now2 - 50] is
    [false] for an [old] that is [undefined]. *)
Definition on_blockBreak (name : text) (staff : bool) (now1 now2 : Z)
    (log : break_log) : break_log * bool :=
  let old := log_get name log in
  let log := log_set name now1 log in
  if (match old with Some t => (t <? now2 - 50)%Z | None => false end) || staff
  then (log, false)
  else (log, true).

(** The function subscribed to the leaving of a player. *)
Definition on_playerLeave (playerName : text) (log : break_log) : break_log :=
  log_delete playerName log.

(** The events the two functions are subscribed to. *)
Inductive log_event :=
| BlockBreak (name : text) (staff : bool) (now1 now2 : Z)
| PlayerLeave (playerName : text).

(** The log after a sequence of events, from the empty object the file
    starts with. *)
Definition log_after (events : list log_event) : break_log :=
  fold_left
    (fun log e =>
       match e with
       | BlockBreak name staff now1 now2 =>
           fst (on_blockBreak name staff now1 now2 log)
       | PlayerLeave playerName => on_playerLeave playerName log
       end)
    events [].

(** ** The check of positions

    Lines 772-787 of [src/scripts/api.js]: the function subscribed to
    the tick event that kicks the players whose position is out of
    range. *)

(** [Math.abs(x)]. *)
Definition Math_abs (x : double) : double :=
  match x with
  | DNaN => DNaN
  | Finite q => Finite (Qabs.Qabs q)
  | DInfinity _ => DInfinity false
  end.

(** [x > y]; [false] when either is [NaN]. *)
Definition double_gt (x y : double) : bool :=
  match x, y with
  | DNaN, _ => false
  | _, DNaN => false
  | _, _ => negb (double_le x y)
  end.

Module Player.
(** What the check reads of a player: its name tag, whether it has the
    tag [staff], and its location. *)
Record t := { nameTag : text; staff : bool; x : double; y : double; z : double }.
End Player.

Definition position_limit : double := Finite (QArith_base.inject_Z 30000000).

Definition out_of_range (player : Player.t) : bool :=
  double_gt (Math_abs (Player.x player)) position_limit
  || double_gt (Math_abs (Player.y player)) position_limit
  || double_gt (Math_abs (Player.z player)) position_limit.

(** The loop over [world.getPlayers()]: the name tags of the players it
    kicks, in order.  [kick_throws] says for which name tags the command
    of the host throws, which ends the function. *)
Fixpoint position_check (kick_throws : text -> bool) (players : list Player.t)
  : list text :=
  match players with
  | [] => []
  | player :: rest =>
      if Player.staff player then []
      else if out_of_range player then
        Player.nameTag player
          :: (if kick_throws (Player.nameTag player) then []
              else position_check kick_throws rest)
      else position_check kick_throws rest
  end.

(** The document with the one member [a], the number 1, and the store
    [T] after it saved that document on an empty scoreboard. *)
Definition doc_a : json := JObj [(lit "a", JNum 1)].
Definition saved : state := snd (save store_T doc_a fresh).

(** The document with the one member [b], and the store after it was
    saved. *)
Definition doc_b : json := JObj [(lit "b", JNum 1)].
Definition saved_b : state := snd (save store_T doc_b fresh).

(** A second store, named [DB_T], and the document with the one member
    [u], the number 7. *)
Definition store_DB_T : text := lit "DB_T".
Definition doc_u : json := JObj [(lit "u", JNum 7)].

(** The scoreboard after the store [T] saved [doc_a] and a store [DB_T],
    constructed on the same scoreboard, saved [doc_u]. *)
Definition two_stores : scoreboard :=
  world (snd (save store_DB_T doc_u
                (snd (new_Database store_DB_T (world saved))))).

(** A table that is not of the store [T]. *)
Definition other_table : text := lit "other".

(** Two registrations: a command [Ping] with the alias [P], and a
    private command [Op]. *)
Definition register_ping : CommandBuilder.registerInformation :=
  {| CommandBuilder.register_private := None;
     CommandBuilder.register_cancelMessage := None;
     CommandBuilder.register_name := lit "Ping";
     CommandBuilder.register_aliases := Some [lit "P"];
     CommandBuilder.register_description := None;
     CommandBuilder.register_usage := None;
     CommandBuilder.register_example := None |}.

Definition register_op : CommandBuilder.registerInformation :=
  {| CommandBuilder.register_private := Some true;
     CommandBuilder.register_cancelMessage := None;
     CommandBuilder.register_name := lit "Op";
     CommandBuilder.register_aliases := None;
     CommandBuilder.register_description := None;
     CommandBuilder.register_usage := None;
     CommandBuilder.register_example := None |}.

Local Abbreviation DB_SAVE := (lit "DB_SAVE").

(** * Properties of the codec *)

Lemma take_dots_plain (n : nat) (s : text) :
  no_line_terminator s -> take_dots n s = (firstn n s, skipn n s).
Proof.
  revert s; induction n as [|n IH]; intros [|c s] H; simpl; try reflexivity.
  unfold no_line_terminator in H; simpl in H.
  apply andb_true_iff in H as [Hc Hs].
  apply negb_true_iff in Hc; rewrite Hc.
  rewrite (IH s Hs); reflexivity.
Qed.

Lemma take_dots_app (n : nat) (s m r : text) :
  take_dots n s = (m, r) -> s = m ++ r.
Proof.
  revert s m r; induction n as [|n IH]; intros [|c s] m r H; simpl in H;
    try (injection H as <- <-; reflexivity).
  destruct (is_line_terminator c).
  - injection H as <- <-; reflexivity.
  - destruct (take_dots n s) as [m' r'] eqn:E.
    injection H as <- <-. simpl. f_equal. eapply IH; eassumption.
Qed.

Lemma take_dots_bounds (n : nat) (s m r : text) :
  take_dots n s = (m, r) ->
  (List.length m <= n)%nat /\ no_line_terminator m.
Proof.
  revert s m r; induction n as [|n IH]; intros [|c s] m r H; simpl in H;
    try (injection H as <- <-; split; [simpl; lia | reflexivity]).
  destruct (is_line_terminator c) eqn:Ec.
  - injection H as <- <-; split; [simpl; lia | reflexivity].
  - destruct (take_dots n s) as [m' r'] eqn:E.
    injection H as <- <-. destruct (IH _ _ _ E) as [Hl Hn].
    split; [simpl; lia|]. unfold no_line_terminator; simpl.
    rewrite Ec; simpl. exact Hn.
Qed.

(** A match of [.{1,n}] is never empty and leaves a shorter text. *)
Lemma exec_dots_shorter (n : nat) (s m r : text) :
  (0 < n)%nat -> exec_dots n s = Some (m, r) ->
  m <> [] /\ (List.length r < List.length s)%nat.
Proof.
  intros Hn; induction s as [|c s IH]; simpl; [discriminate|].
  destruct (is_line_terminator c) eqn:Ec.
  - intros H; destruct (IH H) as [? ?]; split; [assumption | lia].
  - destruct n as [|n]; [lia|]. simpl. rewrite Ec.
    destruct (take_dots n s) as [m' r'] eqn:E.
    intros H; injection H as <- <-. split; [discriminate|].
    apply take_dots_app in E. subst s. rewrite length_app. simpl; lia.
Qed.

Lemma strip_plain (s : text) :
  no_line_terminator s -> strip_line_terminators s = s.
Proof.
  unfold no_line_terminator, strip_line_terminators.
  induction s as [|c s IH]; simpl; [reflexivity|].
  intros H; apply andb_true_iff in H as [Hc Hs].
  rewrite Hc, (IH Hs); reflexivity.
Qed.

Lemma strip_app (a b : text) :
  strip_line_terminators (a ++ b)
  = strip_line_terminators a ++ strip_line_terminators b.
Proof. apply filter_app. Qed.

Lemma strip_cons (c : char16) (s : text) :
  strip_line_terminators (c :: s)
  = if is_line_terminator c then strip_line_terminators s
    else c :: strip_line_terminators s.
Proof.
  unfold strip_line_terminators; cbn [filter].
  destruct (is_line_terminator c); reflexivity.
Qed.

Lemma exec_dots_strip (n : nat) (s m r : text) :
  exec_dots n s = Some (m, r) ->
  strip_line_terminators s = m ++ strip_line_terminators r.
Proof.
  induction s as [|c s IH]; cbn [exec_dots]; [discriminate|].
  destruct (is_line_terminator c) eqn:Ec.
  - intros H. rewrite strip_cons, Ec. apply IH, H.
  - intros H. injection H as H.
    pose proof (take_dots_app _ _ _ _ H) as Happ.
    pose proof (take_dots_bounds _ _ _ _ H) as [_ Hm].
    rewrite Happ, strip_app, (strip_plain m Hm). reflexivity.
Qed.

Lemma exec_dots_none (n : nat) (s : text) :
  exec_dots n s = None -> strip_line_terminators s = [].
Proof.
  induction s as [|c s IH]; cbn [exec_dots]; [reflexivity|].
  destruct (is_line_terminator c) eqn:Ec; [|discriminate].
  intros H. rewrite strip_cons, Ec. apply IH, H.
Qed.

(** The matches, put together, are the text without its line terminators. *)
Lemma match_all_concat (n : nat) :
  (0 < n)%nat ->
  forall fuel s, (List.length s < fuel)%nat ->
  List.concat (match_all fuel n s) = strip_line_terminators s.
Proof.
  intros Hn; induction fuel as [|fuel IH]; intros s Hf; [lia|]. simpl.
  destruct (exec_dots n s) as [[m r]|] eqn:E.
  - simpl. destruct (exec_dots_shorter _ _ _ _ Hn E) as [_ Hr].
    rewrite IH by lia. symmetry; eapply exec_dots_strip; eassumption.
  - symmetry; eapply exec_dots_none; eassumption.
Qed.

Lemma match_all_pieces (n : nat) :
  (0 < n)%nat ->
  forall fuel s,
  Forall (fun p => p <> [] /\ (List.length p <= n)%nat /\ no_line_terminator p)
         (match_all fuel n s).
Proof.
  intros Hn; induction fuel as [|fuel IH]; intros s; simpl; [constructor|].
  destruct (exec_dots n s) as [[m r]|] eqn:E; [|constructor].
  constructor; [|apply IH].
  destruct (exec_dots_shorter _ _ _ _ Hn E) as [Hm _]. split; [exact Hm|].
  clear IH Hm. induction s as [|c s IHs]; simpl in E; [discriminate|].
  destruct (is_line_terminator c); [apply IHs, E|].
  injection E as E. eapply take_dots_bounds; eassumption.
Qed.

(** *** The text without line terminators *)

Lemma exec_dots_plain (n : nat) (c : char16) (s : text) :
  no_line_terminator (c :: s) ->
  exec_dots n (c :: s) = Some (firstn n (c :: s), skipn n (c :: s)).
Proof.
  intros H. pose proof H as H'. unfold no_line_terminator in H'.
  cbn [forallb] in H'. apply andb_true_iff in H' as [Hc _].
  apply negb_true_iff in Hc. cbn [exec_dots]. rewrite Hc.
  rewrite take_dots_plain by exact H. reflexivity.
Qed.

Lemma no_line_terminator_skipn (n : nat) (s : text) :
  no_line_terminator s -> no_line_terminator (skipn n s).
Proof.
  unfold no_line_terminator. intros H.
  rewrite <- (firstn_skipn n s), forallb_app in H.
  apply andb_true_iff in H as [_ H]; exact H.
Qed.


Lemma match_all_nonempty (n fuel : nat) (s : text) :
  match_all (S fuel) n s = [] <-> exec_dots n s = None.
Proof.
  cbn [match_all]. destruct (exec_dots n s) as [[m r]|]; split; congruence.
Qed.

Lemma exec_dots_some (n : nat) (s : text) :
  strip_line_terminators s <> [] -> exec_dots n s <> None.
Proof.
  intros H E. apply H. eapply exec_dots_none; eassumption.
Qed.

(** [chunkString] is the match for every length but [0]. *)
Lemma chunkString_dots (s : text) (n : N) :
  1 <= n -> chunkString s n = inl (match_dots s (N.to_nat n)).
Proof.
  intros Hn. unfold chunkString, new_RegExp_dots.
  destruct (N.eqb_spec n 0) as [->|_]; [lia|reflexivity].
Qed.


Lemma chunkString_MAX (s : text) :
  chunkString s MAX_DATABASE_STRING_SIZE
  = inl (match_dots s (N.to_nat MAX_DATABASE_STRING_SIZE)).
Proof. apply chunkString_dots. unfold MAX_DATABASE_STRING_SIZE. lia. Qed.

(** The match is an array exactly when the text has a unit that is no
    line terminator. *)
Lemma match_dots_some (s : text) (n : nat) :
  strip_line_terminators s <> [] ->
  exists p l, match_dots s n = Some (p :: l).
Proof.
  intros H. unfold match_dots.
  destruct (match_all (S (List.length s)) n s) as [|p l] eqn:E.
  - apply match_all_nonempty in E. exfalso. eapply exec_dots_some; eassumption.
  - exists p, l; reflexivity.
Qed.


Lemma chunkString_some (s : text) (n : N) :
  1 <= n -> strip_line_terminators s <> [] ->
  exists p l, chunkString s n = inl (Some (p :: l)).
Proof.
  intros Hn H. rewrite chunkString_dots by exact Hn.
  destruct (match_dots_some s (N.to_nat n) H) as (p & l & E).
  exists p, l. rewrite E. reflexivity.
Qed.



(** The split of any text: the pieces are the text without its line
    terminators, no piece is empty or longer than [maxLen]. *)
Theorem chunkString_pieces (s : text) (maxLen : N) (l : list text) :
  1 <= maxLen -> chunkString s maxLen = inl (Some l) ->
  List.concat l = strip_line_terminators s
  /\ Forall (fun p => p <> [] /\ (List.length p <= N.to_nat maxLen)%nat
                      /\ no_line_terminator p) l.
Proof.
  intros Hn H.
  assert (Hn' : (0 < N.to_nat maxLen)%nat) by lia.
  rewrite chunkString_dots in H by exact Hn. unfold match_dots in H.
  pose proof (match_all_concat _ Hn' (S (List.length s)) s (Nat.lt_succ_diag_r _))
    as Hc.
  pose proof (match_all_pieces _ Hn' (S (List.length s)) s) as Hp.
  destruct (match_all (S (List.length s)) (N.to_nat maxLen) s) as [|p l'];
    [discriminate|].
  injection H as <-. split; assumption.
Qed.

(** *** Tokens of binary digits *)

Lemma join_nil (l : list text) : join [] l = List.concat l.
Proof.
  induction l as [|x [|y l] IH]; [reflexivity| |].
  - simpl. rewrite app_nil_r; reflexivity.
  - change (join [] (x :: y :: l)) with (x ++ [] ++ join [] (y :: l)).
    rewrite IH; reflexivity.
Qed.

Lemma split_on_plain (sep : char16) (x : text) :
  ~ In sep x -> split_on sep x = [x].
Proof.
  induction x as [|c x IH]; intros H; [reflexivity|]. cbn [split_on].
  destruct (N.eqb_spec c sep) as [->|Hc]; [exfalso; apply H; left; reflexivity|].
  rewrite IH; [reflexivity|]. intros Hin; apply H; right; exact Hin.
Qed.

Lemma split_on_app (sep : char16) (x rest : text) :
  ~ In sep x -> split_on sep (x ++ sep :: rest) = x :: split_on sep rest.
Proof.
  induction x as [|c x IH]; intros H.
  - cbn [app split_on]. rewrite N.eqb_refl; reflexivity.
  - cbn [app split_on].
    destruct (N.eqb_spec c sep) as [->|Hc]; [exfalso; apply H; left; reflexivity|].
    rewrite IH; [reflexivity|]. intros Hin; apply H; right; exact Hin.
Qed.

Lemma split_on_join (sep : char16) (l : list text) :
  l <> [] -> Forall (fun x => ~ In sep x) l ->
  split_on sep (join [sep] l) = l.
Proof.
  induction l as [|x [|y l] IH]; intros Hne Hl; [congruence| |].
  - apply split_on_plain. inversion Hl; assumption.
  - change (join [sep] (x :: y :: l)) with (x ++ sep :: join [sep] (y :: l)).
    inversion Hl as [|? ? Hx Hrest]; subst.
    rewrite split_on_app by exact Hx. rewrite IH; [reflexivity|discriminate|exact Hrest].
Qed.

Lemma bits_of_positive_app (p : positive) (acc : text) :
  bits_of_positive p acc = bits_of_positive p [] ++ acc.
Proof.
  revert acc; induction p as [p IH|p IH|]; intros acc; cbn [bits_of_positive].
  - etransitivity; [apply IH|]. rewrite (IH (_ :: nil)), <- app_assoc; reflexivity.
  - etransitivity; [apply IH|]. rewrite (IH (_ :: nil)), <- app_assoc; reflexivity.
  - reflexivity.
Qed.

Lemma bits_of_positive_head (p : positive) (acc : text) :
  exists tl, bits_of_positive p acc = 49 :: tl.
Proof.
  revert acc; induction p as [p IH|p IH|]; intros acc; cbn [bits_of_positive].
  - apply IH.
  - apply IH.
  - exists acc; reflexivity.
Qed.

Lemma bits_of_positive_binary (p : positive) (acc : text) :
  Forall (fun c => c = 48 \/ c = 49) acc ->
  Forall (fun c => c = 48 \/ c = 49) (bits_of_positive p acc).
Proof.
  revert acc; induction p as [p IH|p IH|]; intros acc H; cbn [bits_of_positive].
  - apply IH; constructor; [right; reflexivity | exact H].
  - apply IH; constructor; [left; reflexivity | exact H].
  - constructor; [right; reflexivity | exact H].
Qed.

(** Reading back the digits [toString(2)] wrote. *)
Lemma binary_digits_bits (p : positive) (rest : text) (a : N) (k : nat) :
  binary_digits (bits_of_positive p rest) a k
  = binary_digits rest (a * 2 ^ N.size (Npos p) + Npos p) (k + Pos.size_nat p).
Proof.
  revert rest a k; induction p as [p IH|p IH|]; intros rest a k;
    cbn [bits_of_positive].
  - rewrite IH. cbn [binary_digits]. change (49 =? 48) with false.
    change (49 =? 49) with true. cbv iota.
    f_equal; [|simpl; lia].
    change (N.size (N.pos p~1)) with (N.succ (N.size (N.pos p))).
    rewrite N.pow_succ_r'. change (N.pos p~1) with (2 * N.pos p + 1). lia.
  - rewrite IH. cbn [binary_digits]. change (48 =? 48) with true. cbv iota.
    f_equal; [|simpl; lia].
    change (N.size (N.pos p~0)) with (N.succ (N.size (N.pos p))).
    rewrite N.pow_succ_r'. change (N.pos p~0) with (2 * N.pos p). lia.
  - cbn [binary_digits]. change (49 =? 48) with false.
    change (49 =? 49) with true. cbv iota.
    f_equal; [|simpl; lia]. change (N.size 1) with 1. rewrite N.pow_1_r. lia.
Qed.

Lemma size_small (m : N) : m < 2 ^ 53 -> (N.size m <=? 53) = true.
Proof.
  intros H. apply N.leb_le. destruct (N.le_gt_cases (N.size m) 53) as [?|Hgt];
    [assumption|exfalso].
  pose proof (N.size_le m) as Hle.
  assert (2 ^ 54 <= 2 ^ N.size m) by (apply N.pow_le_mono_r; lia).
  rewrite N.succ_double_spec in Hle.
  change (2 ^ 54) with (2 * 2 ^ 53) in *. lia.
Qed.

Lemma to_double_small (m : N) : m < 2 ^ 53 -> to_double m = Some m.
Proof.
  intros H. unfold to_double. rewrite (size_small m H). reflexivity.
Qed.

Lemma parseInt2_toString2 (c : N) :
  c < 2 ^ 53 -> parseInt2 (toString2 (Int (Z.of_N c))) = Int (Z.of_N c).
Proof.
  intros Hc. destruct c as [|p]; [reflexivity|].
  change (Z.of_N (N.pos p)) with (Z.pos p). cbn [toString2].
  destruct (bits_of_positive_head p []) as [tl E].
  unfold parseInt2. rewrite E. cbn [skip_spaces].
  change (is_space 49) with false. cbv iota.
  change (49 =? 45) with false. change (49 =? 43) with false. cbv iota.
  rewrite <- E, binary_digits_bits. cbn [binary_digits].
  rewrite N.mul_0_l, N.add_0_l, (to_double_small _ Hc).
  destruct (Pos.size_nat p) eqn:Es; [destruct p; discriminate|].
  reflexivity.
Qed.

Lemma ToUint16_unit (c : char16) :
  is_char16 c -> ToUint16 (Int (Z.of_N c)) = c.
Proof.
  unfold is_char16, ToUint16; intros H.
  rewrite Z.mod_small by lia. apply N2Z.id.
Qed.

Lemma toString2_no_space (c : N) : ~ In 32 (toString2 (Int (Z.of_N c))).
Proof.
  destruct c as [|p]; [simpl; intros [H|[]]; discriminate|].
  change (Z.of_N (N.pos p)) with (Z.pos p). cbn [toString2]. intros Hin.
  pose proof (bits_of_positive_binary p [] (Forall_nil _)) as Hb.
  rewrite Forall_forall in Hb. destruct (Hb _ Hin); discriminate.
Qed.

(** Decoding undoes encoding on every text but the empty one. *)
Theorem binaryToText_textToBinary (s : text) :
  well_formed s -> s <> [] -> binaryToText (textToBinary s) = s.
Proof.
  intros Hwf Hne. unfold binaryToText, textToBinary, split_units.
  rewrite map_map. rewrite split_on_join.
  - rewrite map_map, join_nil.
    cbn [charCodeAt0]. clear Hne. induction Hwf as [|c s Hc Hs IH]; [reflexivity|].
    cbn [map List.concat]. rewrite IH. unfold fromCharCode.
    rewrite parseInt2_toString2, ToUint16_unit; [reflexivity|exact Hc|].
    unfold is_char16 in Hc. change (2 ^ 53) with 9007199254740992. lia.
  - destruct s; [congruence|discriminate].
  - apply Forall_forall. intros x Hx. apply in_map_iff in Hx as (c & <- & _).
    apply toString2_no_space.
Qed.

(** The encoding of the empty text decodes to one unit, U+0000. *)
Lemma binaryToText_textToBinary_empty : binaryToText (textToBinary []) = [0].
Proof. reflexivity. Qed.

(** * Properties of names *)

Lemma text_eqb_eq (a b : text) : text_eqb a b = true <-> a = b.
Proof.
  unfold text_eqb. destruct (list_eq_dec N.eq_dec a b); split; congruence.
Qed.

Lemma text_eqb_refl (a : text) : text_eqb a a = true.
Proof. apply text_eqb_eq; reflexivity. Qed.

Lemma text_eqb_neq (a b : text) : a <> b -> text_eqb a b = false.
Proof.
  intros H. destruct (text_eqb a b) eqn:E; [|reflexivity].
  apply text_eqb_eq in E; contradiction.
Qed.

Lemma text_eqb_sym (a b : text) : text_eqb a b = text_eqb b a.
Proof.
  destruct (text_eqb b a) eqn:E.
  - apply text_eqb_eq in E; subst; apply text_eqb_refl.
  - apply text_eqb_neq. intros ->. rewrite text_eqb_refl in E; discriminate.
Qed.

Lemma uint_text_inj (a b : Decimal.uint) : uint_text a = uint_text b -> a = b.
Proof.
  revert b; induction a; intros b H; destruct b; simpl in H;
    try discriminate; try reflexivity;
    injection H as H; f_equal; apply IHa; exact H.
Qed.

Lemma decimal_inj (i j : N) : decimal i = decimal j -> i = j.
Proof.
  intros H. apply DecimalN.Unsigned.to_uint_inj, uint_text_inj, H.
Qed.

Lemma uint_text_digits (d : Decimal.uint) :
  Forall (fun c => is_digit c = true) (uint_text d).
Proof. induction d; simpl; constructor; (reflexivity || assumption). Qed.

Lemma decimal_digits (i : N) : Forall (fun c => is_digit c = true) (decimal i).
Proof. apply uint_text_digits. Qed.

Lemma decimal_nonempty (i : N) : decimal i <> [].
Proof.
  unfold decimal. destruct i as [|p]; [discriminate|].
  cbn [N.to_uint]. pose proof (DecimalPos.Unsigned.to_uint_nonnil p) as H.
  destruct (Pos.to_uint p); [congruence| | | | | | | | | | ]; discriminate.
Qed.

Lemma decimal_head (i : N) : exists c tl, decimal i = c :: tl /\ is_digit c = true.
Proof.
  pose proof (decimal_nonempty i) as Hne. pose proof (decimal_digits i) as Hd.
  destruct (decimal i) as [|c tl]; [congruence|].
  exists c, tl; split; [reflexivity|]. inversion Hd; assumption.
Qed.

Section Names.

Variable TABLE_NAME : text.

Lemma chunk_table_inj (i j : N) :
  chunk_table TABLE_NAME i = chunk_table TABLE_NAME j -> i = j.
Proof.
  unfold chunk_table. intros H.
  apply app_inv_head in H. apply app_inv_head in H. apply app_inv_head in H.
  apply decimal_inj, H.
Qed.

Lemma chunk_table_longer (i : N) :
  (List.length TABLE_NAME < List.length (chunk_table TABLE_NAME i))%nat.
Proof. unfold chunk_table. rewrite !length_app. simpl. lia. Qed.

Lemma chunk_table_not_table (i : N) : chunk_table TABLE_NAME i <> TABLE_NAME.
Proof.
  intros H. pose proof (chunk_table_longer i) as Hl. rewrite H in Hl. lia.
Qed.

Lemma chunk_table_eqb (i j : N) :
  text_eqb (chunk_table TABLE_NAME i) (chunk_table TABLE_NAME j) = (i =? j).
Proof.
  destruct (N.eqb_spec i j) as [->|Hne]; [apply text_eqb_refl|].
  apply text_eqb_neq. intros H; apply Hne, chunk_table_inj, H.
Qed.

End Names.

(** * Properties of the scoreboard *)

Lemma scores_in_has (n : text) (w : scoreboard) :
  has_objective n w = match scores_in n w with Some _ => true | None => false end.
Proof.
  induction w as [|o w IH]; [reflexivity|]. cbn [has_objective existsb scores_in].
  destruct (text_eqb (objective_name o) n); [reflexivity|]. exact IH.
Qed.

Lemma has_objective_app (n : text) (w1 w2 : scoreboard) :
  has_objective n (w1 ++ w2) = has_objective n w1 || has_objective n w2.
Proof. apply existsb_app. Qed.

Lemma has_objective_drop (n m : text) (w : scoreboard) :
  has_objective n (drop_objective m w)
  = has_objective n w && negb (text_eqb m n).
Proof.
  induction w as [|o w IH]; [reflexivity|].
  cbn [drop_objective filter has_objective existsb].
  fold (drop_objective m w). fold (has_objective n w).
  destruct (text_eqb (objective_name o) m) eqn:Em; cbn [negb].
  - apply text_eqb_eq in Em. rewrite Em.
    fold (has_objective n (drop_objective m w)). rewrite IH.
    destruct (text_eqb m n); [|reflexivity]. cbn. apply andb_false_r.
  - cbn [has_objective existsb].
    fold (has_objective n (drop_objective m w)). rewrite IH.
    destruct (text_eqb (objective_name o) n) eqn:En; [|reflexivity].
    apply text_eqb_eq in En. rewrite En in Em.
    rewrite text_eqb_sym, Em. reflexivity.
Qed.

Lemma has_objective_with_scores (n m : text) (l : list (text * Z)) (w : scoreboard) :
  has_objective n (with_scores m l w) = has_objective n w.
Proof.
  induction w as [|o w IH]; [reflexivity|].
  cbn [with_scores]. destruct (text_eqb (objective_name o) m) eqn:Em.
  - apply text_eqb_eq in Em. cbn [has_objective existsb objective_name].
    rewrite Em; reflexivity.
  - cbn [has_objective existsb]. fold (has_objective n (with_scores m l w)).
    fold (has_objective n w). rewrite IH; reflexivity.
Qed.

Lemma scores_in_app (n : text) (w1 w2 : scoreboard) :
  scores_in n (w1 ++ w2)
  = match scores_in n w1 with Some l => Some l | None => scores_in n w2 end.
Proof.
  induction w1 as [|o w1 IH]; [reflexivity|]. cbn [app scores_in].
  destruct (text_eqb (objective_name o) n); [reflexivity|exact IH].
Qed.

Lemma scores_in_drop (n m : text) (w : scoreboard) :
  m <> n -> scores_in n (drop_objective m w) = scores_in n w.
Proof.
  intros Hne. induction w as [|o w IH]; [reflexivity|].
  cbn [drop_objective filter scores_in]. fold (drop_objective m w).
  destruct (text_eqb (objective_name o) m) eqn:Em; cbn [negb].
  - apply text_eqb_eq in Em. rewrite Em, (text_eqb_neq _ _ Hne). exact IH.
  - cbn [scores_in]. rewrite IH; reflexivity.
Qed.

Lemma scores_in_drop_same (n : text) (w : scoreboard) :
  scores_in n (drop_objective n w) = None.
Proof.
  pose proof (has_objective_drop n n w) as H.
  rewrite text_eqb_refl, andb_false_r, scores_in_has in H.
  destruct (scores_in n (drop_objective n w)); [discriminate|reflexivity].
Qed.

Lemma scores_in_with_scores (n m : text) (l : list (text * Z)) (w : scoreboard) :
  scores_in n (with_scores m l w)
  = if text_eqb m n
    then match scores_in n w with Some _ => Some l | None => None end
    else scores_in n w.
Proof.
  induction w as [|o w IH]; [destruct (text_eqb m n); reflexivity|].
  cbn [with_scores scores_in].
  destruct (text_eqb (objective_name o) m) eqn:Em.
  - apply text_eqb_eq in Em. cbn [scores_in objective_name]. rewrite Em.
    destruct (text_eqb m n); reflexivity.
  - cbn [scores_in]. rewrite IH.
    destruct (text_eqb (objective_name o) n) eqn:En; [|reflexivity].
    apply text_eqb_eq in En. rewrite En in Em.
    rewrite text_eqb_sym, Em. reflexivity.
Qed.

Lemma score_of_set_score (p q : text) (z : Z) (l : list (text * Z)) :
  score_of q (set_score p z l)
  = if text_eqb p q then Some z else score_of q l.
Proof.
  induction l as [|[r y] l IH]; cbn [set_score score_of].
  - destruct (text_eqb p q); reflexivity.
  - destruct (text_eqb r p) eqn:Erp; cbn [score_of].
    + apply text_eqb_eq in Erp; subst r. destruct (text_eqb p q); reflexivity.
    + rewrite IH. destruct (text_eqb r q) eqn:Erq; [|reflexivity].
      apply text_eqb_eq in Erq; subst r. rewrite text_eqb_sym, Erp. reflexivity.
Qed.

Lemma players_app (w1 w2 : scoreboard) :
  players (w1 ++ w2) = players w1 ++ players w2.
Proof. apply flat_map_app. Qed.

Lemma players_drop (m o p : text) (w : scoreboard) :
  In (o, p) (players (drop_objective m w)) ->
  In (o, p) (players w) /\ o <> m.
Proof.
  induction w as [|x w IH]; [intros []|].
  cbn [drop_objective filter]. fold (drop_objective m w).
  change (players (x :: w))
    with (map (fun e => (objective_name x, fst e)) (scores x) ++ players w).
  destruct (text_eqb (objective_name x) m) eqn:Em; cbn [negb].
  - intros H. destruct (IH H) as [H1 H2]. split; [|exact H2].
    apply in_or_app; right; exact H1.
  - change (players (x :: drop_objective m w))
      with (map (fun e => (objective_name x, fst e)) (scores x)
              ++ players (drop_objective m w)).
    intros H. apply in_app_or in H as [H|H].
    + split; [apply in_or_app; left; exact H|].
      apply in_map_iff in H as (e & He & _). injection He as Ho _.
      intros ->. rewrite Ho, text_eqb_refl in Em; discriminate.
    + destruct (IH H) as [H1 H2]. split; [|exact H2].
      apply in_or_app; right; exact H1.
Qed.

Lemma players_with_scores (m o p : text) (l : list (text * Z)) (w : scoreboard) :
  In (o, p) (players (with_scores m l w)) ->
  In (o, p) (players w) \/ (o = m /\ In p (map fst l)).
Proof.
  induction w as [|x w IH]; [intros []|].
  cbn [with_scores].
  change (players (x :: w))
    with (map (fun e => (objective_name x, fst e)) (scores x) ++ players w).
  destruct (text_eqb (objective_name x) m) eqn:Em.
  - change (players ({| objective_name := m; scores := l |} :: w))
      with (map (fun e => (m, fst e)) l ++ players w).
    intros H. apply in_app_or in H as [H|H].
    + right. apply in_map_iff in H as (e & He & Hin). injection He as Ho Hp.
      split; [symmetry; exact Ho|]. rewrite <- Hp. apply in_map; exact Hin.
    + left. apply in_or_app; right; exact H.
  - change (players (x :: with_scores m l w))
      with (map (fun e => (objective_name x, fst e)) (scores x)
              ++ players (with_scores m l w)).
    intros H. apply in_app_or in H as [H|H].
    + left. apply in_or_app; left; exact H.
    + destruct (IH H) as [H1|H1]; [left; apply in_or_app; right; exact H1|].
      right; exact H1.
Qed.

Lemma scores_in_players (m p : text) (l : list (text * Z)) (w : scoreboard) :
  scores_in m w = Some l -> In p (map fst l) -> In (m, p) (players w).
Proof.
  induction w as [|x w IH]; [discriminate|]. cbn [scores_in].
  change (players (x :: w))
    with (map (fun e => (objective_name x, fst e)) (scores x) ++ players w).
  destruct (text_eqb (objective_name x) m) eqn:Em.
  - apply text_eqb_eq in Em. intros H Hin. injection H as <-.
    apply in_or_app; left. apply in_map_iff in Hin as (e & <- & He).
    apply in_map_iff. exists e. rewrite Em. split; [reflexivity|exact He].
  - intros H Hin. apply in_or_app; right. apply IH; assumption.
Qed.

Lemma set_score_players (p q : text) (z : Z) (l : list (text * Z)) :
  In q (map fst (set_score p z l)) -> q = p \/ In q (map fst l).
Proof.
  induction l as [|[r y] l IH]; cbn [set_score map fst In].
  - intros [H|[]]; left; congruence.
  - destruct (text_eqb r p) eqn:E; cbn [map fst In].
    + intros [H|H]; right; [left|right]; assumption.
    + intros [H|H]; [right; left; exact H|].
      destruct (IH H) as [H1|H1]; [left|right; right]; assumption.
Qed.

Lemma tracked_players_in (p : text) (w : scoreboard) :
  In p (tracked_players w) -> exists o, In (o, p) (players w).
Proof.
  unfold tracked_players. rewrite nodup_In.
  induction w as [|x w IH]; [intros []|].
  cbn [flat_map].
  change (players (x :: w))
    with (map (fun e => (objective_name x, fst e)) (scores x) ++ players w).
  intros H. apply in_app_or in H as [H|H].
  - exists (objective_name x). apply in_or_app; left.
    apply in_map_iff in H as (e & <- & He). apply in_map_iff.
    exists e; split; [reflexivity|exact He].
  - destruct (IH H) as [o Ho]. exists o. apply in_or_app; right; exact Ho.
Qed.

(** ** What a command changes *)

Lemma exec_add_has (n m : text) (w : scoreboard) :
  has_objective n (exec (ObjectivesAdd m) w)
  = has_objective n w || text_eqb m n.
Proof.
  unfold exec; cbn [run]. destruct (has_objective m w) eqn:Hm.
  - destruct (text_eqb m n) eqn:E; [|rewrite orb_false_r; reflexivity].
    apply text_eqb_eq in E; subst. rewrite Hm; reflexivity.
  - rewrite has_objective_app. cbn [has_objective existsb objective_name].
    rewrite orb_false_r; reflexivity.
Qed.

Lemma exec_add_scores (n m : text) (w : scoreboard) :
  scores_in n (exec (ObjectivesAdd m) w)
  = match scores_in n w with
    | Some l => Some l
    | None => if text_eqb m n then Some [] else None
    end.
Proof.
  unfold exec; cbn [run]. destruct (has_objective m w) eqn:Hm.
  - destruct (scores_in n w) eqn:E; [reflexivity|].
    destruct (text_eqb m n) eqn:En; [|reflexivity].
    apply text_eqb_eq in En; subst. rewrite scores_in_has, E in Hm; discriminate.
  - rewrite scores_in_app. cbn [scores_in objective_name scores].
    destruct (scores_in n w); [reflexivity|].
    destruct (text_eqb m n); reflexivity.
Qed.

Lemma exec_add_players (m o p : text) (w : scoreboard) :
  In (o, p) (players (exec (ObjectivesAdd m) w)) -> In (o, p) (players w).
Proof.
  unfold exec; cbn [run]. destruct (has_objective m w); [tauto|].
  rewrite players_app. cbn. rewrite app_nil_r. tauto.
Qed.

Lemma exec_remove_has (n m : text) (w : scoreboard) :
  has_objective n (exec (ObjectivesRemove m) w)
  = has_objective n w && negb (text_eqb m n).
Proof.
  unfold exec; cbn [run]. destruct (has_objective m w) eqn:Hm.
  - apply has_objective_drop.
  - destruct (text_eqb m n) eqn:E; [|rewrite andb_true_r; reflexivity].
    apply text_eqb_eq in E; subst. rewrite Hm; reflexivity.
Qed.

Lemma exec_remove_scores (n m : text) (w : scoreboard) :
  m <> n -> scores_in n (exec (ObjectivesRemove m) w) = scores_in n w.
Proof.
  intros Hne. unfold exec; cbn [run].
  destruct (has_objective m w); [apply scores_in_drop, Hne|reflexivity].
Qed.

Lemma exec_remove_scores_same (n : text) (w : scoreboard) :
  scores_in n (exec (ObjectivesRemove n) w) = None.
Proof.
  unfold exec; cbn [run]. destruct (has_objective n w) eqn:Hm.
  - apply scores_in_drop_same.
  - rewrite scores_in_has in Hm. destruct (scores_in n w); [discriminate|reflexivity].
Qed.

Lemma exec_remove_players (m o p : text) (w : scoreboard) :
  In (o, p) (players (exec (ObjectivesRemove m) w)) ->
  In (o, p) (players w).
Proof.
  unfold exec; cbn [run]. destruct (has_objective m w); [|tauto].
  intros H; apply players_drop in H; tauto.
Qed.

Lemma fits_DB_SAVE : fits DB_SAVE = true.
Proof. reflexivity. Qed.

Lemma exec_set_has (n p m : text) (z : Z) (w : scoreboard) :
  has_objective n (exec (PlayersSet p m z) w) = has_objective n w.
Proof.
  unfold exec; cbn [run]. destruct (scores_in m w); [|reflexivity].
  destruct (fits p); [|reflexivity].
  apply has_objective_with_scores.
Qed.

Lemma exec_set_scores (n p m : text) (z : Z) (w : scoreboard) :
  scores_in n (exec (PlayersSet p m z) w)
  = if text_eqb m n
    then if fits p
         then match scores_in n w with
              | Some l => Some (set_score p z l)
              | None => None
              end
         else scores_in n w
    else scores_in n w.
Proof.
  unfold exec; cbn [run]. destruct (scores_in m w) as [l|] eqn:E.
  - destruct (fits p); [|destruct (text_eqb m n); reflexivity].
    rewrite scores_in_with_scores.
    destruct (text_eqb m n) eqn:En; [|reflexivity].
    apply text_eqb_eq in En; subst. rewrite E; reflexivity.
  - destruct (text_eqb m n) eqn:En; [|reflexivity].
    apply text_eqb_eq in En; subst. rewrite E.
    destruct (fits p); reflexivity.
Qed.

Lemma exec_set_players (q m o p : text) (z : Z) (w : scoreboard) :
  In (o, p) (players (exec (PlayersSet q m z) w)) ->
  In (o, p) (players w) \/ (o = m /\ p = q).
Proof.
  unfold exec; cbn [run]. destruct (scores_in m w) as [l|] eqn:E; [|tauto].
  destruct (fits q); [|tauto].
  intros H. apply players_with_scores in H as [H|[-> H]]; [left; exact H|].
  apply set_score_players in H as [->|H]; [right; split; reflexivity|].
  left. eapply scores_in_players; eassumption.
Qed.

Lemma exec_players_add_has (n p m : text) (z : Z) (w : scoreboard) :
  has_objective n (exec (PlayersAdd p m z) w) = has_objective n w.
Proof.
  unfold exec; cbn [run]. destruct (scores_in m w); [|reflexivity].
  destruct (fits p); [|reflexivity].
  apply has_objective_with_scores.
Qed.

Lemma exec_players_add_scores (n p m : text) (z : Z) (w : scoreboard) :
  scores_in n (exec (PlayersAdd p m z) w)
  = if text_eqb m n
    then if fits p
         then match scores_in n w with
              | Some l =>
                  Some (set_score p
                          ((match score_of p l with Some y => y | None => 0 end) + z)%Z l)
              | None => None
              end
         else scores_in n w
    else scores_in n w.
Proof.
  unfold exec; cbn [run]. destruct (scores_in m w) as [l|] eqn:E.
  - destruct (fits p); [|destruct (text_eqb m n); reflexivity].
    rewrite scores_in_with_scores.
    destruct (text_eqb m n) eqn:En; [|reflexivity].
    apply text_eqb_eq in En; subst. rewrite E; reflexivity.
  - destruct (text_eqb m n) eqn:En; [|reflexivity].
    apply text_eqb_eq in En; subst. rewrite E.
    destruct (fits p); reflexivity.
Qed.

Lemma exec_players_add_players (q m o p : text) (z : Z) (w : scoreboard) :
  In (o, p) (players (exec (PlayersAdd q m z) w)) ->
  In (o, p) (players w) \/ (o = m /\ p = q).
Proof.
  unfold exec; cbn [run]. destruct (scores_in m w) as [l|] eqn:E; [|tauto].
  destruct (fits q); [|tauto].
  intros H. apply players_with_scores in H as [H|[-> H]]; [left; exact H|].
  apply set_score_players in H as [->|H]; [right; split; reflexivity|].
  left. eapply scores_in_players; eassumption.
Qed.

(** * Properties of the class *)

Lemma bind_value {A B} (m : M A) (k : A -> M B) (st st' : state) (a : A) :
  m st = (inl a, st') -> bind m k st = k a st'.
Proof. intros H; unfold bind; rewrite H; reflexivity. Qed.

Lemma bind_throw {A B} (m : M A) (k : A -> M B) (st st' : state) (e : exn) :
  m st = (inr e, st') -> bind m k st = (inr e, st').
Proof. intros H; unfold bind; rewrite H; reflexivity. Qed.

Lemma state_eta (st : state) : {| MEMORY := MEMORY st; world := world st |} = st.
Proof. destruct st; reflexivity. Qed.

Lemma runCommand_exec (c : command) (st : state) :
  runCommand c st
  = (inl tt, {| MEMORY := MEMORY st; world := exec c (world st) |}).
Proof.
  unfold runCommand, try_catch, bind, dimension_runCommand, exec, ret.
  destruct (run c (world st)) as [[r w]|]; [reflexivity|].
  cbn [catchable]. rewrite state_eta; reflexivity.
Qed.

Section Class.

Variable T : text.


Lemma SAVE_NAMES_bound (st : state) :
  SAVE_NAMES T st = (inl (bound T (world st)), st).
Proof.
  unfold SAVE_NAMES, try_catch, bind, dimension_runCommand, bound, count_record.
  cbn [run]. destruct (scores_in T (world st)) as [l|]; [|reflexivity].
  destruct (score_of DB_SAVE l); [|reflexivity].
  unfold ret. rewrite state_eta; reflexivity.
Qed.

Lemma set_SAVE_NAMES_exec (v : Z) (st : state) :
  has_objective T (world st) = true ->
  set_SAVE_NAMES T v st
  = (inl tt, {| MEMORY := MEMORY st;
                world := exec (PlayersSet DB_SAVE T v) (world st) |}).
Proof.
  intros H. rewrite scores_in_has in H.
  unfold set_SAVE_NAMES, bind, dimension_runCommand, exec. cbn [run].
  rewrite fits_DB_SAVE.
  destruct (scores_in T (world st)); [reflexivity|discriminate].
Qed.

Lemma build_exec (st : state) :
  build T st
  = (inl tt, {| MEMORY := MEMORY st;
                world := exec (PlayersAdd DB_SAVE T 0)
                           (exec (ObjectivesAdd T) (world st)) |}).
Proof.
  unfold build. erewrite bind_value by apply runCommand_exec.
  rewrite runCommand_exec. reflexivity.
Qed.

(** ** wipe *)

Lemma shrinks_refl (w : scoreboard) : shrinks T w w.
Proof. repeat split; auto. Qed.

Lemma shrinks_trans (w1 w2 w3 : scoreboard) :
  shrinks T w1 w2 -> shrinks T w2 w3 -> shrinks T w1 w3.
Proof.
  intros (A1 & B1 & C1) (A2 & B2 & C2). repeat split.
  - congruence.
  - auto.
  - auto.
Qed.

Lemma remove_chunk_shrinks (i : N) (w : scoreboard) :
  shrinks T w (exec (ObjectivesRemove (chunk_table T i)) w).
Proof.
  repeat split.
  - apply exec_remove_scores, chunk_table_not_table.
  - intros n H. rewrite exec_remove_has in H.
    apply andb_true_iff in H as [H _]; exact H.
  - intros o p. apply exec_remove_players.
Qed.

Lemma shrinks_bound (w w' : scoreboard) : shrinks T w w' -> bound T w' = bound T w.
Proof. intros (A & _ & _). unfold bound, count_record. rewrite A; reflexivity. Qed.

(** The loop of [wipe] ends, having removed the tables from [i] to the
    bound. *)
Lemma wipe_loop (fuel : nat) :
  forall (i : N) (st : state),
  (Z.to_nat (bound T (world st) + 1 - Z.of_N i) < fuel)%nat ->
  exists w',
    for_SAVE_NAMES T fuel i (wipe_round T) st
    = (inl tt, {| MEMORY := MEMORY st; world := w' |})
    /\ shrinks T (world st) w'
    /\ forall j, i <= j -> (Z.of_N j <= bound T (world st))%Z ->
                 has_objective (chunk_table T j) w' = false.
Proof.
  induction fuel as [|fuel IH]; intros i st Hf; [lia|].
  cbn [for_SAVE_NAMES]. erewrite bind_value by apply SAVE_NAMES_bound.
  destruct (Z.leb_spec (Z.of_N i) (bound T (world st))) as [Hle|Hgt].
  - unfold wipe_round at 1. erewrite bind_value by apply runCommand_exec.
    set (w1 := exec (ObjectivesRemove (chunk_table T i)) (world st)).
    pose proof (remove_chunk_shrinks i (world st)) as Hs. fold w1 in Hs.
    pose proof (shrinks_bound _ _ Hs) as Hb.
    destruct (IH (N.succ i) {| MEMORY := MEMORY st; world := w1 |})
      as (w' & E & Hs' & Hrm).
    { cbn [world]. rewrite Hb. lia. }
    exists w'. split; [exact E|]. split; [eapply shrinks_trans; eassumption|].
    intros j Hj Hjb. destruct (N.eq_dec j i) as [->|Hne].
    + destruct (has_objective (chunk_table T i) w') eqn:Eh; [|reflexivity].
      destruct Hs' as (_ & Hh & _). apply Hh in Eh. cbn [world] in Eh.
      unfold w1 in Eh. rewrite exec_remove_has, text_eqb_refl, andb_false_r in Eh.
      discriminate.
    + apply Hrm; [lia|]. cbn [world]. rewrite Hb; exact Hjb.
  - exists (world st). unfold ret. rewrite state_eta.
    split; [reflexivity|]. split; [apply shrinks_refl|]. intros j Hj Hjb. lia.
Qed.

(** [wipe] always returns; afterwards the cache is empty, the chunk-count
    record is [0], and no chunk table is left but those above the old
    bound. *)
Lemma wipe_returns (st : state) :
  exists w',
    wipe T st = (inl tt, {| MEMORY := []; world := w' |})
    /\ scores_in T w' = Some [(DB_SAVE, 0%Z)]
    /\ (forall j, has_objective (chunk_table T j) w' = true ->
                  has_objective (chunk_table T j) (world st) = true
                  /\ (bound T (world st) < Z.of_N j)%Z)
    /\ (forall o p, In (o, p) (players w') ->
                    In (o, p) (players (world st)) \/ (o = T /\ p = DB_SAVE)).
Proof.
  unfold wipe. unfold set_MEMORY at 1. unfold bind at 1.
  set (st0 := {| MEMORY := []; world := world st |}).
  unfold for_each_saved.
  assert (Hloop :
    exists w1,
      (n <- SAVE_NAMES T;;
       for_SAVE_NAMES T (S (Z.to_nat (n + 1))) 0 (wipe_round T)) st0
      = (inl tt, {| MEMORY := []; world := w1 |})
      /\ shrinks T (world st) w1
      /\ forall j, (Z.of_N j <= bound T (world st))%Z ->
                   has_objective (chunk_table T j) w1 = false).
  { erewrite bind_value by apply SAVE_NAMES_bound.
    destruct (wipe_loop (S (Z.to_nat (bound T (world st0) + 1))) 0 st0)
      as (w1 & E & Hs & Hrm).
    { change (Z.of_N 0) with 0%Z. lia. }
    exists w1. split; [exact E|]. split; [exact Hs|].
    intros j Hj. apply Hrm; [lia|exact Hj]. }
  destruct Hloop as (w1 & E & (Hsc & Hhas & Hpl) & Hrm).
  erewrite bind_value by exact E.
  erewrite bind_value by apply runCommand_exec. cbn [MEMORY world].
  rewrite build_exec. cbn [MEMORY world].
  set (w2 := exec (ObjectivesRemove T) w1).
  set (w3 := exec (ObjectivesAdd T) w2).
  set (w4 := exec (PlayersAdd DB_SAVE T 0) w3).
  exists w4. split; [reflexivity|].
  assert (H3 : scores_in T w3 = Some []).
  { unfold w3. rewrite exec_add_scores. unfold w2.
    rewrite exec_remove_scores_same, text_eqb_refl. reflexivity. }
  split; [|split].
  - unfold w4. rewrite exec_players_add_scores, text_eqb_refl, H3. reflexivity.
  - intros j Hj. unfold w4 in Hj. rewrite exec_players_add_has in Hj.
    unfold w3 in Hj. rewrite exec_add_has in Hj.
    rewrite (text_eqb_neq T (chunk_table T j)), orb_false_r in Hj
      by (intros Heq; symmetry in Heq; revert Heq; apply chunk_table_not_table).
    unfold w2 in Hj. rewrite exec_remove_has in Hj.
    apply andb_true_iff in Hj as [Hj _].
    split; [apply Hhas, Hj|].
    destruct (Z.lt_ge_cases (bound T (world st)) (Z.of_N j)) as [?|Hge];
      [assumption|].
    rewrite Hrm in Hj by lia. discriminate.
  - intros o p Hin. unfold w4 in Hin.
    apply exec_players_add_players in Hin as [Hin|Hin]; [|right; exact Hin].
    left. apply Hpl. unfold w3 in Hin. apply exec_add_players in Hin.
    unfold w2 in Hin. apply exec_remove_players in Hin. exact Hin.
Qed.

(** ** save *)

Lemma save_chunks_returns (chunks : list text) :
  forall (index : N) (st : state),
  has_objective T (world st) = true ->
  (forall j, index <= j -> has_objective (chunk_table T j) (world st) = false) ->
  exists w',
    save_chunks T index chunks st
    = (inl tt, {| MEMORY := MEMORY st ++ encode_chunks index chunks;
                  world := w' |})
    /\ has_objective T w' = true
    /\ (chunks = [] -> w' = world st)
    /\ (chunks <> [] ->
        count_record T w'
        = Some (Z.of_N index + Z.of_nat (List.length chunks) - 1)%Z)
    /\ (forall j, has_objective (chunk_table T j) w' = true <->
                  has_objective (chunk_table T j) (world st) = true
                  \/ (index <= j < index + N.of_nat (List.length chunks)))
    /\ (forall o p, In (o, p) (players w') ->
                    In (o, p) (players (world st))
                    \/ (o = T /\ p = DB_SAVE) \/ chunk_entry T o p).
Proof.
  induction chunks as [|chunk rest IH]; intros index st HT Hfree.
  - exists (world st). cbn [save_chunks encode_chunks]. unfold ret.
    rewrite app_nil_r, state_eta. repeat split; try tauto; try congruence.
    + intros [H|H]; [exact H|]. cbn [List.length] in H. lia.
  - cbn [save_chunks encode_chunks].
    erewrite bind_value by (apply set_SAVE_NAMES_exec; exact HT).
    set (w1 := exec (PlayersSet DB_SAVE T (Z.of_N index)) (world st)).
    unfold push at 1. unfold bind at 1. cbn [MEMORY world].
    erewrite bind_value by apply runCommand_exec. cbn [MEMORY world].
    set (w2 := exec (ObjectivesAdd (chunk_table T index)) w1).
    erewrite bind_value by apply runCommand_exec. cbn [MEMORY world].
    set (data := textToBinary chunk).
    set (w3 := exec (PlayersSet (entry_name T index data) (chunk_table T index) 0) w2).
    assert (Hhas : forall n, has_objective n w3
                             = has_objective n (world st)
                               || text_eqb (chunk_table T index) n).
    { intros n. unfold w3. rewrite exec_set_has. unfold w2.
      rewrite exec_add_has. unfold w1. rewrite exec_set_has. reflexivity. }
    assert (HT3 : has_objective T w3 = true).
    { rewrite Hhas, HT. reflexivity. }
    assert (Hrec : count_record T w3 = Some (Z.of_N index)).
    { unfold count_record, w3. rewrite exec_set_scores.
      rewrite (text_eqb_neq _ _ (chunk_table_not_table T index)).
      unfold w2. rewrite exec_add_scores. unfold w1.
      rewrite exec_set_scores, text_eqb_refl, fits_DB_SAVE.
      rewrite scores_in_has in HT.
      destruct (scores_in T (world st)) as [l|]; [|discriminate].
      rewrite score_of_set_score, text_eqb_refl. reflexivity. }
    destruct (IH (N.succ index)
                {| MEMORY := MEMORY st
                     ++ [{| Chunk.index := index; Chunk.data := data |}];
                   world := w3 |} HT3)
      as (w' & E & HT' & Hnil & Hcount & Hiff & Hpl).
    { intros j Hj. cbn [world]. rewrite Hhas, Hfree by lia.
      rewrite chunk_table_eqb. destruct (N.eqb_spec index j); [lia|reflexivity]. }
    exists w'. cbn [MEMORY world] in E. rewrite <- app_assoc in E.
    split; [exact E|]. split; [exact HT'|]. split; [discriminate|].
    split; [|split].
    + intros _. destruct rest as [|c rest'].
      * rewrite (Hnil eq_refl). cbn [world]. rewrite Hrec.
        cbn [List.length]. f_equal. lia.
      * rewrite Hcount by discriminate. f_equal. cbn [List.length]. lia.
    + intros j. rewrite Hiff. cbn [world]. rewrite Hhas, chunk_table_eqb.
      cbn [List.length]. rewrite orb_true_iff, N.eqb_eq, Nat2N.inj_succ.
      destruct (has_objective (chunk_table T j) (world st)); [tauto|].
      split.
      * intros [[H|H]|H]; [discriminate| |]; right; lia.
      * intros [H|H]; [discriminate|].
        destruct (N.eq_dec index j) as [Heq|Hne]; [left; right; exact Heq|].
        right; lia.
    + intros o p Hin. apply Hpl in Hin as [Hin|Hin]; [|right; exact Hin].
      cbn [world] in Hin. unfold w3 in Hin.
      apply exec_set_players in Hin as [Hin|[-> ->]].
      * unfold w2 in Hin. apply exec_add_players in Hin. unfold w1 in Hin.
        apply exec_set_players in Hin as [Hin|Hin]; [left; exact Hin|].
        right; left; exact Hin.
      * right; right. exists index, chunk. split; reflexivity.
Qed.

(** *** The invariant of the backing state *)

Lemma chunk_range_no_stale (n : N) (w : scoreboard) :
  chunk_range T n w -> no_stale_chunk T w.
Proof.
  intros [Hc Hr] j Hj. unfold bound. rewrite Hc. apply Hr in Hj. lia.
Qed.

Lemma no_stale_chunk_fresh (w : scoreboard) :
  (forall j, has_objective (chunk_table T j) w = false) -> no_stale_chunk T w.
Proof. intros H j Hj. rewrite H in Hj; discriminate. Qed.

(** [save], from the serialized text on, when the split is an array. *)
Lemma save_text_returns (s : text) (p : text) (l : list text) (st : state) :
  chunkString s MAX_DATABASE_STRING_SIZE = inl (Some (p :: l)) ->
  no_stale_chunk T (world st) ->
  exists w',
    save_text T s st
    = (inl tt, {| MEMORY := encode_chunks 0 (p :: l); world := w' |})
    /\ chunk_range T (N.of_nat (List.length l)) w'
    /\ (forall o q, In (o, q) (players w') ->
                    In (o, q) (players (world st))
                    \/ (o = T /\ q = DB_SAVE) \/ chunk_entry T o q).
Proof.
  intros Hsplit Hstale. unfold save_text. rewrite Hsplit.
  unfold lift at 1. unfold bind at 1.
  destruct (wipe_returns st) as (w0 & Ew & Hsc & Hgone & Hpl0).
  erewrite bind_value by exact Ew.
  destruct (save_chunks_returns (p :: l) 0 {| MEMORY := []; world := w0 |})
    as (w' & E & HT' & _ & Hcount & Hiff & Hpl).
  { cbn [world]. rewrite scores_in_has, Hsc. reflexivity. }
  { intros j _. cbn [world].
    destruct (has_objective (chunk_table T j) w0) eqn:Eh; [|reflexivity].
    destruct (Hgone j Eh) as [Hold Hb]. apply Hstale in Hold. lia. }
  exists w'. cbn [MEMORY app] in E. split; [exact E|]. split; [split|].
  - rewrite Hcount by discriminate. f_equal. cbn [List.length]. lia.
  - intros j. rewrite Hiff. cbn [world List.length]. split.
    + intros [Hj|Hj]; [|lia]. destruct (Hgone j Hj) as [Hold Hb].
      apply Hstale in Hold. lia.
    + intros Hj. right. lia.
  - intros o q Hin. apply Hpl in Hin as [Hin|Hin]; [|right; exact Hin].
    cbn [world] in Hin. apply Hpl0 in Hin as [Hin|Hin]; [left|right; left];
      exact Hin.
Qed.

End Class.

(** ** What JSON.stringify writes first *)

Lemma digit_not_line_terminator (c : char16) :
  is_digit c = true -> is_line_terminator c = false.
Proof.
  unfold is_digit, is_line_terminator. intros H.
  apply andb_true_iff in H as [H1 H2].
  apply N.leb_le in H1. apply N.leb_le in H2.
  repeat rewrite orb_false_iff. repeat split; apply N.eqb_neq; lia.
Qed.

(** The text of a document is never empty, and starts with a unit that is
    no line terminator. *)
Lemma JSON_stringify_head (d : json) :
  exists c tl, JSON_stringify d = c :: tl /\ is_line_terminator c = false.
Proof.
  destruct d as [|[|]|z|s|l|m]; cbn [JSON_stringify QuoteJSONString];
    try (eexists; eexists; split; [reflexivity|reflexivity]).
  unfold number_text. destruct z as [|p|p].
  - eexists; eexists; split; reflexivity.
  - destruct (decimal_head (Z.to_N (Z.pos p))) as (c & tl & E & Hc).
    exists c, tl. split; [exact E|]. apply digit_not_line_terminator, Hc.
  - eexists; eexists; split; reflexivity.
Qed.

Lemma JSON_stringify_nonempty (d : json) : JSON_stringify d <> [].
Proof.
  destruct (JSON_stringify_head d) as (c & tl & E & _). rewrite E; discriminate.
Qed.

(** [chunkString] of the text of a document is an array with a chunk. *)
Lemma chunkString_JSON_stringify (d : json) (n : N) :
  1 <= n ->
  exists p l, chunkString (JSON_stringify d) n = inl (Some (p :: l)).
Proof.
  intros Hn. destruct (JSON_stringify_head d) as (c & tl & E & Hc).
  apply chunkString_some; [exact Hn|]. rewrite E, strip_cons, Hc. discriminate.
Qed.

Lemma chunkString_document (d : json) :
  exists p l,
    chunkString (JSON_stringify d) MAX_DATABASE_STRING_SIZE = inl (Some (p :: l)).
Proof.
  apply chunkString_JSON_stringify. unfold MAX_DATABASE_STRING_SIZE. lia.
Qed.

(** ** The getter data *)

Lemma data_returns (st : state) :
  data st = (caught (JSON_parse (cached_text st)), st).
Proof.
  unfold data, try_catch, bind, get_MEMORY, lift, caught, cached_text, ret.
  destruct (JSON_parse _) as [v|e]; [reflexivity|].
  destruct (catchable e); reflexivity.
Qed.

Section Claims.

Variable T : text.

(** [save] of a document always returns, from a state with no stale
    chunk table. *)
Lemma save_returns (d : json) (st : state) :
  no_stale_chunk T (world st) ->
  exists p l w',
    chunkString (JSON_stringify d) MAX_DATABASE_STRING_SIZE = inl (Some (p :: l))
    /\ save T d st
       = (inl tt, {| MEMORY := encode_chunks 0 (p :: l); world := w' |})
    /\ chunk_range T (N.of_nat (List.length l)) w'.
Proof.
  intros Hs. destruct (chunkString_document d)
    as (p & l & E).
  destruct (save_text_returns T _ _ _ st E Hs) as (w' & Es & Hr & _).
  exists p, l, w'. repeat split; try assumption; apply Hr.
Qed.

(** C9: after a save that wrote [n + 1] chunks the chunk-count record is
    [n] and the chunk tables are those of the indices [0] to [n]; [set],
    [delete] and [clear] end in a save and leave the same.  The state
    before must have no chunk table above the record that [wipe] reads,
    which holds for a fresh store and after every save. *)
Theorem save_restores_chunk_range (st : state) :
  no_stale_chunk T (world st) ->
  (forall d, exists chunks n st',
      chunkString (JSON_stringify d) MAX_DATABASE_STRING_SIZE = inl (Some chunks)
      /\ List.length chunks = S n
      /\ save T d st = (inl tt, st')
      /\ chunk_range T (N.of_nat n) (world st')
      /\ no_stale_chunk T (world st'))
  /\ (exists n st', clear T st = (inl tt, st')
                    /\ chunk_range T n (world st'))
  /\ (forall key value m, data st = (inl (JObj m), st) ->
        exists n st', set T key value st = (inl tt, st')
                      /\ chunk_range T n (world st'))
  /\ (forall key m, data st = (inl (JObj m), st) ->
        exists n status st', delete T key st = (inl status, st')
                             /\ chunk_range T n (world st')).
Proof.
  intros Hs. split; [|split; [|split]].
  - intros d. destruct (save_returns d st Hs) as (p & l & w' & E & Es & Hr).
    exists (p :: l), (List.length l), {| MEMORY := encode_chunks 0 (p :: l); world := w' |}.
    repeat split; try assumption; try apply Hr.
    eapply chunk_range_no_stale; exact Hr.
  - destruct (save_returns (JObj []) st Hs) as (p & l & w' & E & Es & Hr).
    unfold clear. eexists; eexists; split; [exact Es|exact Hr].
  - intros key value m Hd. unfold set. erewrite bind_value by exact Hd.
    cbn [set_property]. destruct (text_eqb key (lit "__proto__") && negb (has_own key m)).
    + destruct (save_returns (JObj m) st Hs) as (p & l & w' & E & Es & Hr).
      eexists; eexists; split; [exact Es|exact Hr].
    + destruct (save_returns (JObj (put key value m)) st Hs)
        as (p & l & w' & E & Es & Hr).
      eexists; eexists; split; [exact Es|exact Hr].
  - intros key m Hd. unfold delete. erewrite bind_value by exact Hd.
    cbn [delete_property].
    destruct (save_returns (JObj (remove key m)) st Hs)
      as (p & l & w' & E & Es & Hr).
    exists (N.of_nat (List.length l)), true. eexists.
    unfold lift at 1. unfold bind at 1.
    erewrite bind_value by exact Es. split; [reflexivity|exact Hr].
Qed.

End Claims.

(** * The listing and the expression of fetch *)

Lemma strip_prefix_app (p s r : text) : strip_prefix p s = Some r -> s = p ++ r.
Proof.
  revert s; induction p as [|a p IH]; intros s H; cbn [strip_prefix] in H.
  - injection H as <-; reflexivity.
  - destruct s as [|b s]; [discriminate|].
    destruct (N.eqb_spec a b) as [->|]; [|discriminate].
    cbn [app]. f_equal. apply IH, H.
Qed.

(** A match of the expression of [fetch] starts after an occurrence of
    the name and an opening parenthesis. *)
Lemma regex_match_occurs (name s x : text) :
  regex_match name s = Some x ->
  exists pre suf, s = pre ++ name ++ 40 :: suf.
Proof.
  induction s as [|c s IH]; [discriminate|]. cbn [regex_match].
  assert (Hrec : regex_match name s = Some x ->
                 exists pre suf, c :: s = pre ++ name ++ 40 :: suf).
  { intros H. destruct (IH H) as (pre & suf & ->).
    exists (c :: pre), suf; reflexivity. }
  destruct (strip_prefix (name ++ [40]) (c :: s)) as [r|] eqn:E; [|exact Hrec].
  intros _. apply strip_prefix_app in E. exists [], r.
  rewrite E, <- app_assoc. reflexivity.
Qed.

Lemma unique_split (c : char16) (a b u v : text) :
  a ++ c :: u = b ++ c :: v -> ~ In c a -> ~ In c b -> a = b /\ u = v.
Proof.
  revert b; induction a as [|a0 a IH]; intros [|b0 b] H Ha Hb; cbn [app] in H.
  - injection H as ->; split; reflexivity.
  - injection H as -> _. exfalso; apply Hb; left; reflexivity.
  - injection H as -> _. exfalso; apply Ha; left; reflexivity.
  - injection H as -> H. destruct (IH b H) as [-> ->].
    + intros Hin; apply Ha; right; exact Hin.
    + intros Hin; apply Hb; right; exact Hin.
    + split; reflexivity.
Qed.

Lemma unique_occurrence (c : char16) (a b u v : text) :
  a ++ c :: u = b ++ c :: v -> ~ In c a -> ~ In c u -> a = b.
Proof.
  revert b; induction a as [|a0 a IH]; intros [|b0 b] H Ha Hu; cbn [app] in H.
  - reflexivity.
  - injection H as -> H. exfalso; apply Hu. rewrite H.
    apply in_or_app; right; left; reflexivity.
  - injection H as -> _. exfalso; apply Ha; left; reflexivity.
  - injection H as -> H. f_equal. apply (IH b H); [|exact Hu].
    intros Hin; apply Ha; right; exact Hin.
Qed.

Lemma app_split_cases (c : char16) (a b x y : text) :
  a ++ b = x ++ c :: y ->
  (exists a2, a = x ++ c :: a2) \/ (exists x2, x = a ++ x2 /\ b = x2 ++ c :: y).
Proof.
  revert x; induction a as [|a0 a IH]; intros x H.
  - right. exists x; split; [reflexivity|exact H].
  - destruct x as [|x0 x]; cbn [app] in H.
    + injection H as -> H. left. exists a; reflexivity.
    + injection H as -> H. destruct (IH x H) as [[a2 ->]|(x2 & -> & ->)].
      * left; exists a2; reflexivity.
      * right; exists x2; split; reflexivity.
Qed.

Lemma digits_no_underscore (l : text) :
  Forall (fun c => is_digit c = true) l -> ~ In 95 l.
Proof.
  intros H Hin. rewrite Forall_forall in H. apply H in Hin. discriminate.
Qed.

Lemma ends_with_index_inj (i j : N) (x : text) :
  ends_with_index i x -> ends_with_index j x -> i = j.
Proof.
  intros [y Hy] [z Hz]. rewrite Hy in Hz. apply (f_equal (@rev _)) in Hz.
  rewrite !rev_app_distr in Hz. cbn [rev] in Hz. rewrite <- !app_assoc in Hz.
  cbn [app] in Hz. apply unique_split in Hz as [Hz _].
  - apply decimal_inj. apply (f_equal (@rev _)) in Hz.
    rewrite !rev_involutive in Hz. exact Hz.
  - rewrite <- in_rev. apply digits_no_underscore, decimal_digits.
  - rewrite <- in_rev. apply digits_no_underscore, decimal_digits.
Qed.

Lemma ends_with_index_app (i : N) (a x : text) :
  ends_with_index i x -> ends_with_index i (a ++ x).
Proof. intros [y ->]. exists (a ++ y). rewrite <- app_assoc; reflexivity. Qed.

Section Listing.

Variable T : text.

Hypothesis T_plain : plain_name T.

Lemma chunk_table_ends (i : N) : ends_with_index i (chunk_table T i).
Proof.
  exists (lit "DB_" ++ T). unfold chunk_table. rewrite <- app_assoc. reflexivity.
Qed.

Lemma word_unit_no_parenthesis (l : text) :
  forallb is_word_unit l = true -> ~ In 40 l.
Proof.
  intros H Hin. rewrite forallb_forall in H. apply H in Hin. discriminate.
Qed.

Lemma chunk_table_no_parenthesis (i : N) : ~ In 40 (chunk_table T i).
Proof.
  unfold chunk_table. intros Hin.
  apply in_app_or in Hin as [Hin|Hin];
    [cbn in Hin; repeat destruct Hin as [Hin|Hin]; try discriminate; exact Hin|].
  apply in_app_or in Hin as [Hin|Hin];
    [revert Hin; apply word_unit_no_parenthesis, T_plain|].
  apply in_app_or in Hin as [Hin|Hin];
    [cbn in Hin; repeat destruct Hin as [Hin|Hin]; try discriminate; exact Hin|].
  pose proof (decimal_digits i) as Hd. rewrite Forall_forall in Hd.
  apply Hd in Hin. discriminate.
Qed.

Lemma join_payload (l : list text) :
  Forall (fun t => ~ In 40 t) l -> ~ In 40 (join [32] l).
Proof.
  induction l as [|x [|y l] IH]; intros H Hin.
  - destruct Hin.
  - inversion H; subst; contradiction.
  - change (join [32] (x :: y :: l)) with (x ++ 32 :: join [32] (y :: l)) in Hin.
    inversion H as [|? ? Hx Hrest]; subst.
    apply in_app_or in Hin as [Hin|[Hin|Hin]]; [contradiction|discriminate|].
    revert Hin; apply IH, Hrest.
Qed.

Lemma toString2_no_parenthesis (c : N) : ~ In 40 (toString2 (Int (Z.of_N c))).
Proof.
  destruct c as [|p]; [simpl; intros [H|[]]; discriminate|].
  change (Z.of_N (N.pos p)) with (Z.pos p). cbn [toString2]. intros Hin.
  pose proof (bits_of_positive_binary p [] (Forall_nil _)) as Hb.
  rewrite Forall_forall in Hb. destruct (Hb _ Hin); discriminate.
Qed.

Lemma textToBinary_no_parenthesis (s : text) : ~ In 40 (textToBinary s).
Proof.
  unfold textToBinary, split_units. rewrite map_map. apply join_payload.
  apply Forall_forall. intros x Hx. apply in_map_iff in Hx as (c & <- & _).
  apply toString2_no_parenthesis.
Qed.

Lemma parenthesis_in_listing (j : N) (names : list text) :
  Forall (harmless T j) names ->
  forall x suf, join (lit ", ") names = x ++ 40 :: suf ->
  exists i, i <> j /\ ends_with_index i x.
Proof.
  induction names as [|p rest IH]; intros Hn x suf H.
  - destruct x; discriminate.
  - inversion Hn as [|? ? Hp Hrest]; subst.
    assert (Hjoin : exists r, join (lit ", ") (p :: rest) = p ++ r
                              /\ (r = [] \/ r = 44 :: 32 :: join (lit ", ") rest)).
    { destruct rest as [|q rest'].
      - exists []; split; [cbn [join]; rewrite app_nil_r; reflexivity|left; reflexivity].
      - eexists; split; [reflexivity|right; reflexivity]. }
    destruct Hjoin as (r & Ej & Hr). rewrite Ej in H.
    apply app_split_cases in H as [[a2 Hp2]|(x2 & -> & Hr2)].
    + destruct Hp as [Hp|(i & chunk & Hij & Hp)].
      * exfalso; apply Hp. rewrite Hp2. apply in_or_app; right; left; reflexivity.
      * exists i; split; [exact Hij|].
        rewrite Hp in Hp2. unfold entry_name in Hp2. cbn [app] in Hp2.
        apply unique_occurrence in Hp2.
        -- rewrite <- Hp2. apply chunk_table_ends.
        -- apply chunk_table_no_parenthesis.
        -- intros Hin. apply in_app_or in Hin as [Hin|[Hin|[]]];
             [revert Hin; apply textToBinary_no_parenthesis|discriminate].
    + destruct Hr as [-> | ->]; [destruct x2; discriminate|].
      destruct x2 as [|c1 [|c2 x3]]; cbn [app] in Hr2; try discriminate.
      injection Hr2 as <- <- Hr2.
      destruct (IH Hrest x3 suf Hr2) as (i & Hij & He).
      exists i; split; [exact Hij|].
      apply ends_with_index_app. apply (ends_with_index_app i [44; 32]). exact He.
Qed.

(** The expression for the chunk [j] finds nothing in a listing of
    harmless T names. *)
Lemma regex_match_harmless (j : N) (names : list text) :
  Forall (harmless T j) names ->
  regex_match (chunk_table T j) (join (lit ", ") names) = None.
Proof.
  intros Hn. destruct (regex_match _ _) as [x|] eqn:E; [exfalso|reflexivity].
  apply regex_match_occurs in E as (pre & suf & E).
  rewrite app_assoc in E.
  destruct (parenthesis_in_listing j names Hn _ _ E) as (i & Hij & He).
  apply Hij. eapply ends_with_index_inj; [exact He|].
  apply ends_with_index_app, chunk_table_ends.
Qed.

End Listing.

Section Fetch.

Variable T : text.

Lemma SCOREBOARD_DATA_returns (st : state) :
  SCOREBOARD_DATA st = (inl (players_list (world st)), st).
Proof.
  unfold SCOREBOARD_DATA, bind, dimension_runCommand. cbn [run].
  unfold ret. rewrite state_eta. reflexivity.
Qed.

Lemma fetch_round_returns (i : N) (st : state) :
  fetch_round T i st
  = match regex_match (chunk_table T i) (players_list (world st)) with
    | Some raw =>
        (inl tt, {| MEMORY := MEMORY st ++ [{| Chunk.index := i; Chunk.data := raw |}];
                    world := world st |})
    | None => (inr TypeError, st)
    end.
Proof.
  unfold fetch_round. erewrite bind_value by apply SCOREBOARD_DATA_returns.
  destruct (regex_match _ _); reflexivity.
Qed.

(** The loop of [fetch] throws when the expression of a round within the
    bound finds nothing. *)
Lemma fetch_loop_throws (j : N) (fuel : nat) :
  forall (i : N) (st : state),
  regex_match (chunk_table T j) (players_list (world st)) = None ->
  i <= j -> (Z.of_N j <= bound T (world st))%Z ->
  exists e st', for_SAVE_NAMES T fuel i (fetch_round T) st = (inr e, st')
                /\ world st' = world st.
Proof.
  induction fuel as [|fuel IH]; intros i st Hnone Hij Hjb.
  - exists Diverged, st. split; reflexivity.
  - cbn [for_SAVE_NAMES]. erewrite bind_value by apply SAVE_NAMES_bound.
    destruct (Z.leb_spec (Z.of_N i) (bound T (world st))) as [_|Hgt]; [|lia].
    unfold bind at 1. rewrite fetch_round_returns.
    destruct (regex_match (chunk_table T i) (players_list (world st)))
      as [raw|] eqn:Ei.
    + destruct (N.eq_dec i j) as [->|Hne]; [congruence|].
      destruct (IH (N.succ i)
                  {| MEMORY := MEMORY st ++ [{| Chunk.index := i; Chunk.data := raw |}];
                     world := world st |}) as (e & st' & E & Hw);
        cbn [world]; [exact Hnone|lia|exact Hjb|].
      exists e, st'. split; [exact E|exact Hw].
    + exists TypeError, st; split; reflexivity.
Qed.

(** The loop of [fetch] has rounds enough: it never throws [Diverged]. *)
Lemma fetch_loop_ends (fuel : nat) :
  forall (i : N) (st st' : state) (e : exn),
  (Z.to_nat (bound T (world st) + 1 - Z.of_N i) < fuel)%nat ->
  for_SAVE_NAMES T fuel i (fetch_round T) st = (inr e, st') ->
  e = TypeError.
Proof.
  induction fuel as [|fuel IH]; intros i st st' e Hf; [lia|].
  cbn [for_SAVE_NAMES]. erewrite bind_value by apply SAVE_NAMES_bound.
  destruct (Z.leb_spec (Z.of_N i) (bound T (world st))) as [Hle|Hgt];
    [|discriminate].
  unfold bind at 1. rewrite fetch_round_returns.
  destruct (regex_match (chunk_table T i) (players_list (world st))) as [raw|].
  - apply IH. cbn [world]. lia.
  - intros H; injection H as <- _. reflexivity.
Qed.


Lemma fetch_falls_back (j : N) (st : state) :
  regex_match (chunk_table T j) (players_list (world st)) = None ->
  (Z.of_N j <= bound T (world st))%Z ->
  fetch T st
  = (inl tt, {| MEMORY := [{| Chunk.index := 0; Chunk.data := fallback_data |}];
                world := world st |}).
Proof.
  intros Hnone Hjb. unfold fetch, try_catch, for_each_saved.
  erewrite bind_value by apply SAVE_NAMES_bound.
  destruct (fetch_loop_throws j (S (Z.to_nat (bound T (world st) + 1))) 0 st
              Hnone (N.le_0_l j) Hjb) as (e & st' & E & Hw).
  rewrite E. assert (He : e = TypeError).
  { eapply fetch_loop_ends; [|exact E]. change (Z.of_N 0) with 0%Z. lia. }
  rewrite He. cbn [catchable]. unfold set_MEMORY. rewrite Hw. reflexivity.
Qed.



(** ** A scoreboard the store can share *)

Hypothesis T_plain : plain_name T.

(** On a scoreboard the store can share, a chunk table dropped between a
    save and the next load makes the load read the empty object.  The
    store saves [d]; something else then removes the table of the chunk
    [j]; a [Database] constructed on what is left holds the fallback
    chunk, and its getter [data] returns [{}].  The scoreboard must hold
    no entry with a parenthesis that the store did not write: the entry
    of a second store whose name ends in the name of the chunk table is
    read in the place of the dropped chunk. *)
Theorem dropped_chunk_reads_empty (st : state) (d : json) (j : N)
    (w2 : scoreboard) :
  well_kept T (world st) ->
  no_stale_chunk T (world st) ->
  run (ObjectivesRemove (chunk_table T j)) (world (snd (save T d st)))
  = Some (Done, w2) ->
  exists st2,
    new_Database T w2 = (inl tt, st2)
    /\ MEMORY st2 = [{| Chunk.index := 0; Chunk.data := fallback_data |}]
    /\ data st2 = (inl (JObj []), st2).
Proof.
  intros Hkept Hstale Hdrop.
  destruct (chunkString_document d)
    as (p & l & Esplit).
  destruct (save_text_returns T _ _ _ st Esplit Hstale)
    as (w1 & Es & [Hcount Hrange] & Hpl).
  unfold save in Hdrop. rewrite Es in Hdrop. cbn [snd world run] in Hdrop.
  destruct (has_objective (chunk_table T j) w1) eqn:Hj; [|discriminate].
  injection Hdrop as <-. apply Hrange in Hj.
  set (w2 := drop_objective (chunk_table T j) w1).
  set (w3 := exec (PlayersAdd DB_SAVE T 0) (exec (ObjectivesAdd T) w2)).
  assert (Hsc2 : scores_in T w2 = scores_in T w1).
  { apply scores_in_drop, chunk_table_not_table. }
  assert (Hb3 : bound T w3 = Z.of_N (N.of_nat (List.length l))).
  { unfold bound, count_record, w3.
    rewrite exec_players_add_scores, text_eqb_refl, fits_DB_SAVE, exec_add_scores, Hsc2.
    unfold count_record in Hcount.
    destruct (scores_in T w1) as [sc|]; [|discriminate].
    rewrite Hcount, score_of_set_score, text_eqb_refl. f_equal. lia. }
  assert (Hnames : Forall (harmless T j) (tracked_players w3)).
  { apply Forall_forall. intros q Hq.
    apply tracked_players_in in Hq as [o Hq]. unfold w3 in Hq.
    apply exec_players_add_players in Hq as [Hq|[_ ->]];
      [|left; cbn; intuition discriminate].
    apply exec_add_players in Hq. unfold w2 in Hq.
    apply players_drop in Hq as [Hq Ho].
    assert (Hown : ~ In 40 q \/ chunk_entry T o q).
    { apply Hpl in Hq as [Hq|[[_ ->]|Hq]].
      - apply Hkept, Hq.
      - left; cbn; intuition discriminate.
      - right; exact Hq. }
    destruct Hown as [Hq'|(i & chunk & -> & ->)]; [left; exact Hq'|].
    right. exists i, chunk. split; [|reflexivity]. intros ->. apply Ho; reflexivity. }
  pose proof (regex_match_harmless T T_plain j _ Hnames) as Hnone.
  fold (players_list w3) in Hnone.
  exists {| MEMORY := [{| Chunk.index := 0; Chunk.data := fallback_data |}];
            world := w3 |}.
  split; [|split; [reflexivity|]].
  - unfold new_Database. erewrite bind_value by apply build_exec.
    cbn [MEMORY world]. fold w2. fold w3.
    rewrite (fetch_falls_back j); cbn [world]; [reflexivity|exact Hnone|].
    rewrite Hb3. lia.
  - rewrite data_returns. reflexivity.
Qed.

End Fetch.

Lemma match_all_nil (fuel n : nat) : match_all fuel n [] = [].
Proof. destruct fuel; reflexivity. Qed.

Lemma match_all_step_plain (n fuel : nat) (s : text) :
  no_line_terminator s -> s <> [] ->
  match_all (S fuel) n s = firstn n s :: match_all fuel n (skipn n s).
Proof.
  intros H Hne. destruct s as [|c s]; [congruence|].
  cbn [match_all]. rewrite exec_dots_plain by exact H. reflexivity.
Qed.

Lemma units_nonempty (s : text) (n : N) : units s = n -> 0 < n -> s <> [].
Proof. intros H Hn ->. unfold units in H. cbn in H. lia. Qed.

(** The chunk boundary, for a text without line terminators: 32000 units
    make one chunk, 32001 make two, the second of one unit. *)
Theorem chunk_boundary_plain (s : text) :
  no_line_terminator s ->
  (units s = 32000 -> chunkString s MAX_DATABASE_STRING_SIZE = inl (Some [s]))
  /\ (units s = 32001 ->
      exists a b, chunkString s MAX_DATABASE_STRING_SIZE = inl (Some [a; b])
                  /\ units a = 32000 /\ units b = 1 /\ s = a ++ b).
Proof.
  intros Hs. rewrite chunkString_MAX. unfold match_dots, MAX_DATABASE_STRING_SIZE.
  set (n := N.to_nat 32000). split; intros Hu.
  - assert (Hl : List.length s = n) by (unfold units in Hu; lia).
    rewrite match_all_step_plain
      by first [exact Hs | eapply units_nonempty; [exact Hu|lia]].
    rewrite firstn_all2, skipn_all2, match_all_nil by lia. reflexivity.
  - assert (Hl : List.length s = S n) by (unfold units in Hu; lia).
    rewrite match_all_step_plain
      by first [exact Hs | eapply units_nonempty; [exact Hu|lia]].
    assert (Hb : List.length (skipn n s) = 1%nat) by (rewrite length_skipn; lia).
    rewrite Hl. rewrite match_all_step_plain.
    + rewrite (firstn_all2 (n := n) (skipn n s)), (skipn_all2 (n := n) (skipn n s)),
        match_all_nil by lia.
      exists (firstn n s), (skipn n s). split; [reflexivity|].
      unfold units. rewrite length_firstn, Hb. repeat split; try lia.
      symmetry; apply firstn_skipn.
    + apply no_line_terminator_skipn, Hs.
    + intros E. rewrite E in Hb. discriminate.
Qed.

(** ** Reading back what save wrote *)

Lemma decode_encode_chunks (chunks : list text) :
  Forall (fun c => c <> [] /\ well_formed c) chunks ->
  forall i,
  map (fun a => binaryToText (Chunk.data a)) (encode_chunks i chunks) = chunks.
Proof.
  induction 1 as [|c chunks [Hne Hwf] _ IH]; intros i; [reflexivity|].
  cbn [encode_chunks map Chunk.data]. rewrite IH.
  rewrite binaryToText_textToBinary by assumption. reflexivity.
Qed.

Lemma well_formed_strip (s : text) :
  well_formed s -> well_formed (strip_line_terminators s).
Proof.
  unfold well_formed, strip_line_terminators. rewrite !Forall_forall.
  intros H c Hc. apply filter_In in Hc as [Hc _]. apply H, Hc.
Qed.

Section Reading.

Variable T : text.

(** After [save], the cache decodes to the text of the document without
    its line terminators, and [data] is what [JSON.parse] makes of that
    text. *)
Theorem save_then_data (d : json) (st : state) :
  no_stale_chunk T (world st) ->
  well_formed (JSON_stringify d) ->
  cached_text (snd (save T d st)) = strip_line_terminators (JSON_stringify d)
  /\ fst (data (snd (save T d st)))
     = caught (JSON_parse (strip_line_terminators (JSON_stringify d))).
Proof.
  intros Hs Hwf.
  destruct (save_returns T d st Hs) as (p & l & w' & Esplit & Es & _).
  rewrite Es. cbn [snd].
  assert (Hc : cached_text {| MEMORY := encode_chunks 0 (p :: l); world := w' |}
               = strip_line_terminators (JSON_stringify d)).
  { apply chunkString_pieces in Esplit as [Hcat Hp];
      [|unfold MAX_DATABASE_STRING_SIZE; lia].
    unfold cached_text. cbn [MEMORY]. rewrite decode_encode_chunks.
    - rewrite join_nil. exact Hcat.
    - pose proof (well_formed_strip _ Hwf) as Hw. rewrite <- Hcat in Hw.
      unfold well_formed in Hw. rewrite Forall_concat in Hw.
      rewrite Forall_forall in *. intros c Hc. split; [apply Hp, Hc|].
      apply Hw, Hc. }
  split; [exact Hc|]. rewrite data_returns, Hc. reflexivity.
Qed.

End Reading.

(** * JSON.parse reads back what JSON.stringify wrote *)

(** ** Numbers *)

Lemma parse_digits_stop (rest : text) (acc : N) :
  no_digit_ahead rest -> parse_digits rest acc = (acc, rest).
Proof.
  destruct rest as [|c rest]; [reflexivity|]. cbn [no_digit_ahead parse_digits].
  intros ->. reflexivity.
Qed.

Lemma parse_digits_uint (d : Decimal.uint) (rest : text) :
  no_digit_ahead rest ->
  forall acc, parse_digits (uint_text d ++ rest) acc = (uint_value d acc, rest).
Proof.
  intros Hrest. induction d; intros acc; cbn [uint_text uint_value app];
    try (apply parse_digits_stop; exact Hrest);
    cbn [parse_digits];
    match goal with |- context [is_digit ?c] => change (is_digit c) with true end;
    cbv iota; rewrite IHd; f_equal; f_equal; lia.
Qed.

Lemma uint_value_acc (d : Decimal.uint) (a : positive) :
  uint_value d (N.pos a) = N.pos (Pos.of_uint_acc d a).
Proof.
  revert a; induction d; intros a; cbn [uint_value Pos.of_uint_acc];
    try reflexivity;
    match goal with
    | |- uint_value _ ?x = N.pos (Pos.of_uint_acc _ ?y) =>
        replace x with (N.pos y) by lia
    end; apply IHd.
Qed.

Lemma uint_value_of_uint (d : Decimal.uint) : uint_value d 0 = N.of_uint d.
Proof.
  unfold N.of_uint.
  induction d; cbn [uint_value Pos.of_uint]; try reflexivity;
    try (change (10 * 0) with 0; exact IHd);
    match goal with
    | |- uint_value _ ?x = N.pos (Pos.of_uint_acc _ ?y) =>
        change x with (N.pos y)
    end; apply uint_value_acc.
Qed.

Lemma parse_digits_decimal (n : N) (rest : text) :
  no_digit_ahead rest -> parse_digits (decimal n ++ rest) 0 = (n, rest).
Proof.
  intros H. unfold decimal. rewrite parse_digits_uint by exact H.
  rewrite uint_value_of_uint, DecimalN.Unsigned.of_to. reflexivity.
Qed.

(** The digits of a positive number start with a digit that is not 0. *)
Lemma decimal_positive_head (p : positive) :
  exists c tl, decimal (N.pos p) = c :: tl
               /\ is_digit c = true /\ (c =? 48) = false.
Proof.
  unfold decimal. cbn [N.to_uint].
  pose proof (DecimalPos.Unsigned.to_of (Pos.to_uint p)) as Hn.
  rewrite DecimalPos.Unsigned.of_to in Hn. cbn [N.to_uint] in Hn.
  pose proof (DecimalPos.Unsigned.to_uint_nonzero p) as Hz.
  pose proof (DecimalFacts.nzhead_nonzero (Pos.to_uint p)) as Hh.
  assert (Hu : Decimal.nzhead (Pos.to_uint p) = Pos.to_uint p).
  { rewrite Hn at 2. unfold Decimal.unorm.
    destruct (Decimal.nzhead (Pos.to_uint p)) eqn:E; try reflexivity.
    exfalso. apply Hz. rewrite Hn. unfold Decimal.unorm. rewrite E. reflexivity. }
  rewrite Hu in Hh.
  pose proof (DecimalPos.Unsigned.to_uint_nonnil p) as Hnil.
  destruct (Pos.to_uint p) as [|u|u|u|u|u|u|u|u|u|u]; [congruence| | | | | | | | | |];
    try (exfalso; eapply Hh; reflexivity);
    cbn [uint_text]; eexists; eexists; repeat split.
Qed.

(** ** Strings *)

Lemma hex_value_digit (n : N) : n < 16 -> hex_value (hex_digit n) = Some n.
Proof.
  intros H. rewrite <- (N2Nat.id n).
  assert (Hk : (N.to_nat n < 16)%nat) by lia.
  generalize dependent (N.to_nat n). intros k Hk.
  do 16 (destruct k as [|k]; [reflexivity|]). lia.
Qed.

Lemma hex4_escape (c : char16) :
  is_char16 c ->
  hex4 (hex_digit (c / 4096 mod 16)) (hex_digit (c / 256 mod 16))
       (hex_digit (c / 16 mod 16)) (hex_digit (c mod 16)) = Some c.
Proof.
  unfold is_char16. intros H. unfold hex4.
  rewrite !hex_value_digit by (apply N.mod_lt; discriminate).
  f_equal.
  pose proof (N.div_mod c 16 ltac:(discriminate)) as H1.
  pose proof (N.div_mod (c / 16) 16 ltac:(discriminate)) as H2.
  pose proof (N.div_mod (c / 16 / 16) 16 ltac:(discriminate)) as H3.
  rewrite !N.Div0.div_div in H2, H3. rewrite !N.Div0.div_div in H3.
  change (16 * 16) with 256 in *. change (256 * 16) with 4096 in *.
  assert (H4 : c / 4096 < 16) by (apply N.Div0.div_lt_upper_bound; lia).
  rewrite (N.mod_small (c / 4096) 16) in * by exact H4.
  lia.
Qed.

Lemma parse_string_plain (c : char16) (r acc : text) :
  (c =? 34) = false -> (c =? 92) = false -> (c <? 32) = false ->
  parse_string (c :: r) acc = parse_string r (c :: acc).
Proof. intros H1 H2 H3. cbn [parse_string]. rewrite H1, H2, H3. reflexivity. Qed.

Lemma parse_string_unicode (c : char16) (r acc : text) :
  is_char16 c ->
  parse_string (unicode_escape c ++ r) acc = parse_string r (c :: acc).
Proof.
  intros H. unfold unicode_escape. cbn [app parse_string].
  change (92 =? 34) with false. change (92 =? 92) with true.
  change (117 =? 117) with true. cbv iota.
  rewrite (hex4_escape c H). reflexivity.
Qed.

Lemma surrogate_plain (c : char16) :
  is_high_surrogate c || is_low_surrogate c = true ->
  (c =? 34) = false /\ (c =? 92) = false /\ (c <? 32) = false.
Proof.
  unfold is_high_surrogate, is_low_surrogate. intros H.
  apply orb_true_iff in H as [H|H]; apply andb_true_iff in H as [H1 H2];
    apply N.leb_le in H1; apply N.leb_le in H2;
    repeat split; try (apply N.eqb_neq; lia); apply N.ltb_ge; lia.
Qed.

(** One unit that is no surrogate, written and read back. *)
Lemma parse_string_quote_unit (c : char16) (r acc : text) :
  is_char16 c ->
  parse_string (quote_unit c ++ r) acc = parse_string r (c :: acc).
Proof.
  intros Hc. unfold quote_unit.
  destruct (N.eqb_spec c 8) as [->|H8]; [reflexivity|].
  destruct (N.eqb_spec c 9) as [->|H9]; [reflexivity|].
  destruct (N.eqb_spec c 10) as [->|H10]; [reflexivity|].
  destruct (N.eqb_spec c 12) as [->|H12]; [reflexivity|].
  destruct (N.eqb_spec c 13) as [->|H13]; [reflexivity|].
  destruct (N.eqb_spec c 34) as [->|H34]; [reflexivity|].
  destruct (N.eqb_spec c 92) as [->|H92]; [reflexivity|].
  destruct (N.ltb_spec c 32) as [Hlt|Hge].
  - apply parse_string_unicode, Hc.
  - cbn [app]. apply parse_string_plain.
    + apply N.eqb_neq, H34.
    + apply N.eqb_neq, H92.
    + apply N.ltb_ge, Hge.
Qed.

Lemma parse_string_quote_units (n : nat) :
  forall (s : text), (List.length s <= n)%nat -> well_formed s ->
  forall (rest acc : text),
  parse_string (quote_units s ++ 34 :: rest) acc = Some (rev acc ++ s, rest).
Proof.
  induction n as [|n IH]; intros s Hn Hwf rest acc.
  - destruct s; [|cbn in Hn; lia]. cbn. rewrite app_nil_r. reflexivity.
  - destruct s as [|c s]; [cbn; rewrite app_nil_r; reflexivity|].
    inversion Hwf as [|? ? Hc Hs]; subst.
    assert (Hstep : forall acc', parse_string (quote_units s ++ 34 :: rest) (c :: acc')
                    = Some (rev acc' ++ c :: s, rest)).
    { intros acc'. rewrite IH by (try assumption; cbn in Hn; lia).
      cbn [rev]. rewrite <- app_assoc. reflexivity. }
    cbn [quote_units].
    destruct (is_high_surrogate c) eqn:Hh.
    + destruct (surrogate_plain c) as (A1 & A2 & A3); [rewrite Hh; reflexivity|].
      destruct s as [|d s'].
      * rewrite parse_string_unicode by exact Hc. apply Hstep.
      * destruct (is_low_surrogate d) eqn:Hl.
        -- destruct (surrogate_plain d) as (B1 & B2 & B3);
             [rewrite Hl; apply orb_true_r|].
           cbn [app]. rewrite parse_string_plain by assumption.
           rewrite parse_string_plain by assumption.
           inversion Hs as [|? ? Hd Hs']; subst.
           rewrite IH by (try assumption; cbn in Hn; cbn; lia).
           cbn [rev]. rewrite <- !app_assoc. reflexivity.
        -- rewrite <- app_assoc, parse_string_unicode by exact Hc. apply Hstep.
    + destruct (is_low_surrogate c) eqn:Hl.
      * rewrite <- app_assoc, parse_string_unicode by exact Hc. apply Hstep.
      * rewrite <- app_assoc, parse_string_quote_unit by exact Hc. apply Hstep.
Qed.

(** A string literal, read back after its opening quote. *)
Lemma parse_string_literal (s rest : text) :
  well_formed s ->
  exists tl, QuoteJSONString s ++ rest = 34 :: tl
             /\ parse_string tl [] = Some (s, rest).
Proof.
  intros H. unfold QuoteJSONString. exists (quote_units s ++ 34 :: rest).
  split; [cbn [app]; rewrite <- app_assoc; reflexivity|].
  apply (parse_string_quote_units (List.length s) s (le_n _) H).
Qed.

(** ** Documents *)

Lemma json_induction (P : json -> Prop) :
  P JNull -> (forall b, P (JBool b)) -> (forall z, P (JNum z)) ->
  (forall s, P (JStr s)) ->
  (forall l, Forall P l -> P (JArr l)) ->
  (forall m, Forall (fun kv => P (snd kv)) m -> P (JObj m)) ->
  forall d, P d.
Proof.
  intros Hn Hb Hz Hs Ha Ho. fix IH 1. intros [|b|z|s|l|m].
  - exact Hn.
  - apply Hb.
  - apply Hz.
  - apply Hs.
  - apply Ha. revert l. fix IHl 1. intros [|d l]; constructor.
    + apply IH.
    + apply IHl.
  - apply Ho. revert m. fix IHm 1. intros [|kv m]; constructor.
    + apply IH.
    + apply IHm.
Qed.

Lemma well_formed_JArr (l : list json) :
  well_formed_json (JArr l) <-> Forall well_formed_json l.
Proof.
  cbn [well_formed_json]. induction l as [|d l IH].
  - split; [constructor|trivial].
  - split.
    + intros [H1 H2]. constructor; [exact H1|apply IH, H2].
    + intros H. inversion H; subst. split; [assumption|apply IH; assumption].
Qed.

Lemma well_formed_JObj (m : list (text * json)) :
  well_formed_json (JObj m)
  <-> NoDup (map fst m)
      /\ in_order (map fst m) = true
      /\ Forall (fun kv => well_formed (fst kv) /\ well_formed_json (snd kv)) m.
Proof.
  cbn [well_formed_json].
  split; intros (Hd & Ho & H); (split; [exact Hd|split; [exact Ho|]]); clear Hd Ho.
  - induction m as [|kv m IH]; [constructor|].
    destruct H as (H1 & H2 & H3). constructor; [split; assumption|apply IH, H3].
  - induction H as [|kv m [H1 H2] _ IH]; [trivial|]. repeat split; assumption.
Qed.

(** *** Members and their order *)

Lemma has_own_in (k : text) (m : list (text * json)) :
  has_own k m = true <-> In k (map fst m).
Proof.
  unfold has_own. induction m as [|[k0 v0] m IH]; cbn [lookup map fst In].
  - split; [discriminate|tauto].
  - destruct (text_eqb k0 k) eqn:E.
    + apply text_eqb_eq in E. split; [left; exact E|reflexivity].
    + split.
      * intros H. right. apply IH, H.
      * intros [H|H]; [subst; rewrite text_eqb_refl in E; discriminate|].
        apply IH, H.
Qed.

Lemma has_own_not_in (k : text) (m : list (text * json)) :
  has_own k m = false <-> ~ In k (map fst m).
Proof.
  rewrite <- has_own_in. destruct (has_own k m); split; congruence.
Qed.

Lemma listed_before_asym (a b : text) :
  listed_before a b = true -> listed_before b a = false.
Proof.
  unfold listed_before.
  destruct (array_index a) as [i|], (array_index b) as [j|];
    try discriminate; try reflexivity.
  intros H. apply N.ltb_lt in H. apply N.ltb_ge. lia.
Qed.

Lemma listed_before_trans (a b c : text) :
  listed_before a b = true -> listed_before b c = true ->
  listed_before a c = true.
Proof.
  unfold listed_before.
  destruct (array_index a) as [i|], (array_index b) as [j|],
    (array_index c) as [k|]; try discriminate; try reflexivity.
  intros H1 H2. apply N.ltb_lt in H1. apply N.ltb_lt in H2.
  apply N.ltb_lt. lia.
Qed.

(** Where neither of two keys is listed before the other, they are
    listed alike before and after a third. *)
Lemma listed_before_between (a b c : text) :
  listed_before a b = false -> listed_before b c = false ->
  listed_before a c = false.
Proof.
  unfold listed_before.
  destruct (array_index a) as [i|], (array_index b) as [j|],
    (array_index c) as [k|]; try discriminate; try reflexivity.
  intros H1 H2. apply N.ltb_ge in H1. apply N.ltb_ge in H2.
  apply N.ltb_ge. lia.
Qed.

Lemma replace_keys (k : text) (v : json) (m : list (text * json)) :
  map fst (replace k v m) = map fst m.
Proof.
  induction m as [|[k0 v0] m IH]; [reflexivity|]. cbn [replace].
  destruct (text_eqb k0 k); cbn [map fst]; [reflexivity|]. rewrite IH. reflexivity.
Qed.

Lemma lookup_replace_same (k : text) (v : json) (m : list (text * json)) :
  has_own k m = true -> lookup k (replace k v m) = Some v.
Proof.
  unfold has_own. induction m as [|[k0 v0] m IH]; cbn [lookup replace];
    [discriminate|].
  destruct (text_eqb k0 k) eqn:E; cbn [lookup]; rewrite E; [reflexivity|exact IH].
Qed.

Lemma lookup_replace_other (k k' : text) (v : json) (m : list (text * json)) :
  k' <> k -> lookup k' (replace k v m) = lookup k' m.
Proof.
  intros Hne. induction m as [|[k0 v0] m IH]; [reflexivity|]. cbn [replace lookup].
  destruct (text_eqb k0 k) eqn:E; cbn [lookup].
  - apply text_eqb_eq in E; subst k0.
    rewrite (text_eqb_neq k k') by congruence. reflexivity.
  - rewrite IH. reflexivity.
Qed.

Lemma replace_in (k : text) (v : json) (m : list (text * json)) (kv : text * json) :
  In kv (replace k v m) -> kv = (k, v) \/ In kv m.
Proof.
  induction m as [|[k0 v0] m IH]; cbn [replace]; [intros []|].
  destruct (text_eqb k0 k) eqn:E.
  - apply text_eqb_eq in E; subst k0.
    intros [H|H]; [left; symmetry; exact H|right; right; exact H].
  - intros [H|H]; [right; left; exact H|].
    destruct (IH H) as [H1|H1]; [left; exact H1|right; right; exact H1].
Qed.

Lemma replace_length (k : text) (v : json) (m : list (text * json)) :
  List.length (replace k v m) = List.length m.
Proof. rewrite <- (length_map fst), replace_keys, length_map. reflexivity. Qed.

Lemma insert_in (k : text) (v : json) (m : list (text * json)) (kv : text * json) :
  In kv (insert k v m) <-> kv = (k, v) \/ In kv m.
Proof.
  induction m as [|[k0 v0] m IH]; cbn [insert].
  - cbn [In]. split; intros [H|[]]; left; congruence.
  - destruct (listed_before k k0); cbn [In].
    + split; intros [H|H]; auto.
    + rewrite IH. split; intros H; tauto.
Qed.

Lemma insert_keys (k : text) (v : json) (m : list (text * json)) (x : text) :
  In x (map fst (insert k v m)) <-> x = k \/ In x (map fst m).
Proof.
  rewrite !in_map_iff. split.
  - intros (kv & <- & H). apply insert_in in H as [->|H]; [left; reflexivity|].
    right. exists kv. split; [reflexivity|exact H].
  - intros [->|(kv & <- & H)].
    + exists (k, v). split; [reflexivity|]. apply insert_in. left; reflexivity.
    + exists kv. split; [reflexivity|]. apply insert_in. right; exact H.
Qed.

Lemma lookup_insert_same (k : text) (v : json) (m : list (text * json)) :
  ~ In k (map fst m) -> lookup k (insert k v m) = Some v.
Proof.
  induction m as [|[k0 v0] m IH]; cbn [insert map fst In]; intros H.
  - cbn [lookup]. rewrite text_eqb_refl. reflexivity.
  - destruct (listed_before k k0); cbn [lookup].
    + rewrite text_eqb_refl. reflexivity.
    + rewrite (text_eqb_neq k0 k) by tauto. apply IH. tauto.
Qed.

Lemma lookup_insert_other (k k' : text) (v : json) (m : list (text * json)) :
  k' <> k -> lookup k' (insert k v m) = lookup k' m.
Proof.
  intros Hne. induction m as [|[k0 v0] m IH]; cbn [insert].
  - cbn [lookup]. rewrite (text_eqb_neq k k') by congruence. reflexivity.
  - destruct (listed_before k k0); cbn [lookup].
    + rewrite (text_eqb_neq k k') by congruence. reflexivity.
    + rewrite IH. reflexivity.
Qed.

Lemma insert_NoDup (k : text) (v : json) (m : list (text * json)) :
  ~ In k (map fst m) -> NoDup (map fst m) -> NoDup (map fst (insert k v m)).
Proof.
  induction m as [|[k0 v0] m IH]; cbn [insert map fst In]; intros Hk Hnd.
  - constructor; [intros []|constructor].
  - destruct (listed_before k k0); cbn [map fst].
    + constructor; [exact Hk|exact Hnd].
    + inversion Hnd as [|? ? Hk0 Hm]; subst. constructor.
      * intros Hin. apply insert_keys in Hin as [->|Hin]; [tauto|contradiction].
      * apply IH; [tauto|exact Hm].
Qed.

Lemma insert_length (k : text) (v : json) (m : list (text * json)) :
  List.length (insert k v m) = S (List.length m).
Proof.
  induction m as [|[k0 v0] m IH]; [reflexivity|]. cbn [insert].
  destruct (listed_before k k0); cbn [List.length]; [reflexivity|].
  rewrite IH. reflexivity.
Qed.

(** A key that is listed before none of the members is placed last. *)
Lemma insert_last (k : text) (v : json) (m : list (text * json)) :
  forallb (fun k' => negb (listed_before k k')) (map fst m) = true ->
  insert k v m = m ++ [(k, v)].
Proof.
  induction m as [|[k0 v0] m IH]; [reflexivity|]. cbn [map fst forallb insert app].
  intros H. apply andb_true_iff in H as [H1 H2].
  apply negb_true_iff in H1. rewrite H1, (IH H2). reflexivity.
Qed.

Lemma in_order_before (l1 l2 : list text) (k : text) :
  in_order (l1 ++ k :: l2) = true ->
  forallb (fun k' => negb (listed_before k k')) l1 = true.
Proof.
  induction l1 as [|a l1 IH]; [reflexivity|]. cbn [app in_order forallb].
  intros H. apply andb_true_iff in H as [H1 H2].
  rewrite forallb_app in H1. apply andb_true_iff in H1 as [_ H1].
  cbn [forallb] in H1. apply andb_true_iff in H1 as [H1 _].
  rewrite H1. exact (IH H2).
Qed.

Lemma insert_in_order (k : text) (v : json) (m : list (text * json)) :
  in_order (map fst m) = true -> in_order (map fst (insert k v m)) = true.
Proof.
  induction m as [|[k0 v0] m IH]; [reflexivity|].
  cbn [insert map fst in_order]. intros H.
  apply andb_true_iff in H as [H1 H2]. rewrite forallb_forall in H1.
  destruct (listed_before k k0) eqn:E; cbn [map fst in_order forallb].
  - rewrite (listed_before_asym _ _ E). cbn [negb andb].
    apply andb_true_iff. split; [|apply andb_true_iff; split; [|exact H2]].
    + apply forallb_forall. intros x Hx. apply negb_true_iff.
      destruct (listed_before x k) eqn:Ex; [|reflexivity].
      pose proof (listed_before_trans _ _ _ Ex E) as Hc.
      apply H1 in Hx. rewrite Hc in Hx. discriminate.
    + apply forallb_forall. exact H1.
  - apply andb_true_iff. split; [|exact (IH H2)].
    apply forallb_forall. intros x Hx.
    apply insert_keys in Hx as [->|Hx]; [rewrite E; reflexivity|apply H1, Hx].
Qed.

Lemma put_fresh (k : text) (v : json) (acc rest : list (text * json)) :
  NoDup (map fst (acc ++ (k, v) :: rest)) ->
  in_order (map fst (acc ++ (k, v) :: rest)) = true ->
  put k v acc = acc ++ [(k, v)].
Proof.
  intros Hnd Ho. rewrite map_app in Hnd, Ho. cbn [map fst] in Hnd, Ho.
  apply NoDup_remove_2 in Hnd.
  assert (Hk : ~ In k (map fst acc)).
  { intros Hin. apply Hnd. apply in_or_app; left; exact Hin. }
  unfold put. apply has_own_not_in in Hk. rewrite Hk.
  apply insert_last. eapply in_order_before; exact Ho.
Qed.

Lemma lookup_put_same (k : text) (v : json) (m : list (text * json)) :
  lookup k (put k v m) = Some v.
Proof.
  unfold put. destruct (has_own k m) eqn:E.
  - apply lookup_replace_same, E.
  - apply lookup_insert_same. apply has_own_not_in, E.
Qed.

Lemma lookup_put_other (k k' : text) (v : json) (m : list (text * json)) :
  k' <> k -> lookup k' (put k v m) = lookup k' m.
Proof.
  intros Hne. unfold put. destruct (has_own k m).
  - apply lookup_replace_other, Hne.
  - apply lookup_insert_other, Hne.
Qed.

Lemma put_in (k : text) (v : json) (m : list (text * json)) (kv : text * json) :
  In kv (put k v m) -> kv = (k, v) \/ In kv m.
Proof.
  unfold put. destruct (has_own k m).
  - apply replace_in.
  - apply insert_in.
Qed.

Lemma put_keys (k : text) (v : json) (m : list (text * json)) (x : text) :
  In x (map fst (put k v m)) -> x = k \/ In x (map fst m).
Proof.
  intros H. apply in_map_iff in H as (kv & <- & Hkv).
  apply put_in in Hkv as [->|Hkv]; [left; reflexivity|].
  right. apply in_map; exact Hkv.
Qed.

Lemma put_NoDup (k : text) (v : json) (m : list (text * json)) :
  NoDup (map fst m) -> NoDup (map fst (put k v m)).
Proof.
  intros H. unfold put. destruct (has_own k m) eqn:E.
  - rewrite replace_keys. exact H.
  - apply insert_NoDup; [apply has_own_not_in, E|exact H].
Qed.

Lemma put_in_order (k : text) (v : json) (m : list (text * json)) :
  in_order (map fst m) = true -> in_order (map fst (put k v m)) = true.
Proof.
  intros H. unfold put. destruct (has_own k m).
  - rewrite replace_keys. exact H.
  - apply insert_in_order, H.
Qed.

Lemma put_length (k : text) (v : json) (m : list (text * json)) :
  List.length (put k v m)
  = (List.length m + (if has_own k m then 0 else 1))%nat.
Proof.
  unfold put. destruct (has_own k m).
  - rewrite replace_length. lia.
  - rewrite insert_length. lia.
Qed.

(** *** Literals and numbers *)

Lemma value_follows_no_digit (rest : text) :
  value_follows rest -> no_digit_ahead rest.
Proof.
  destruct rest as [|c rest]; [trivial|]. cbn.
  intros [-> | [-> | ->]]; reflexivity.
Qed.

Lemma parse_natural_decimal (n : N) (rest : text) :
  value_follows rest -> parse_natural (decimal n ++ rest) = Some (n, rest).
Proof.
  intros Hf. destruct n as [|p].
  - change (decimal 0) with [48]. reflexivity.
  - destruct (decimal_positive_head p) as (c & tl & E & Hd & Hz).
    pose proof (parse_digits_decimal (N.pos p) rest (value_follows_no_digit _ Hf))
      as Hp.
    rewrite E in *. cbn [app] in *. cbn [parse_natural].
    rewrite Hd, Hz. cbn [negb]. rewrite Hp. reflexivity.
Qed.

(** After a value comes no fraction and no exponent. *)
Lemma parse_fraction_none (rest : text) :
  value_follows rest -> parse_fraction rest = inl (false, rest).
Proof.
  destruct rest as [|c rest]; [reflexivity|]. cbn [value_follows].
  intros [-> | [-> | ->]]; reflexivity.
Qed.

Lemma parse_exponent_none (rest : text) :
  value_follows rest -> parse_exponent rest = inl (false, rest).
Proof.
  destruct rest as [|c rest]; [reflexivity|]. cbn [value_follows].
  intros [-> | [-> | ->]]; reflexivity.
Qed.

Lemma parse_number_text (z : Z) (rest : text) :
  (Z.abs z < 2 ^ 53)%Z -> value_follows rest ->
  parse_number (number_text z ++ rest) = inl (JNum z, rest).
Proof.
  intros Hz Hf.
  assert (Htail : forall n, n < 9007199254740992 ->
            forall negative, negative && (n =? 0) = false ->
            match parse_fraction rest with
            | inr e => inr e
            | inl (fraction, r1) =>
                match parse_exponent r1 with
                | inr e => inr e
                | inl (exponent, r2) =>
                    if fraction || exponent || (9007199254740992 <=? n)
                       || (negative && (n =? 0))
                    then inr OutsideModel
                    else inl (JNum (if negative then Z.opp (Z.of_N n) else Z.of_N n), r2)
                end
            end
            = inl (JNum (if negative then Z.opp (Z.of_N n) else Z.of_N n), rest)).
  { intros n Hn negative Hneg.
    rewrite (parse_fraction_none rest Hf), (parse_exponent_none rest Hf).
    apply N.leb_gt in Hn. rewrite Hn, Hneg. reflexivity. }
  change (2 ^ 53)%Z with 9007199254740992%Z in Hz.
  destruct z as [|p|p]; unfold number_text.
  - pose proof (parse_natural_decimal 0 rest Hf) as H.
    change (Z.to_N 0) with 0. change (decimal 0) with [48] in *.
    cbn [app] in *. unfold parse_number. change (48 =? 45) with false. cbv iota.
    rewrite H. apply (Htail 0 ltac:(lia) false). reflexivity.
  - change (Z.to_N (Z.pos p)) with (N.pos p).
    pose proof (parse_natural_decimal (N.pos p) rest Hf) as H.
    destruct (decimal_positive_head p) as (c & tl & E & Hd & _).
    rewrite E in *. cbn [app] in *. unfold parse_number.
    assert (Hc : (c =? 45) = false).
    { unfold is_digit in Hd. apply andb_true_iff in Hd as [H1 _].
      apply N.leb_le in H1. apply N.eqb_neq. lia. }
    rewrite Hc, H. apply (Htail (N.pos p) ltac:(lia) false). reflexivity.
  - cbn [app]. unfold parse_number. change (45 =? 45) with true. cbv iota.
    rewrite (parse_natural_decimal (N.pos p) rest Hf).
    apply (Htail (N.pos p) ltac:(lia) true). reflexivity.
Qed.

Lemma digit_cases (c : char16) :
  is_digit c = true ->
  c = 48 \/ c = 49 \/ c = 50 \/ c = 51 \/ c = 52
  \/ c = 53 \/ c = 54 \/ c = 55 \/ c = 56 \/ c = 57.
Proof.
  unfold is_digit. intros H. apply andb_true_iff in H as [H1 H2].
  apply N.leb_le in H1. apply N.leb_le in H2. lia.
Qed.

(** A text that starts like a number is read as a number. *)
Lemma parse_value_number (fuel : nat) (c : char16) (r : text) :
  is_digit c = true \/ c = 45 ->
  parse_value (S fuel) (c :: r) = parse_number (c :: r).
Proof.
  intros [H | ->]; [|reflexivity].
  apply digit_cases in H.
  repeat (destruct H as [->|H]; [reflexivity|]). subst; reflexivity.
Qed.

Lemma number_text_head (z : Z) :
  exists c tl, number_text z = c :: tl /\ (is_digit c = true \/ c = 45).
Proof.
  destruct z as [|p|p]; unfold number_text.
  - exists 48, []. split; [reflexivity|left; reflexivity].
  - change (Z.to_N (Z.pos p)) with (N.pos p).
    destruct (decimal_positive_head p) as (c & tl & E & Hd & _).
    exists c, tl. split; [exact E|left; exact Hd].
  - eexists; eexists. split; [reflexivity|right; reflexivity].
Qed.

(** The first unit of the text of a document: no white space, and no
    closing bracket. *)
Lemma JSON_stringify_start (d : json) :
  exists c tl, JSON_stringify d = c :: tl
               /\ is_json_space c = false /\ (93 =? c) = false.
Proof.
  destruct d as [|[|]|z|s|l|m]; cbn [JSON_stringify QuoteJSONString];
    try (eexists; eexists; split; [reflexivity|split; reflexivity]).
  destruct (number_text_head z) as (c & tl & E & [H | ->]).
  - exists c, tl. split; [exact E|].
    apply digit_cases in H.
    repeat (destruct H as [->|H]; [split; reflexivity|]). subst; split; reflexivity.
  - exists 45, tl. split; [exact E|split; reflexivity].
Qed.

(** *** Values *)

Lemma skip_ws_start (c : char16) (r : text) :
  is_json_space c = false -> skip_ws (c :: r) = c :: r.
Proof. intros H. cbn [skip_ws]. rewrite H. reflexivity. Qed.

Lemma expect_here (c : char16) (r : text) :
  is_json_space c = false -> expect c (c :: r) = Some r.
Proof.
  intros H. unfold expect. rewrite skip_ws_start by exact H.
  rewrite N.eqb_refl. reflexivity.
Qed.

Lemma json_size_positive (d : json) : (1 <= json_size d)%nat.
Proof. destruct d; cbn [json_size]; lia. Qed.

Lemma parse_elements_reads_back (l : list json) :
  Forall reads_back l -> Forall well_formed_json l ->
  forall (d : json) (acc : list json) (fuel : nat) (rest : text),
  reads_back d -> well_formed_json d ->
  (1 + 2 * (json_size d + list_sum (map json_size l)) <= fuel)%nat ->
  parse_elements fuel
    (join [44] (map JSON_stringify (d :: l)) ++ 93 :: rest) acc
  = inl (JArr (rev acc ++ d :: l), rest).
Proof.
  induction 1 as [|d2 l Hd2 Hl IH]; intros Hwf d acc fuel rest Hd Hwd Hfuel.
  - destruct fuel as [|fuel]; [lia|]. cbn [map join parse_elements].
    rewrite (Hd Hwd fuel (93 :: rest)); [|unfold list_sum in *; cbn [map fold_right] in Hfuel; lia|
      right; left; reflexivity].
    reflexivity.
  - destruct fuel as [|fuel]; [lia|]. inversion Hwf as [|? ? Hwd2 Hwl]; subst.
    change (join [44] (map JSON_stringify (d :: d2 :: l)))
      with (JSON_stringify d ++ [44] ++ join [44] (map JSON_stringify (d2 :: l))).
    rewrite <- !app_assoc. cbn [parse_elements].
    rewrite (Hd Hwd fuel); [|unfold list_sum in *; cbn [map fold_right] in Hfuel; lia|left; reflexivity].
    cbn [app]. rewrite (skip_ws_start 44) by reflexivity.
    cbv beta iota. change (44 =? 44) with true. cbv iota.
    rewrite (IH Hwl d2 (d :: acc) fuel rest Hd2 Hwd2).
    + cbn [rev]. rewrite <- app_assoc. reflexivity.
    + unfold list_sum in *; cbn [map fold_right] in Hfuel. pose proof (json_size_positive d). lia.
Qed.

Lemma parse_members_reads_back (m : list (text * json)) :
  Forall (fun kv => reads_back (snd kv)) m ->
  Forall (fun kv => well_formed (fst kv) /\ well_formed_json (snd kv)) m ->
  forall (kv : text * json) (acc : list (text * json)) (fuel : nat) (rest : text),
  reads_back (snd kv) -> well_formed (fst kv) -> well_formed_json (snd kv) ->
  NoDup (map fst (acc ++ kv :: m)) ->
  in_order (map fst (acc ++ kv :: m)) = true ->
  (1 + 2 * (json_size (snd kv)
            + list_sum (map (fun e => json_size (snd e)) m)) <= fuel)%nat ->
  parse_members fuel
    (join [44] (map member_text (kv :: m)) ++ 125 :: rest) acc
  = inl (JObj (acc ++ kv :: m), rest).
Proof.
  induction 1 as [|kv2 m Hkv2 Hm IH];
    intros Hwf [k v] acc fuel rest Hv Hwk Hwv Hnd Hord Hfuel;
    cbn [fst snd] in *.
  - destruct fuel as [|fuel]; [lia|]. cbn [map join].
    unfold member_text. cbn [fst snd]. unfold QuoteJSONString.
    cbn [app]. rewrite <- !app_assoc. cbn [app].
    cbn [parse_members]. rewrite (expect_here 34) by reflexivity.
    rewrite (parse_string_quote_units (List.length k) k (le_n _) Hwk).
    cbn [rev app]. rewrite (expect_here 58) by reflexivity.
    rewrite (Hv Hwv fuel (125 :: rest));
      [|unfold list_sum in *; cbn [map fold_right] in Hfuel; lia|right; right; reflexivity].
    rewrite (skip_ws_start 125) by reflexivity. cbv beta iota.
    change (125 =? 44) with false. change (125 =? 125) with true. cbv iota.
    rewrite (put_fresh k v acc []) by assumption. reflexivity.
  - destruct fuel as [|fuel]; [lia|].
    inversion Hwf as [|? ? [Hwk2 Hwv2] Hwm]; subst.
    change (join [44] (map member_text ((k, v) :: kv2 :: m)))
      with (member_text (k, v) ++ [44] ++ join [44] (map member_text (kv2 :: m))).
    unfold member_text at 1. cbn [fst snd]. unfold QuoteJSONString.
    cbn [app]. rewrite <- !app_assoc. cbn [app].
    cbn [parse_members]. rewrite (expect_here 34) by reflexivity.
    rewrite (parse_string_quote_units (List.length k) k (le_n _) Hwk).
    cbn [rev app]. rewrite (expect_here 58) by reflexivity.
    rewrite (Hv Hwv fuel); [|unfold list_sum in *; cbn [map fold_right] in Hfuel; lia|left; reflexivity].
    rewrite (skip_ws_start 44) by reflexivity. cbv beta iota.
    change (44 =? 44) with true. cbv iota.
    rewrite (put_fresh k v acc (kv2 :: m)) by assumption.
    rewrite (IH Hwm kv2 (acc ++ [(k, v)]) fuel rest Hkv2 Hwk2 Hwv2).
    + rewrite <- app_assoc. reflexivity.
    + rewrite <- app_assoc. exact Hnd.
    + rewrite <- app_assoc. exact Hord.
    + unfold list_sum in *; cbn [map fold_right] in Hfuel. pose proof (json_size_positive v). lia.
Qed.

Theorem parse_value_stringify (d : json) : reads_back d.
Proof.
  induction d as [|b|z|s|l IH|m IH] using json_induction;
    intros Hwf fuel rest Hfuel Hrest;
    (destruct fuel as [|fuel]; [cbn [json_size] in Hfuel; lia|]).
  - reflexivity.
  - destruct b; reflexivity.
  - destruct (number_text_head z) as (c & tl & E & Hc).
    cbn [JSON_stringify]. pose proof (parse_number_text z rest Hwf Hrest) as Hp.
    rewrite E in *. cbn [app] in *. rewrite parse_value_number by exact Hc.
    exact Hp.
  - cbn [JSON_stringify]. unfold QuoteJSONString. cbn [app].
    rewrite <- app_assoc. cbn [app parse_value].
    rewrite (skip_ws_start 34) by reflexivity. cbv beta iota.
    change (34 =? 34) with true. cbv iota.
    rewrite (parse_string_quote_units (List.length s) s (le_n _) Hwf).
    reflexivity.
  - apply well_formed_JArr in Hwf. cbn [JSON_stringify app].
    rewrite <- app_assoc. cbn [app parse_value].
    rewrite (skip_ws_start 91) by reflexivity. cbv beta iota.
    change (91 =? 34) with false. change (91 =? 91) with true. cbv iota.
    destruct l as [|d l].
    + reflexivity.
    + destruct (JSON_stringify_start d) as (c & tl & E & Hsp & Hc).
      inversion IH as [|? ? Hd Hl]; subst. inversion Hwf as [|? ? Hwd Hwl]; subst.
      assert (Hexp : expect 93 (join [44] (map JSON_stringify (d :: l)) ++ 93 :: rest)
                     = None).
      { assert (Hj : exists tl', join [44] (map JSON_stringify (d :: l)) = c :: tl').
        { destruct l; cbn [map join]; rewrite E; eexists; reflexivity. }
        destruct Hj as [tl' ->]. cbn [app]. unfold expect.
        rewrite skip_ws_start by exact Hsp. rewrite Hc. reflexivity. }
      rewrite Hexp.
      rewrite (parse_elements_reads_back l Hl Hwl d [] fuel rest Hd Hwd);
        [reflexivity|]. cbn [json_size] in Hfuel; unfold list_sum in *; cbn [map fold_right] in Hfuel. lia.
  - apply well_formed_JObj in Hwf as (Hnd & Hord & Hwf). cbn [JSON_stringify app].
    rewrite <- app_assoc. cbn [app parse_value].
    rewrite (skip_ws_start 123) by reflexivity. cbv beta iota.
    change (123 =? 34) with false. change (123 =? 91) with false.
    change (123 =? 123) with true. cbv iota.
    destruct m as [|[k v] m].
    + reflexivity.
    + inversion IH as [|? ? Hv Hm]; subst.
      inversion Hwf as [|? ? [Hwk Hwv] Hwm]; subst. cbn [fst snd] in *.
      assert (Hexp : expect 125
                       (join [44]
                          (map (fun kv => QuoteJSONString (fst kv)
                                            ++ 58 :: JSON_stringify (snd kv))
                               ((k, v) :: m)) ++ 125 :: rest) = None).
      { assert (Hj : exists tl',
                   join [44]
                     (map (fun kv => QuoteJSONString (fst kv)
                                       ++ 58 :: JSON_stringify (snd kv))
                          ((k, v) :: m)) = 34 :: tl').
        { destruct m; cbn [map join fst]; unfold QuoteJSONString;
            eexists; reflexivity. }
        destruct Hj as [tl' ->]. reflexivity. }
      rewrite Hexp.
      change (map (fun kv => QuoteJSONString (fst kv) ++ 58 :: JSON_stringify (snd kv))
                  ((k, v) :: m))
        with (map member_text ((k, v) :: m)).
      rewrite (parse_members_reads_back m Hm Hwm (k, v) [] fuel rest Hv Hwk Hwv);
        [reflexivity|exact Hnd|exact Hord|].
      cbn [json_size] in Hfuel; unfold list_sum in *; cbn [map fold_right snd] in Hfuel. cbn [snd]. lia.
Qed.

(** *** The whole text *)

Lemma join_length (l : list text) :
  (list_sum (map (@List.length char16) l) <= List.length (join [44%N] l))%nat.
Proof.
  induction l as [|x [|y l] IH]; [cbn; lia|cbn; lia|].
  change (join [44] (x :: y :: l)) with (x ++ [44] ++ join [44] (y :: l)).
  rewrite !length_app. unfold list_sum in *; cbn [map fold_right] in *. lia.
Qed.

Lemma list_sum_le {A : Type} (f g : A -> nat) (l : list A) :
  Forall (fun x => (f x <= g x)%nat) l ->
  (list_sum (map f l) <= list_sum (map g l))%nat.
Proof.
  induction 1 as [|x l Hx _ IH]; [apply le_n|].
  unfold list_sum in *. cbn [map fold_right]. lia.
Qed.

Lemma json_size_length (d : json) :
  (json_size d <= List.length (JSON_stringify d))%nat.
Proof.
  induction d as [|b|z|s|l IH|m IH] using json_induction.
  - cbn; lia.
  - destruct b; cbn; lia.
  - destruct (number_text_head z) as (c & tl & E & _).
    cbn [JSON_stringify json_size]. rewrite E. cbn; lia.
  - cbn [JSON_stringify json_size]. unfold QuoteJSONString. cbn; lia.
  - cbn [JSON_stringify json_size]. cbn [List.length]. rewrite length_app.
    pose proof (join_length (map JSON_stringify l)) as Hj.
    rewrite map_map in Hj.
    pose proof (list_sum_le json_size
                  (fun d => List.length (JSON_stringify d)) l IH) as Hs.
    lia.
  - cbn [JSON_stringify json_size]. cbn [List.length]. rewrite length_app.
    set (f := fun kv : text * json =>
                QuoteJSONString (fst kv) ++ 58 :: JSON_stringify (snd kv)).
    pose proof (join_length (map f m)) as Hj.
    rewrite map_map in Hj.
    assert (Hs : (list_sum (map (fun kv => json_size (snd kv)) m)
                  <= list_sum (map (fun kv => List.length (f kv)) m))%nat).
    { apply list_sum_le. eapply Forall_impl; [|exact IH].
      intros kv Hkv. cbv beta in Hkv. unfold f. rewrite length_app.
      cbn [List.length]. lia. }
    lia.
Qed.

(** [JSON.parse] reads back what [JSON.stringify] wrote of a document
    of the fragment. *)
Theorem JSON_parse_stringify (d : json) :
  well_formed_json d -> JSON_parse (JSON_stringify d) = inl d.
Proof.
  intros Hwf. unfold JSON_parse.
  pose proof (parse_value_stringify d Hwf
                (2 * List.length (JSON_stringify d) + 2)%nat []) as H.
  rewrite app_nil_r in H. rewrite H; [reflexivity| |exact I].
  pose proof (json_size_length d). lia.
Qed.

(** ** The units of the text of a document *)

Section Units.

(** A property of units that holds of the printable ASCII units. *)
Variable P : char16 -> Prop.
Hypothesis P_ascii : forall c, 32 <= c < 127 -> P c.

Lemma lit_units (s : string) :
  forallb (fun c => (32 <=? c) && (c <? 127)) (lit s) = true ->
  Forall P (lit s).
Proof.
  intros H. apply Forall_forall. intros c Hc.
  rewrite forallb_forall in H. apply H in Hc.
  apply andb_true_iff in Hc as [H1 H2].
  apply N.leb_le in H1. apply N.ltb_lt in H2. apply P_ascii. lia.
Qed.

Lemma decimal_units (n : N) : Forall P (decimal n).
Proof.
  pose proof (decimal_digits n) as H. rewrite Forall_forall in *.
  intros c Hc. apply H in Hc. unfold is_digit in Hc.
  apply andb_true_iff in Hc as [H1 H2].
  apply N.leb_le in H1. apply N.leb_le in H2. apply P_ascii. lia.
Qed.

Lemma number_text_units (z : Z) : Forall P (number_text z).
Proof.
  destruct z as [|p|p]; unfold number_text; try apply decimal_units.
  constructor; [apply P_ascii; lia|apply decimal_units].
Qed.

Lemma hex_digit_units (n : N) : n < 16 -> P (hex_digit n).
Proof.
  intros H. unfold hex_digit. destruct (N.ltb_spec n 10); apply P_ascii; lia.
Qed.

Lemma unicode_escape_units (c : char16) : Forall P (unicode_escape c).
Proof.
  unfold unicode_escape.
  repeat (constructor;
          [first [apply P_ascii; lia
                 |apply hex_digit_units, N.mod_lt; discriminate]|]).
  constructor.
Qed.

Lemma quote_unit_units (c : char16) :
  (32 <= c -> P c) -> Forall P (quote_unit c).
Proof.
  intros Hc. unfold quote_unit.
  repeat match goal with
         | |- context [if ?b then _ else _] => destruct b eqn:?
         end;
    try apply unicode_escape_units;
    try (repeat constructor; apply P_ascii; lia).
  constructor; [|constructor]. apply Hc.
  match goal with H : (c <? 32) = false |- _ => apply N.ltb_ge in H; exact H end.
Qed.

Lemma surrogate_above (c : char16) :
  is_high_surrogate c || is_low_surrogate c = true -> 32 <= c.
Proof.
  unfold is_high_surrogate, is_low_surrogate. intros H.
  apply orb_true_iff in H as [H|H]; apply andb_true_iff in H as [H1 _];
    apply N.leb_le in H1; lia.
Qed.

Lemma quote_units_units (n : nat) :
  forall s, (List.length s <= n)%nat ->
  Forall (fun c => 32 <= c -> P c) s -> Forall P (quote_units s).
Proof.
  induction n as [|n IH]; intros s Hn Hs.
  - destruct s; [constructor|cbn in Hn; lia].
  - destruct s as [|c s]; [constructor|]. inversion Hs as [|? ? Hc Hs']; subst.
    assert (Hrec : Forall P (quote_units s)) by (apply IH; [cbn in Hn; lia|exact Hs']).
    cbn [quote_units]. destruct (is_high_surrogate c) eqn:Hh.
    + destruct s as [|d s'].
      * apply unicode_escape_units.
      * destruct (is_low_surrogate d) eqn:Hl.
        -- inversion Hs' as [|? ? Hd Hs'']; subst.
           constructor; [apply Hc, surrogate_above; rewrite Hh; reflexivity|].
           constructor; [apply Hd, surrogate_above; rewrite Hl; apply orb_true_r|].
           apply IH; [cbn in Hn; cbn; lia|exact Hs''].
        -- apply Forall_app; split; [apply unicode_escape_units|exact Hrec].
    + destruct (is_low_surrogate c).
      * apply Forall_app; split; [apply unicode_escape_units|exact Hrec].
      * apply Forall_app; split; [apply quote_unit_units, Hc|exact Hrec].
Qed.

Lemma QuoteJSONString_units (s : text) :
  Forall (fun c => 32 <= c -> P c) s -> Forall P (QuoteJSONString s).
Proof.
  intros H. unfold QuoteJSONString. constructor; [apply P_ascii; lia|].
  apply Forall_app; split.
  - apply (quote_units_units (List.length s)); [apply le_n|exact H].
  - constructor; [apply P_ascii; lia|constructor].
Qed.

Lemma join_units (sep : text) (l : list text) :
  Forall P sep -> Forall (Forall P) l -> Forall P (join sep l).
Proof.
  intros Hsep. induction l as [|x [|y l] IH]; intros H.
  - constructor.
  - inversion H; assumption.
  - change (join sep (x :: y :: l)) with (x ++ sep ++ join sep (y :: l)).
    inversion H as [|? ? Hx Hrest]; subst.
    apply Forall_app; split; [exact Hx|].
    apply Forall_app; split; [exact Hsep|apply IH, Hrest].
Qed.

(** The units of the text of a document have the property when the
    units of its strings that are written as they are have it. *)
Lemma JSON_stringify_units (d : json) :
  Forall (Forall (fun c => 32 <= c -> P c)) (strings_of d) ->
  Forall P (JSON_stringify d).
Proof.
  induction d as [|b|z|s|l IH|m IH] using json_induction; intros H;
    cbn [JSON_stringify strings_of] in *.
  - apply lit_units; reflexivity.
  - destruct b; apply lit_units; reflexivity.
  - apply number_text_units.
  - inversion H; subst. apply QuoteJSONString_units; assumption.
  - constructor; [apply P_ascii; lia|]. apply Forall_app; split;
      [|constructor; [apply P_ascii; lia|constructor]].
    apply join_units; [constructor; [apply P_ascii; lia|constructor]|].
    rewrite Forall_forall in *. intros t Ht.
    apply in_map_iff in Ht as (d & <- & Hd). apply (IH d Hd).
    apply Forall_forall. intros s Hs. apply H. apply in_flat_map.
    exists d; split; assumption.
  - constructor; [apply P_ascii; lia|]. apply Forall_app; split;
      [|constructor; [apply P_ascii; lia|constructor]].
    apply join_units; [constructor; [apply P_ascii; lia|constructor]|].
    rewrite Forall_forall in *. intros t Ht.
    apply in_map_iff in Ht as ([k v] & <- & Hkv). cbn [fst snd].
    assert (Hk : Forall (Forall (fun c => 32 <= c -> P c)) (k :: strings_of v)).
    { apply Forall_forall. intros s Hs. apply H. apply in_flat_map.
      exists (k, v); split; assumption. }
    inversion Hk as [|? ? Hkk Hvv]; subst.
    apply Forall_app; split; [apply QuoteJSONString_units, Hkk|].
    constructor; [apply P_ascii; lia|]. apply (IH (k, v) Hkv), Hvv.
Qed.

End Units.

Lemma well_formed_json_strings (d : json) :
  well_formed_json d -> Forall well_formed (strings_of d).
Proof.
  induction d as [|b|z|s|l IH|m IH] using json_induction; intros H;
    cbn [strings_of]; try constructor; try exact H; try constructor.
  - apply well_formed_JArr in H. rewrite Forall_forall in *.
    intros s Hs. apply in_flat_map in Hs as (d & Hd & Hs).
    pose proof (IH d Hd (H d Hd)) as Hd'. rewrite Forall_forall in Hd'.
    apply Hd', Hs.
  - apply well_formed_JObj in H as (_ & _ & H). rewrite Forall_forall in *.
    intros s Hs. apply in_flat_map in Hs as ([k v] & Hkv & Hs).
    destruct (H _ Hkv) as [Hk Hv]. cbn [fst snd] in *.
    destruct Hs as [<-|Hs]; [exact Hk|].
    pose proof (IH _ Hkv Hv) as Hv'. rewrite Forall_forall in Hv'.
    apply Hv', Hs.
Qed.

(** The text of a document of the fragment is made of 16-bit units. *)
Lemma JSON_stringify_well_formed (d : json) :
  well_formed_json d -> well_formed (JSON_stringify d).
Proof.
  intros H. apply JSON_stringify_units.
  - intros c Hc. unfold is_char16. lia.
  - apply well_formed_json_strings in H.
    eapply Forall_impl; [|exact H]. intros s Hs.
    eapply Forall_impl; [|exact Hs]. intros c Hc _. exact Hc.
Qed.

(** The text of a document has no line terminator when its strings have
    no line separator: the line feed and the carriage return of a string
    are written as escapes. *)
Lemma JSON_stringify_no_line_terminator (d : json) :
  Forall no_line_separator (strings_of d) ->
  no_line_terminator (JSON_stringify d).
Proof.
  intros H. unfold no_line_terminator. apply forallb_forall.
  apply Forall_forall.
  apply (JSON_stringify_units (fun c => negb (is_line_terminator c) = true)).
  - intros c Hc. unfold is_line_terminator.
    destruct (N.eqb_spec c 10); [lia|]. destruct (N.eqb_spec c 13); [lia|].
    destruct (N.eqb_spec c 8232); [lia|]. destruct (N.eqb_spec c 8233); [lia|].
    reflexivity.
  - eapply Forall_impl; [|exact H]. intros s [H1 H2].
    apply Forall_forall. intros c Hc Hge. unfold is_line_terminator.
    destruct (N.eqb_spec c 10); [lia|]. destruct (N.eqb_spec c 13); [lia|].
    destruct (N.eqb_spec c 8232); [subst; contradiction|].
    destruct (N.eqb_spec c 8233); [subst; contradiction|].
    reflexivity.
Qed.

Section RoundTrip.

Variable T : text.

(** The round trip of [save] and [data], for the documents of the
    fragment whose strings and keys hold no U+2028 and no U+2029. *)
Theorem save_data_round_trip (d : json) (st : state) :
  no_stale_chunk T (world st) ->
  well_formed_json d ->
  Forall no_line_separator (strings_of d) ->
  fst (data (snd (save T d st))) = inl d.
Proof.
  intros Hst Hwf Hls.
  destruct (save_then_data T d st Hst (JSON_stringify_well_formed d Hwf))
    as [_ H].
  rewrite H, strip_plain by (apply JSON_stringify_no_line_terminator, Hls).
  rewrite JSON_parse_stringify by exact Hwf. reflexivity.
Qed.

End RoundTrip.

(** ** Members *)

Lemma strings_of_members (m : list (text * json)) (s : text) :
  In s (strings_of (JObj m)) <->
  exists kv, In kv m /\ (s = fst kv \/ In s (strings_of (snd kv))).
Proof.
  cbn [strings_of]. rewrite in_flat_map. split.
  - intros (kv & Hkv & [H|H]); exists kv; (split; [exact Hkv|]);
      [left; symmetry; exact H|right; exact H].
  - intros (kv & Hkv & [H|H]); exists kv; (split; [exact Hkv|]);
      [left; symmetry; exact H|right; exact H].
Qed.

Lemma put_strings (Q : text -> Prop) (k : text) (v : json) (m : list (text * json)) :
  Forall Q (strings_of (JObj m)) -> Q k -> Forall Q (strings_of v) ->
  Forall Q (strings_of (JObj (put k v m))).
Proof.
  intros Hm Hk Hv. rewrite Forall_forall in *. intros s Hs.
  apply strings_of_members in Hs as (kv & Hkv & Hs).
  apply put_in in Hkv as [->|Hkv]; cbn [fst snd] in *.
  - destruct Hs as [->|Hs]; [exact Hk|apply Hv, Hs].
  - apply Hm. apply strings_of_members. exists kv; split; assumption.
Qed.

Lemma put_well_formed (k : text) (v : json) (m : list (text * json)) :
  well_formed_json (JObj m) -> well_formed k -> well_formed_json v ->
  well_formed_json (JObj (put k v m)).
Proof.
  intros Hm Hk Hv. apply well_formed_JObj in Hm as (Hnd & Hord & Hm).
  apply well_formed_JObj. split; [apply put_NoDup, Hnd|].
  split; [apply put_in_order, Hord|].
  rewrite Forall_forall in *. intros kv Hkv.
  apply put_in in Hkv as [->|Hkv]; [split; assumption|apply Hm, Hkv].
Qed.

(** ** What JSON.parse answers for any text

    Whatever the text, the parser has calls enough, what it leaves is
    the end of what it was given, and the value it answers is a
    document of the fragment. *)






















Section Keys.

Variable T : text.

(** The key operations, for a document of the fragment without line
    separators: after [set(key, value)], [get(key)] is [value], unless
    the key is [__proto__], and [get] of every other key is what it
    was. *)
Theorem set_then_get (st : state) (m : list (text * json))
    (key : text) (value : json) :
  no_stale_chunk T (world st) ->
  data st = (inl (JObj m), st) ->
  well_formed_json (JObj m) ->
  Forall no_line_separator (strings_of (JObj m)) ->
  well_formed key -> no_line_separator key ->
  well_formed_json value -> Forall no_line_separator (strings_of value) ->
  (key <> lit "__proto__" ->
   fst (get key (snd (set T key value st))) = inl (Own value))
  /\ (forall k', k' <> key ->
        fst (get k' (snd (set T key value st))) = fst (get k' st)).
Proof.
  intros Hst Hd Hwm Hlm Hwk Hlk Hwv Hlv.
  assert (Hget : forall k st', fst (data st') = inl (JObj (put key value m)) ->
                 fst (get k st')
                 = get_property (JObj (put key value m)) k).
  { intros k st' H. unfold get, bind.
    destruct (data st') as [r st''] eqn:E. cbn [fst] in H. subst r. reflexivity. }
  assert (Hget0 : forall k, fst (get k st) = get_property (JObj m) k).
  { intros k. unfold get, bind. rewrite Hd. reflexivity. }
  assert (Hsave : fst (data (snd (save T (JObj (put key value m)) st)))
                  = inl (JObj (put key value m))).
  { apply save_data_round_trip; [exact Hst| |].
    - apply put_well_formed; assumption.
    - apply put_strings; assumption. }
  assert (Hsame : fst (data (snd (save T (JObj m) st))) = inl (JObj m)).
  { apply save_data_round_trip; assumption. }
  unfold set. erewrite bind_value by exact Hd. cbn [set_property].
  split.
  - intros Hproto. rewrite (text_eqb_neq _ _ Hproto). cbn [andb].
    unfold lift at 1. unfold bind at 1.
    rewrite (Hget key _ Hsave). cbn [get_property].
    rewrite lookup_put_same. reflexivity.
  - intros k' Hne. rewrite Hget0.
    destruct (text_eqb key (lit "__proto__") && negb (has_own key m));
      unfold lift at 1; unfold bind at 1.
    + unfold get, bind.
      destruct (data (snd (save T (JObj m) st))) as [r st''] eqn:E.
      cbn [fst] in Hsame. subst r. reflexivity.
    + rewrite (Hget k' _ Hsave). cbn [get_property].
      rewrite lookup_put_other by exact Hne. reflexivity.
Qed.

End Keys.

(** * The claims at concrete inputs *)

(** C1: the document [{"a": " "}] does not come back: [save] drops
    the line separator and [data] returns [{"a": ""}]. *)
Theorem save_drops_line_separator :
  fst (data (snd (save store_T doc_ls fresh))) = inl (JObj [(lit "a", JStr [])])
  /\ JObj [(lit "a", JStr [])] <> doc_ls.
Proof. split; [vm_compute; reflexivity|discriminate]. Qed.

(** C2: the split of ["a\nb"] drops the line feed, and its first piece
    is shorter than [maxLen] though it is not the last; the split of the
    empty text is [null], not an empty array. *)
Theorem chunkString_line_feed_and_empty :
  chunkString (lit "a" ++ [10] ++ lit "b") 5 = inl (Some [lit "a"; lit "b"])
  /\ List.concat [lit "a"; lit "b"] <> lit "a" ++ [10] ++ lit "b"
  /\ chunkString [] 5 = inl None.
Proof. repeat split; try reflexivity. discriminate. Qed.

(** C3: encoding the empty text and decoding the result gives one unit,
    U+0000, not the empty text. *)
Theorem decode_encode_empty :
  textToBinary [] = [] /\ binaryToText (textToBinary []) = [0].
Proof. split; reflexivity. Qed.

(** C4: [delete] answers [true] for a key the document does not have: on
    a fresh store, and the second time after the key was set once. *)
Theorem delete_absent_key_answers_true :
  fst (has (lit "a") fresh) = inl false
  /\ fst (delete store_T (lit "a") fresh) = inl true
  /\ let st1 := snd (set store_T (lit "a") (JNum 1) fresh) in
     let st2 := snd (delete store_T (lit "a") st1) in
     fst (has (lit "a") st1) = inl true
     /\ fst (delete store_T (lit "a") st1) = inl true
     /\ fst (has (lit "a") st2) = inl false
     /\ fst (delete store_T (lit "a") st2) = inl true.
Proof. vm_compute. repeat split. Qed.

(** C7: a chunk table dropped between a save and the next load does not
    always make the load read the empty object.  The store [T] saved
    [{"a":1}] and a store [DB_T] on the same scoreboard saved [{"u":7}];
    the scoreboard holds the tables [T], [DB_T_0], [DB_T] and [DB_DB_T_0].
    Something else removes the table [DB_T_0].  A [Database] named [T]
    constructed on what is left returns, and the expression of [fetch]
    for the chunk 0, whose lookbehind [DB_T_0(] is not tied to the start
    of a name, matches inside the entry name [DB_DB_T_0(...)] of the
    other store: the cache holds that store's chunk, and the getter
    [data] returns [{"u":7}], not [{}]. *)
Theorem dropped_chunk_reads_other_store :
  data saved = (inl doc_a, saved)
  /\ map objective_name two_stores
     = [store_T; chunk_table store_T 0; store_DB_T; chunk_table store_DB_T 0]
  /\ exists w2 st2,
       run (ObjectivesRemove (chunk_table store_T 0)) two_stores
       = Some (Done, w2)
       /\ map objective_name w2
          = [store_T; store_DB_T; chunk_table store_DB_T 0]
       /\ new_Database store_T w2 = (inl tt, st2)
       /\ MEMORY st2
          = [{| Chunk.index := 0;
                Chunk.data := textToBinary (JSON_stringify doc_u) |}]
       /\ data st2 = (inl doc_u, st2)
       /\ doc_u <> JObj [].
Proof.
  split; [vm_compute; reflexivity|].
  split; [vm_compute; reflexivity|].
  exists (drop_objective (chunk_table store_T 0) two_stores).
  exists (snd (new_Database store_T
                 (drop_objective (chunk_table store_T 0) two_stores))).
  split; [vm_compute; reflexivity|].
  split; [vm_compute; reflexivity|].
  split; [vm_compute; reflexivity|].
  split; [vm_compute; reflexivity|].
  split; [vm_compute; reflexivity|discriminate].
Qed.

(** C8: a document whose text has 32000 units, one of them a line
    separator, is saved as two chunks, and one of 32001 units as two
    chunks the second of which has 31994 units. *)
Theorem chunk_boundary_with_line_separator :
  units (JSON_stringify (long_doc 31991)) = 32000
  /\ piece_units
       (chunkString (JSON_stringify (long_doc 31991)) MAX_DATABASE_STRING_SIZE)
     = inl (Some [6; 31993])
  /\ map Chunk.index (MEMORY (snd (save store_T (long_doc 31991) fresh))) = [0; 1]
  /\ units (JSON_stringify (long_doc 31992)) = 32001
  /\ piece_units
       (chunkString (JSON_stringify (long_doc 31992)) MAX_DATABASE_STRING_SIZE)
     = inl (Some [6; 31994]).
Proof. repeat split; vm_compute; reflexivity. Qed.

(** C10: on a fresh store, after [set("k", 5)], the call
    [set(k2, 1)] with the other key [k2], the letter k followed by
    U+2028, changes what [get("k")] returns from [5] to [1]: the line
    separator is dropped from the saved text and the two keys become
    one. *)
Theorem set_changes_other_key :
  let k := lit "k" in
  let k2 := lit "k" ++ [8232] in
  let st := snd (set store_T k (JNum 5) fresh) in
  k2 <> k
  /\ fst (data st) = inl (JObj [(k, JNum 5)])
  /\ fst (get k st) = inl (Own (JNum 5))
  /\ fst (get k (snd (set store_T k2 (JNum 1) st))) = inl (Own (JNum 1)).
Proof. vm_compute. repeat split. discriminate. Qed.

(** The same happens to a document that was written with a line
    separator by something else: [set("b", 1)] changes [get("a")]. *)
Lemma set_changes_key_written_elsewhere :
  let st := snd (new_Database store_T written_elsewhere) in
  fst (data st) = inl doc_ls
  /\ fst (get (lit "a") st) = inl (Own (JStr [8232]))
  /\ fst (get (lit "a") (snd (set store_T (lit "b") (JNum 1) st)))
     = inl (Own (JStr [])).
Proof. vm_compute. repeat split. Qed.

(** The getter [data] reads the cache only: what happens to the
    scoreboard does not reach an object that is not constructed anew. *)
Lemma data_reads_cache_only (m : list Chunk.t) (w w' : scoreboard) :
  fst (data {| MEMORY := m; world := w |})
  = fst (data {| MEMORY := m; world := w' |}).
Proof. rewrite !data_returns. reflexivity. Qed.

(** ** Witnesses *)

Lemma store_T_plain : plain_name store_T.
Proof. reflexivity. Qed.

Lemma fresh_no_stale : no_stale_chunk store_T (world fresh).
Proof.
  apply no_stale_chunk_fresh. intros j.
  change (world fresh)
    with [{| objective_name := store_T; scores := [(lit "DB_SAVE", 0%Z)] |}].
  cbn [has_objective existsb objective_name].
  rewrite text_eqb_sym, (text_eqb_neq _ _ (chunk_table_not_table store_T j)).
  reflexivity.
Defined.

Lemma fresh_well_kept : well_kept store_T (world fresh).
Proof.
  intros o q H. left.
  change (players (world fresh)) with [(store_T, lit "DB_SAVE")] in H.
  destruct H as [H|[]]. injection H as _ <-.
  cbn. intuition discriminate.
Defined.

Lemma dropped_chunk_reads_empty_witness :
  exists st2,
    new_Database store_T
      (drop_objective (chunk_table store_T 0)
         (world (snd (save store_T (JObj [(lit "a", JNum 1)]) fresh))))
    = (inl tt, st2)
    /\ MEMORY st2 = [{| Chunk.index := 0; Chunk.data := fallback_data |}]
    /\ data st2 = (inl (JObj []), st2).
Proof.
  apply (dropped_chunk_reads_empty store_T store_T_plain fresh
           (JObj [(lit "a", JNum 1)]) 0).
  - exact fresh_well_kept.
  - exact fresh_no_stale.
  - vm_compute. reflexivity.
Defined.

Lemma save_restores_chunk_range_witness :
  exists n st', clear store_T fresh = (inl tt, st')
                /\ chunk_range store_T n (world st').
Proof.
  exact (proj1 (proj2 (save_restores_chunk_range store_T fresh fresh_no_stale))).
Defined.

(** * What holds beyond the claims *)

Lemma doc_a_well_formed : well_formed_json (JObj [(lit "a", JNum 1)]).
Proof.
  apply well_formed_JObj. split; [|split].
  - constructor; [intros []|constructor].
  - reflexivity.
  - constructor; [|constructor]. split; [repeat constructor|reflexivity].
Defined.

Lemma doc_a_no_line_separator :
  Forall no_line_separator (strings_of (JObj [(lit "a", JNum 1)])).
Proof.
  constructor; [|constructor].
  split; intros [H|[]]; discriminate.
Defined.




(** Decoding undoes encoding on every text of 16-bit units but the empty
    one. *)
Theorem codec_inverse_nonempty (s : text) :
  well_formed s -> s <> [] -> binaryToText (textToBinary s) = s.
Proof. apply binaryToText_textToBinary. Qed.

Lemma codec_inverse_nonempty_witness :
  binaryToText (textToBinary (lit "{}")) = lit "{}".
Proof.
  apply (codec_inverse_nonempty (lit "{}")); [|discriminate].
  repeat constructor.
Defined.

Lemma chunk_boundary_plain_witness :
  chunkString (repeat 120 (N.to_nat 32000)) MAX_DATABASE_STRING_SIZE
  = inl (Some [repeat 120 (N.to_nat 32000)]).
Proof.
  apply (proj1 (chunk_boundary_plain (repeat 120 (N.to_nat 32000)) eq_refl)).
  vm_compute. reflexivity.
Defined.

(** [wipe] always returns: its loop ends; the cache is emptied, the
    chunk-count record is [0], the only chunk tables left are those above
    the bound it read, and the only entry it adds is [DB_SAVE]. *)
Theorem wipe_terminates (T : text) (st : state) :
  exists w',
    wipe T st = (inl tt, {| MEMORY := []; world := w' |})
    /\ scores_in T w' = Some [(lit "DB_SAVE", 0%Z)]
    /\ (forall j, has_objective (chunk_table T j) w' = true ->
                  has_objective (chunk_table T j) (world st) = true
                  /\ (bound T (world st) < Z.of_N j)%Z)
    /\ (forall o p, In (o, p) (players w') ->
                    In (o, p) (players (world st))
                    \/ (o = T /\ p = lit "DB_SAVE")).
Proof. apply wipe_returns. Qed.

(** After [save], the cache decodes to the text of the document without
    its line terminators, and [data] is what [JSON.parse] makes of that
    text, with the [SyntaxError] it throws turned into the empty
    object. *)
Theorem save_then_cached_text (T : text) (d : json) (st : state) :
  no_stale_chunk T (world st) ->
  well_formed (JSON_stringify d) ->
  cached_text (snd (save T d st)) = strip_line_terminators (JSON_stringify d)
  /\ fst (data (snd (save T d st)))
     = caught (JSON_parse (strip_line_terminators (JSON_stringify d))).
Proof. apply save_then_data. Qed.

Lemma save_then_cached_text_witness :
  cached_text (snd (save store_T doc_ls fresh))
  = strip_line_terminators (JSON_stringify doc_ls)
  /\ fst (data (snd (save store_T doc_ls fresh)))
     = caught (JSON_parse (strip_line_terminators (JSON_stringify doc_ls))).
Proof.
  apply (save_then_cached_text store_T doc_ls fresh fresh_no_stale).
  repeat constructor.
Defined.

(** The round trip of [save] and [data]: a document of the fragment
    whose strings and keys hold no U+2028 and no U+2029 is read back as
    it was saved. *)
Theorem save_load_round_trip (T : text) (d : json) (st : state) :
  no_stale_chunk T (world st) ->
  well_formed_json d ->
  Forall no_line_separator (strings_of d) ->
  fst (data (snd (save T d st))) = inl d.
Proof. apply save_data_round_trip. Qed.

Lemma save_load_round_trip_witness :
  fst (data (snd (save store_T (JObj [(lit "a", JNum 1)]) fresh)))
  = inl (JObj [(lit "a", JNum 1)]).
Proof.
  exact (save_load_round_trip store_T (JObj [(lit "a", JNum 1)]) fresh
           fresh_no_stale doc_a_well_formed doc_a_no_line_separator).
Defined.

Lemma set_then_get_witness :
  fst (get (lit "a") (snd (set store_T (lit "a") (JNum 1) fresh)))
  = inl (Own (JNum 1)).
Proof.
  refine (proj1 (set_then_get store_T fresh [] (lit "a") (JNum 1)
                   fresh_no_stale eq_refl _ _ _ _ _ _) _).
  - split; [constructor|split; [reflexivity|exact I]].
  - constructor.
  - repeat constructor.
  - split; intros [H|[]]; discriminate.
  - reflexivity.
  - constructor.
  - discriminate.
Defined.

(** * Loading what a save left *)

(** ** Entries that stay *)

Lemma players_cons (x : objective) (w : scoreboard) :
  players (x :: w)
  = map (fun e => (objective_name x, fst e)) (scores x) ++ players w.
Proof. reflexivity. Qed.

Lemma players_has (o q : text) (w : scoreboard) :
  In (o, q) (players w) -> has_objective o w = true.
Proof.
  induction w as [|x w IH]; [intros []|]. rewrite players_cons.
  cbn [has_objective existsb]. intros H. apply in_app_or in H as [H|H].
  - apply in_map_iff in H as (e & He & _). injection He as Ho _.
    rewrite Ho, text_eqb_refl. reflexivity.
  - apply IH in H. unfold has_objective in H. rewrite H. apply orb_true_r.
Qed.

Lemma players_tracked (q : text) (w : scoreboard) :
  In q (tracked_players w) <-> exists o, In (o, q) (players w).
Proof.
  split; [apply tracked_players_in|]. intros [o H].
  unfold tracked_players. rewrite nodup_In.
  unfold players in H. apply in_flat_map in H as (x & Hx & H).
  apply in_map_iff in H as (e & He & Hin). injection He as _ Hq.
  apply in_flat_map. exists x. split; [exact Hx|].
  rewrite <- Hq. apply in_map, Hin.
Qed.

Lemma with_scores_keeps (m o p : text) (l l' : list (text * Z)) (w : scoreboard) :
  scores_in m w = Some l ->
  (forall q, In q (map fst l) -> In q (map fst l')) ->
  In (o, p) (players w) -> In (o, p) (players (with_scores m l' w)).
Proof.
  intros Hs Hsub. induction w as [|x w IH]; [intros []|].
  cbn [with_scores scores_in] in *. rewrite players_cons.
  destruct (text_eqb (objective_name x) m) eqn:Em.
  - injection Hs as <-. apply text_eqb_eq in Em.
    rewrite players_cons. cbn [objective_name scores].
    intros H. apply in_or_app. apply in_app_or in H as [H|H]; [left|right; exact H].
    apply in_map_iff in H as (e & He & Hin). injection He as <- <-.
    assert (Hq : In (fst e) (map fst l')) by (apply Hsub, in_map, Hin).
    apply in_map_iff in Hq as (e' & He' & Hin').
    apply in_map_iff. exists e'. rewrite He', Em. split; [reflexivity|exact Hin'].
  - rewrite players_cons. intros H. apply in_or_app.
    apply in_app_or in H as [H|H]; [left; exact H|right]. apply IH; assumption.
Qed.

Lemma with_scores_adds (m q : text) (l l' : list (text * Z)) (w : scoreboard) :
  scores_in m w = Some l -> In q (map fst l') ->
  In (m, q) (players (with_scores m l' w)).
Proof.
  intros Hs Hq. induction w as [|x w IH]; [discriminate|].
  cbn [with_scores scores_in] in *.
  destruct (text_eqb (objective_name x) m) eqn:Em.
  - rewrite players_cons. cbn [objective_name scores]. apply in_or_app; left.
    apply in_map_iff in Hq as (e & He & Hin). apply in_map_iff.
    exists e. rewrite He. split; [reflexivity|exact Hin].
  - rewrite players_cons. apply in_or_app; right. apply IH, Hs.
Qed.

Lemma set_score_in (p : text) (z : Z) (l : list (text * Z)) :
  In p (map fst (set_score p z l)).
Proof.
  induction l as [|[r y] l IH]; cbn [set_score map fst In]; [left; reflexivity|].
  destruct (text_eqb r p) eqn:E; cbn [map fst In].
  - left. apply text_eqb_eq, E.
  - right; exact IH.
Qed.

Lemma set_score_keeps (p q : text) (z : Z) (l : list (text * Z)) :
  In q (map fst l) -> In q (map fst (set_score p z l)).
Proof.
  induction l as [|[r y] l IH]; [intros []|]. cbn [set_score map fst In].
  destruct (text_eqb r p) eqn:E; cbn [map fst In]; [tauto|].
  intros [H|H]; [left; exact H|right; apply IH, H].
Qed.

Lemma exec_set_keeps (q m o p : text) (z : Z) (w : scoreboard) :
  In (o, p) (players w) -> In (o, p) (players (exec (PlayersSet q m z) w)).
Proof.
  unfold exec; cbn [run]. destruct (scores_in m w) as [l|] eqn:E; [|tauto].
  destruct (fits q); [|tauto].
  apply (with_scores_keeps m o p l); [exact E|]. intros r. apply set_score_keeps.
Qed.

(** An entry whose name is within the bound is written. *)
Lemma exec_set_adds (q m : text) (z : Z) (w : scoreboard) :
  fits q = true ->
  has_objective m w = true -> In (m, q) (players (exec (PlayersSet q m z) w)).
Proof.
  intros Hq. rewrite scores_in_has. unfold exec; cbn [run]. rewrite Hq.
  destruct (scores_in m w) as [l|] eqn:E; [|discriminate]. intros _.
  apply (with_scores_adds m q l); [exact E|]. apply set_score_in.
Qed.

Lemma exec_add_keeps (m o p : text) (w : scoreboard) :
  In (o, p) (players w) -> In (o, p) (players (exec (ObjectivesAdd m) w)).
Proof.
  unfold exec; cbn [run]. destruct (has_objective m w); [tauto|].
  rewrite players_app. intros H. apply in_or_app; left; exact H.
Qed.

(** ** A constructor on a store that is built *)

Lemma set_score_same (p : text) (z : Z) (l : list (text * Z)) :
  score_of p l = Some z -> set_score p z l = l.
Proof.
  induction l as [|[r y] l IH]; [discriminate|]. cbn [score_of set_score].
  destruct (text_eqb r p) eqn:E.
  - intros H; injection H as ->. reflexivity.
  - intros H. rewrite IH by exact H. reflexivity.
Qed.

Lemma with_scores_same (m : text) (l : list (text * Z)) (w : scoreboard) :
  scores_in m w = Some l -> with_scores m l w = w.
Proof.
  induction w as [|x w IH]; [reflexivity|]. cbn [scores_in with_scores].
  destruct (text_eqb (objective_name x) m) eqn:E.
  - intros H; injection H as <-. apply text_eqb_eq in E. rewrite <- E.
    destruct x; reflexivity.
  - intros H. rewrite IH by exact H. reflexivity.
Qed.

(** [build] changes nothing on a scoreboard that has the table and its
    chunk-count record. *)
Lemma build_built (T : text) (z : Z) (st : state) :
  count_record T (world st) = Some z -> build T st = (inl tt, st).
Proof.
  intros H. rewrite build_exec. unfold count_record in H.
  destruct (scores_in T (world st)) as [l|] eqn:E; [|discriminate].
  assert (E1 : exec (ObjectivesAdd T) (world st) = world st).
  { unfold exec; cbn [run]. rewrite scores_in_has, E. reflexivity. }
  rewrite E1. unfold exec; cbn [run]. rewrite E, H, Z.add_0_r.
  rewrite set_score_same by exact H. rewrite with_scores_same by exact E.
  rewrite state_eta. reflexivity.
Qed.

(** ** The expression of fetch where the entry is listed *)

Lemma strip_prefix_same (p r : text) : strip_prefix p (p ++ r) = Some r.
Proof.
  induction p as [|a p IH]; [reflexivity|]. cbn [app strip_prefix].
  rewrite N.eqb_refl. exact IH.
Qed.

Lemma take_payload_run (data tail : text) :
  forallb is_payload_unit data = true ->
  take_payload (data ++ 41 :: tail) = (data, 41 :: tail).
Proof.
  induction data as [|c data IH]; intros H.
  - reflexivity.
  - cbn [forallb] in H. apply andb_true_iff in H as [Hc H].
    cbn [app take_payload]. rewrite Hc, (IH H). reflexivity.
Qed.

Lemma regex_match_some (name data tail : text) (pre : text) :
  data <> [] -> forallb is_payload_unit data = true ->
  regex_match name (pre ++ name ++ 40 :: data ++ 41 :: tail) <> None.
Proof.
  intros Hne Hp. induction pre as [|c pre IH].
  - cbn [app]. destruct (name ++ 40 :: data ++ 41 :: tail) as [|c0 s0] eqn:Es.
    + destruct name; discriminate.
    + cbn [regex_match]. rewrite <- Es.
      replace (name ++ 40 :: data ++ 41 :: tail)
        with ((name ++ [40]) ++ data ++ 41 :: tail)
        by (rewrite <- app_assoc; reflexivity).
      rewrite strip_prefix_same, take_payload_run by exact Hp.
      destruct data as [|d data']; [congruence|]. discriminate.
  - cbn [app regex_match].
    destruct (strip_prefix (name ++ [40]) (c :: pre ++ name ++ 40 :: data ++ 41 :: tail))
      as [r|]; [|exact IH].
    destruct (take_payload r) as [[|c1 p1] [|d1 r1]]; try exact IH.
    destruct (d1 =? 41); [discriminate|exact IH].
Qed.

(** A match is a run of payload units between [name(] and a closing
    parenthesis. *)
Lemma regex_match_payload (name s x : text) :
  regex_match name s = Some x ->
  exists pre suf rest,
    s = pre ++ name ++ 40 :: suf /\ take_payload suf = (x, 41 :: rest).
Proof.
  induction s as [|c s IH]; [discriminate|]. cbn [regex_match].
  assert (Hrec : regex_match name s = Some x ->
                 exists pre suf rest,
                   c :: s = pre ++ name ++ 40 :: suf
                   /\ take_payload suf = (x, 41 :: rest)).
  { intros H. destruct (IH H) as (pre & suf & rest & -> & Ht).
    exists (c :: pre), suf, rest; split; [reflexivity|exact Ht]. }
  destruct (strip_prefix (name ++ [40]) (c :: s)) as [r|] eqn:E; [|exact Hrec].
  destruct (take_payload r) as [[|c1 p1] [|d1 r1]] eqn:Et; try exact Hrec.
  destruct (N.eqb_spec d1 41) as [->|]; [|exact Hrec].
  intros H; injection H as <-. apply strip_prefix_app in E.
  exists [], r, r1. split; [|exact Et].
  rewrite E, <- app_assoc. reflexivity.
Qed.

Lemma join_in (sep q : text) (names : list text) :
  In q names -> exists pre tail, join sep names = pre ++ q ++ tail.
Proof.
  induction names as [|p [|p' rest] IH]; [intros []| |].
  - intros [->|[]]. exists [], []. cbn [join app]. rewrite app_nil_r; reflexivity.
  - intros [->|H].
    + exists [], (sep ++ join sep (p' :: rest)). reflexivity.
    + destruct (IH H) as (pre & tail & E).
      exists (p ++ sep ++ pre), tail.
      change (join sep (p :: p' :: rest)) with (p ++ sep ++ join sep (p' :: rest)).
      rewrite E, <- !app_assoc. reflexivity.
Qed.

(** An opening parenthesis of a listing lies in one of its names. *)
Lemma parenthesis_in_names (names : list text) :
  forall x suf, join (lit ", ") names = x ++ 40 :: suf ->
  exists q lead pre a2 tail,
    In q names /\ q = pre ++ 40 :: a2 /\ x = lead ++ pre /\ suf = a2 ++ tail.
Proof.
  induction names as [|p rest IH]; intros x suf H.
  - destruct x; discriminate.
  - assert (Hjoin : exists r, join (lit ", ") (p :: rest) = p ++ r
                              /\ (r = [] \/ r = 44 :: 32 :: join (lit ", ") rest)).
    { destruct rest as [|q rest'].
      - exists []; split; [cbn [join]; rewrite app_nil_r; reflexivity|left; reflexivity].
      - eexists; split; [reflexivity|right; reflexivity]. }
    destruct Hjoin as (r & Ej & Hr). rewrite Ej in H.
    pose proof H as H0.
    apply app_split_cases in H as [[a2 Hp2]|(x2 & -> & Hr2)].
    + exists p, [], x, a2, r. split; [left; reflexivity|].
      split; [exact Hp2|]. split; [reflexivity|].
      rewrite Hp2, <- app_assoc in H0. apply app_inv_head in H0.
      cbn [app] in H0. injection H0 as <-. reflexivity.
    + destruct Hr as [-> | ->]; [destruct x2; discriminate|].
      destruct x2 as [|c1 [|c2 x3]]; cbn [app] in Hr2; try discriminate.
      injection Hr2 as <- <- Hr2.
      destruct (IH x3 suf Hr2) as (q & lead & pre & a2 & tail & Hq & Eq & Ex & Es).
      exists q, (p ++ 44 :: 32 :: lead), pre, a2, tail.
      split; [right; exact Hq|]. split; [exact Eq|]. split; [|exact Es].
      rewrite Ex, <- app_assoc. reflexivity.
Qed.

(** ** What textToBinary writes *)

Lemma toString2_payload (c : N) :
  forallb is_payload_unit (toString2 (Int (Z.of_N c))) = true.
Proof.
  destruct c as [|p]; [reflexivity|].
  change (Z.of_N (N.pos p)) with (Z.pos p). cbn [toString2].
  pose proof (bits_of_positive_binary p [] (Forall_nil _)) as Hb.
  apply forallb_forall. rewrite Forall_forall in Hb.
  intros x Hx. destruct (Hb _ Hx) as [-> | ->]; reflexivity.
Qed.

Lemma toString2_nonempty (c : N) : toString2 (Int (Z.of_N c)) <> [].
Proof.
  destruct c as [|p]; [discriminate|].
  change (Z.of_N (N.pos p)) with (Z.pos p). cbn [toString2].
  destruct (bits_of_positive_head p []) as [tl ->]. discriminate.
Qed.

Lemma textToBinary_cons (c : char16) (s : text) :
  textToBinary (c :: s)
  = toString2 (Int (Z.of_N c))
      ++ match s with [] => [] | _ :: _ => 32 :: textToBinary s end.
Proof.
  unfold textToBinary, split_units. destruct s as [|d s].
  - cbn [map join charCodeAt0]. rewrite app_nil_r. reflexivity.
  - reflexivity.
Qed.

Lemma textToBinary_payload (s : text) :
  forallb is_payload_unit (textToBinary s) = true.
Proof.
  induction s as [|c s IH]; [reflexivity|].
  rewrite textToBinary_cons, forallb_app, toString2_payload.
  destruct s; [reflexivity|]. cbn [forallb andb]. exact IH.
Qed.

Lemma textToBinary_nonempty (s : text) : s <> [] -> textToBinary s <> [].
Proof.
  destruct s as [|c s]; [congruence|]. intros _ H.
  rewrite textToBinary_cons in H. apply app_eq_nil in H as [H _].
  revert H. apply toString2_nonempty.
Qed.

Section Load.

Variable T : text.

Hypothesis T_plain : plain_name T.

Lemma entry_name_split (i : N) (data pre a2 : text) :
  ~ In 40 data ->
  entry_name T i data = pre ++ 40 :: a2 ->
  pre = chunk_table T i /\ a2 = data ++ [41].
Proof.
  intros Hd H. unfold entry_name in H. cbn [app] in H.
  assert (Hpre : chunk_table T i = pre).
  { apply (unique_occurrence 40 _ _ _ _ H).
    - apply chunk_table_no_parenthesis, T_plain.
    - intros Hin. apply in_app_or in Hin as [Hin|[Hin|[]]];
        [contradiction|discriminate]. }
  subst pre. apply app_inv_head in H. injection H as <-.
  split; reflexivity.
Qed.

Lemma payload_no_parenthesis (data : text) :
  forallb is_payload_unit data = true -> ~ In 40 data.
Proof.
  intros H Hin. rewrite forallb_forall in H. apply H in Hin. discriminate.
Qed.

(** The expression for the chunk [j] finds the data of its entry in a
    listing whose other names are harmless. *)
Lemma regex_match_entry (j : N) (data : text) (names : list text) :
  data <> [] -> forallb is_payload_unit data = true ->
  In (entry_name T j data) names ->
  (forall q, In q names -> q = entry_name T j data \/ harmless T j q) ->
  regex_match (chunk_table T j) (join (lit ", ") names) = Some data.
Proof.
  intros Hne Hp Hin Hall.
  destruct (regex_match (chunk_table T j) (join (lit ", ") names)) as [x|] eqn:E.
  - f_equal.
    apply regex_match_payload in E as (pre' & suf & rest & Es & Et).
    rewrite app_assoc in Es.
    apply parenthesis_in_names in Es
      as (q & lead & pre & a2 & tail & Hq & Eq & Ex & Esuf).
    assert (Hsame : forall i d, ~ In 40 d -> q = entry_name T i d ->
                                i = j /\ a2 = d ++ [41]).
    { intros i d Hd Hqd. rewrite Hqd in Eq.
      apply entry_name_split in Eq as [-> ->]; [|exact Hd].
      split; [|reflexivity].
      eapply ends_with_index_inj.
      - apply (ends_with_index_app i lead), chunk_table_ends.
      - rewrite <- Ex. apply ends_with_index_app, chunk_table_ends. }
    destruct (Hall q Hq) as [Hqe|[Hno|(i & chunk & Hij & Hqe)]].
    + destruct (Hsame j data (payload_no_parenthesis _ Hp) Hqe) as [_ ->].
      rewrite Esuf, <- app_assoc in Et. cbn [app] in Et.
      rewrite take_payload_run in Et by exact Hp. congruence.
    + exfalso. apply Hno. rewrite Eq. apply in_or_app; right; left; reflexivity.
    + exfalso. apply Hij.
      apply (Hsame i (textToBinary chunk)
               (payload_no_parenthesis _ (textToBinary_payload chunk)) Hqe).
  - exfalso. destruct (join_in (lit ", ") _ _ Hin) as (pre & tail & Ej).
    rewrite Ej in E. unfold entry_name in E. rewrite <- !app_assoc in E.
    cbn [app] in E. revert E. apply regex_match_some; assumption.
Qed.

(** ** The loop of fetch on a saved store *)

Lemma fetch_loop_reads (chunks : list text) :
  forall (fuel : nat) (i : N) (st : state),
  bound T (world st) = (Z.of_N i + Z.of_nat (List.length chunks) - 1)%Z ->
  (forall k chunk, nth_error chunks k = Some chunk ->
     regex_match (chunk_table T (i + N.of_nat k)) (players_list (world st))
     = Some (textToBinary chunk)) ->
  (List.length chunks < fuel)%nat ->
  for_SAVE_NAMES T fuel i (fetch_round T) st
  = (inl tt, {| MEMORY := MEMORY st ++ encode_chunks i chunks;
                world := world st |}).
Proof.
  induction chunks as [|chunk rest IH]; intros fuel i st Hb Hfind Hfuel;
    (destruct fuel as [|fuel]; [cbn [List.length] in Hfuel; lia|]);
    cbn [for_SAVE_NAMES]; erewrite bind_value by apply SAVE_NAMES_bound.
  - cbn [List.length] in Hb.
    destruct (Z.leb_spec (Z.of_N i) (bound T (world st))) as [Hle|Hgt]; [lia|].
    cbn [encode_chunks]. rewrite app_nil_r, state_eta. reflexivity.
  - cbn [List.length] in Hb, Hfuel.
    destruct (Z.leb_spec (Z.of_N i) (bound T (world st))) as [Hle|Hgt]; [|lia].
    unfold bind at 1. rewrite fetch_round_returns.
    pose proof (Hfind 0%nat chunk eq_refl) as H0.
    rewrite N.add_0_r in H0. rewrite H0.
    rewrite IH; cbn [MEMORY world].
    + cbn [encode_chunks]. rewrite <- app_assoc. reflexivity.
    + rewrite Hb. lia.
    + intros k c Hk. specialize (Hfind (S k) c Hk).
      rewrite <- Hfind. f_equal. f_equal. lia.
    + lia.
Qed.

(** ** What the loop of save leaves on the scoreboard *)

Lemma save_chunks_entries (chunks : list text) :
  forall (index : N) (st : state),
  has_objective T (world st) = true ->
  exists w',
    save_chunks T index chunks st
    = (inl tt, {| MEMORY := MEMORY st ++ encode_chunks index chunks;
                  world := w' |})
    /\ (forall o q, In (o, q) (players (world st)) -> In (o, q) (players w'))
    /\ (forall o q, In (o, q) (players w') ->
          In (o, q) (players (world st))
          \/ (o = T /\ q = DB_SAVE)
          \/ exists k chunk,
               nth_error chunks k = Some chunk
               /\ o = chunk_table T (index + N.of_nat k)
               /\ q = entry_name T (index + N.of_nat k) (textToBinary chunk))
    /\ (forall k chunk, nth_error chunks k = Some chunk ->
          fits (entry_name T (index + N.of_nat k) (textToBinary chunk)) = true ->
          In (chunk_table T (index + N.of_nat k),
              entry_name T (index + N.of_nat k) (textToBinary chunk))
             (players w')).
Proof.
  induction chunks as [|chunk rest IH]; intros index st HT.
  - exists (world st). cbn [save_chunks encode_chunks]. unfold ret.
    rewrite app_nil_r, state_eta. split; [reflexivity|].
    split; [tauto|]. split; [tauto|]. intros [|k] c H; discriminate.
  - cbn [save_chunks encode_chunks].
    erewrite bind_value by (apply set_SAVE_NAMES_exec; exact HT).
    set (w1 := exec (PlayersSet DB_SAVE T (Z.of_N index)) (world st)).
    unfold push at 1. unfold bind at 1. cbn [MEMORY world].
    erewrite bind_value by apply runCommand_exec. cbn [MEMORY world].
    set (w2 := exec (ObjectivesAdd (chunk_table T index)) w1).
    erewrite bind_value by apply runCommand_exec. cbn [MEMORY world].
    set (data := textToBinary chunk).
    set (w3 := exec (PlayersSet (entry_name T index data) (chunk_table T index) 0) w2).
    assert (HT3 : has_objective T w3 = true).
    { unfold w3. rewrite exec_set_has. unfold w2. rewrite exec_add_has.
      unfold w1. rewrite exec_set_has, HT. reflexivity. }
    assert (Hkeep : forall o q, In (o, q) (players (world st)) ->
                                In (o, q) (players w3)).
    { intros o q H. apply exec_set_keeps, exec_add_keeps, exec_set_keeps, H. }
    assert (Hnew : fits (entry_name T index data) = true ->
                   In (chunk_table T index, entry_name T index data) (players w3)).
    { intros Hfit. apply exec_set_adds; [exact Hfit|]. unfold w2.
      rewrite exec_add_has, text_eqb_refl. apply orb_true_r. }
    destruct (IH (N.succ index)
                {| MEMORY := MEMORY st
                     ++ [{| Chunk.index := index; Chunk.data := data |}];
                   world := w3 |} HT3)
      as (w' & E & Hk' & Hin' & Hnew').
    exists w'. cbn [MEMORY world] in *. rewrite <- app_assoc in E.
    split; [exact E|]. split; [|split].
    + intros o q H. apply Hk', Hkeep, H.
    + intros o q H. apply Hin' in H as [H|[H|(k & c & Hk & -> & ->)]].
      * unfold w3 in H. apply exec_set_players in H as [H|[-> ->]].
        -- unfold w2 in H. apply exec_add_players in H. unfold w1 in H.
           apply exec_set_players in H as [H|H]; [left; exact H|].
           right; left; exact H.
        -- right; right. exists 0%nat, chunk. rewrite N.add_0_r.
           repeat split; reflexivity.
      * right; left; exact H.
      * right; right. exists (S k), c.
        replace (index + N.of_nat (S k)) with (N.succ index + N.of_nat k) by lia.
        split; [exact Hk|split; reflexivity].
    + intros [|k] c Hk.
      * injection Hk as <-. rewrite N.add_0_r. intros Hfit. apply Hk', Hnew, Hfit.
      * replace (index + N.of_nat (S k)) with (N.succ index + N.of_nat k) by lia.
        apply Hnew', Hk.
Qed.

End Load.

Lemma DB_SAVE_no_parenthesis : ~ In 40 DB_SAVE.
Proof. cbn. intuition discriminate. Qed.

(** A [Database] constructed on the scoreboard that a save left is in the
    state of the store that saved: the same cache, the scoreboard as it
    was. *)
Lemma encode_chunks_nth (chunks : list text) :
  forall (i : N) (k : nat) (chunk : text),
  nth_error chunks k = Some chunk ->
  nth_error (encode_chunks i chunks) k
  = Some {| Chunk.index := i + N.of_nat k; Chunk.data := textToBinary chunk |}.
Proof.
  induction chunks as [|c chunks IH]; intros i [|k] chunk H; try discriminate.
  - injection H as <-. cbn [encode_chunks nth_error]. rewrite N.add_0_r. reflexivity.
  - cbn [encode_chunks nth_error]. rewrite (IH (N.succ i) k chunk H).
    do 2 f_equal. lia.
Qed.

Lemma names_fit_nth (T : text) (s : text) (chunks : list text)
    (k : nat) (chunk : text) :
  names_fit T s = true ->
  chunkString s MAX_DATABASE_STRING_SIZE = inl (Some chunks) ->
  nth_error chunks k = Some chunk ->
  fits (entry_name T (0 + N.of_nat k) (textToBinary chunk)) = true.
Proof.
  unfold names_fit. intros H E Hk. rewrite E in H.
  rewrite forallb_forall in H.
  apply (H {| Chunk.index := 0 + N.of_nat k; Chunk.data := textToBinary chunk |}).
  eapply nth_error_In. apply encode_chunks_nth, Hk.
Qed.

Lemma new_Database_after_save (T : text) (st : state) (d : json) :
  plain_name T -> well_kept T (world st) -> no_stale_chunk T (world st) ->
  names_fit T (JSON_stringify d) = true ->
  exists st1,
    save T d st = (inl tt, st1) /\ new_Database T (world st1) = (inl tt, st1).
Proof.
  intros T_plain Hkept Hstale Hfit.
  destruct (chunkString_document d)
    as (p & l & Esplit).
  destruct (save_text_returns T _ _ _ st Esplit Hstale)
    as (w1 & Es & [Hcount Hrange] & _).
  exists {| MEMORY := encode_chunks 0 (p :: l); world := w1 |}.
  split; [exact Es|]. cbn [world].
  (* the scoreboard, entry by entry *)
  unfold save_text in Es. rewrite Esplit in Es.
  unfold lift at 1 in Es. unfold bind at 1 in Es.
  destruct (wipe_returns T st) as (w0 & Ew & Hsc & Hgone & Hpl0).
  erewrite bind_value in Es by exact Ew.
  destruct (save_chunks_entries T (p :: l) 0 {| MEMORY := []; world := w0 |})
    as (w' & E & _ & Hin & Hnew).
  { cbn [world]. rewrite scores_in_has, Hsc. reflexivity. }
  rewrite E in Es. cbn [MEMORY app] in Es. injection Es as <-.
  cbn [world] in *.
  pose proof (fun k chunk => names_fit_nth T _ _ k chunk Hfit Esplit) as Hfits.
  apply chunkString_pieces in Esplit as [_ Hpieces];
    [|unfold MAX_DATABASE_STRING_SIZE; lia].
  assert (Hb : bound T w' = Z.of_nat (List.length l)).
  { unfold bound. rewrite Hcount. lia. }
  assert (Hfind : forall k chunk, nth_error (p :: l) k = Some chunk ->
            regex_match (chunk_table T (0 + N.of_nat k)) (players_list w')
            = Some (textToBinary chunk)).
  { intros k chunk Hk. apply (regex_match_entry T T_plain).
    - apply textToBinary_nonempty. apply nth_error_In in Hk.
      rewrite Forall_forall in Hpieces. apply (Hpieces _ Hk).
    - apply textToBinary_payload.
    - apply players_tracked. eexists. apply Hnew; [exact Hk|apply Hfits, Hk].
    - intros q Hq. apply players_tracked in Hq as [o Hq].
      destruct (Hin o q Hq) as [Hold|[[_ ->]|(k' & c' & Hk' & -> & ->)]].
      + right. pose proof (players_has _ _ _ Hold) as Ho.
        apply Hpl0 in Hold as [Hold|[_ ->]];
          [|left; apply DB_SAVE_no_parenthesis].
        destruct (Hkept o q Hold) as [Hq'|(i & c & -> & _)]; [left; exact Hq'|].
        exfalso. destruct (Hgone i Ho) as [Hwas Hlt].
        apply Hstale in Hwas. lia.
      + right; left; apply DB_SAVE_no_parenthesis.
      + destruct (Nat.eq_dec k' k) as [->|Hne].
        * left. rewrite Hk' in Hk. injection Hk as ->. reflexivity.
        * right; right. exists (0 + N.of_nat k'), c'.
          split; [lia|reflexivity]. }
  unfold new_Database.
  erewrite bind_value
    by (apply (build_built T (Z.of_N (N.of_nat (List.length l)))); exact Hcount).
  unfold fetch, try_catch, for_each_saved.
  erewrite bind_value by apply SAVE_NAMES_bound. cbn [world].
  rewrite (fetch_loop_reads T (p :: l)); cbn [MEMORY world List.length app].
  - reflexivity.
  - rewrite Hb. lia.
  - exact Hfind.
  - rewrite Hb. lia.
Qed.

(** * The key operations *)

(** ** save from any state *)

Section AnyState.

Variable T : text.

(** [save] of a document returns whatever the scoreboard holds, and
    leaves the encoded chunks of the text in the cache. *)
Lemma save_any_state (d : json) (st : state) :
  exists p l w',
    chunkString (JSON_stringify d) MAX_DATABASE_STRING_SIZE = inl (Some (p :: l))
    /\ save T d st
       = (inl tt, {| MEMORY := encode_chunks 0 (p :: l); world := w' |}).
Proof.
  destruct (chunkString_document d)
    as (p & l & Esplit).
  exists p, l. unfold save, save_text. rewrite Esplit.
  unfold lift at 1. unfold bind at 1.
  destruct (wipe_returns T st) as (w0 & Ew & Hsc & _).
  erewrite bind_value by exact Ew.
  destruct (save_chunks_entries T (p :: l) 0 {| MEMORY := []; world := w0 |})
    as (w' & E & _).
  { cbn [world]. rewrite scores_in_has, Hsc. reflexivity. }
  exists w'. split; [reflexivity|exact E].
Qed.

Lemma cached_text_encode (s : text) (p : text) (l : list text) (w : scoreboard) :
  well_formed s ->
  chunkString s MAX_DATABASE_STRING_SIZE = inl (Some (p :: l)) ->
  cached_text {| MEMORY := encode_chunks 0 (p :: l); world := w |}
  = strip_line_terminators s.
Proof.
  intros Hwf Esplit.
  apply chunkString_pieces in Esplit as [Hcat Hp];
    [|unfold MAX_DATABASE_STRING_SIZE; lia].
  unfold cached_text. cbn [MEMORY]. rewrite decode_encode_chunks.
  - rewrite join_nil. exact Hcat.
  - pose proof (well_formed_strip _ Hwf) as Hw. rewrite <- Hcat in Hw.
    unfold well_formed in Hw. rewrite Forall_concat in Hw.
    rewrite Forall_forall in *. intros c Hc. split; [apply Hp, Hc|].
    apply Hw, Hc.
Qed.

(** The store that saved a document reads it back, whatever the
    scoreboard held. *)
Lemma save_then_reads (d : json) (st : state) :
  well_formed_json d -> Forall no_line_separator (strings_of d) ->
  exists st', save T d st = (inl tt, st') /\ data st' = (inl d, st').
Proof.
  intros Hwf Hls. destruct (save_any_state d st) as (p & l & w' & Esplit & Es).
  eexists; split; [exact Es|]. rewrite data_returns.
  rewrite (cached_text_encode _ _ _ _ (JSON_stringify_well_formed d Hwf) Esplit).
  rewrite strip_plain by (apply JSON_stringify_no_line_terminator, Hls).
  rewrite JSON_parse_stringify by exact Hwf. reflexivity.
Qed.

End AnyState.

(** ** Reading an object *)

Lemma includes_has_own (key : text) (m : list (text * json)) :
  existsb (text_eqb key) (map fst m) = has_own key m.
Proof.
  unfold has_own. induction m as [|[k v] m IH]; [reflexivity|].
  cbn [map fst existsb lookup]. rewrite text_eqb_sym.
  destruct (text_eqb k key); [reflexivity|]. exact IH.
Qed.

Lemma reads_of_object (m : list (text * json)) (st : state) :
  data st = (inl (JObj m), st) ->
  (forall key, get key st
               = (inl (match lookup key m with
                       | Some v => Own v
                       | None => not_own key
                       end), st))
  /\ keys st = (inl (map fst m), st)
  /\ (forall key, has key st = (inl (has_own key m), st))
  /\ size st = (inl (List.length m), st)
  /\ values st = (inl (map snd m), st).
Proof.
  intros H.
  assert (Hkeys : keys st = (inl (map fst m), st)).
  { unfold keys, bind. rewrite H. reflexivity. }
  split; [intros key; unfold get, bind; rewrite H; reflexivity|].
  split; [exact Hkeys|]. split; [|split].
  - intros key. unfold has, bind. rewrite Hkeys. unfold ret.
    rewrite includes_has_own. reflexivity.
  - unfold size, bind. rewrite Hkeys. unfold ret. rewrite length_map. reflexivity.
  - unfold values, bind. rewrite H. reflexivity.
Qed.

(** ** Members taken out *)

Lemma lookup_not_in (k : text) (m : list (text * json)) :
  ~ In k (map fst m) -> lookup k m = None.
Proof.
  induction m as [|[k0 v0] m IH]; [reflexivity|]. cbn [map fst In lookup].
  intros H. destruct (text_eqb k0 k) eqn:E.
  - apply text_eqb_eq in E. tauto.
  - apply IH. tauto.
Qed.

Lemma lookup_remove_same (k : text) (m : list (text * json)) :
  NoDup (map fst m) -> lookup k (remove k m) = None.
Proof.
  induction m as [|[k0 v0] m IH]; [reflexivity|]. cbn [map fst remove].
  intros H. inversion H as [|? ? Hnot Hrest]; subst.
  destruct (text_eqb k0 k) eqn:E.
  - apply text_eqb_eq in E; subst. apply lookup_not_in, Hnot.
  - cbn [lookup]. rewrite E. apply IH, Hrest.
Qed.

Lemma lookup_remove_other (k k' : text) (m : list (text * json)) :
  k' <> k -> lookup k' (remove k m) = lookup k' m.
Proof.
  intros Hne. induction m as [|[k0 v0] m IH]; [reflexivity|]. cbn [remove].
  destruct (text_eqb k0 k) eqn:E; cbn [lookup].
  - apply text_eqb_eq in E; subst k0.
    rewrite text_eqb_neq by (intros E; apply Hne; symmetry; exact E).
    reflexivity.
  - rewrite IH. reflexivity.
Qed.

Lemma remove_in (k : text) (m : list (text * json)) (kv : text * json) :
  In kv (remove k m) -> In kv m.
Proof.
  induction m as [|[k0 v0] m IH]; [intros []|]. cbn [remove].
  destruct (text_eqb k0 k); [intros H; right; exact H|].
  intros [H|H]; [left; exact H|right; apply IH, H].
Qed.

Lemma remove_NoDup (k : text) (m : list (text * json)) :
  NoDup (map fst m) -> NoDup (map fst (remove k m)).
Proof.
  induction m as [|[k0 v0] m IH]; [intros H; exact H|]. cbn [remove map fst].
  intros H. inversion H as [|? ? Hnot Hrest]; subst.
  destruct (text_eqb k0 k); [exact Hrest|]. cbn [map fst].
  constructor; [|apply IH, Hrest]. intros Hin. apply Hnot.
  apply in_map_iff in Hin as (kv & <- & Hkv). apply in_map.
  eapply remove_in, Hkv.
Qed.

Lemma remove_in_order (k : text) (m : list (text * json)) :
  in_order (map fst m) = true -> in_order (map fst (remove k m)) = true.
Proof.
  induction m as [|[k0 v0] m IH]; [intros H; exact H|]. cbn [remove map fst in_order].
  intros H. apply andb_true_iff in H as [H1 H2].
  destruct (text_eqb k0 k); [exact H2|]. cbn [map fst in_order].
  apply andb_true_iff. split; [|apply IH, H2].
  rewrite forallb_forall in *. intros x Hx. apply H1.
  apply in_map_iff in Hx as (kv & <- & Hkv). apply in_map.
  eapply remove_in, Hkv.
Qed.

Lemma remove_well_formed (k : text) (m : list (text * json)) :
  well_formed_json (JObj m) -> well_formed_json (JObj (remove k m)).
Proof.
  intros Hm. apply well_formed_JObj in Hm as (Hnd & Hord & Hm).
  apply well_formed_JObj. split; [apply remove_NoDup, Hnd|].
  split; [apply remove_in_order, Hord|].
  rewrite Forall_forall in *. intros kv Hkv. apply Hm. eapply remove_in, Hkv.
Qed.

Lemma remove_strings (Q : text -> Prop) (k : text) (m : list (text * json)) :
  Forall Q (strings_of (JObj m)) -> Forall Q (strings_of (JObj (remove k m))).
Proof.
  intros Hm. rewrite Forall_forall in *. intros s Hs. apply Hm.
  apply strings_of_members in Hs as (kv & Hkv & Hs).
  apply strings_of_members. exists kv. split; [eapply remove_in, Hkv|exact Hs].
Qed.

Lemma remove_length (k : text) (m : list (text * json)) :
  List.length (remove k m)
  = (List.length m - (if has_own k m then 1 else 0))%nat.
Proof.
  unfold has_own. induction m as [|[k0 v0] m IH]; [reflexivity|].
  cbn [remove lookup List.length]. destruct (text_eqb k0 k).
  - lia.
  - cbn [List.length]. rewrite IH. destruct (lookup k m) eqn:E; [|lia].
    destruct m as [|kv m]; [discriminate|]. cbn [List.length]. lia.
Qed.

Section KeyOperations.

Variable T : text.

(** After [delete(key)] the key is gone and every other key reads as it
    did on the document before; the answer is [true] whether or not the
    key was there.  Reading the deleted key answers what
    [Object.prototype] gives under the name, or [undefined]. *)
Theorem delete_then_absent (st : state) (m : list (text * json)) (key : text) :
  data st = (inl (JObj m), st) ->
  well_formed_json (JObj m) ->
  Forall no_line_separator (strings_of (JObj m)) ->
  exists st',
    delete T key st = (inl true, st')
    /\ has key st' = (inl false, st')
    /\ get key st' = (inl (not_own key), st')
    /\ (forall k', k' <> key -> get k' st' = (get_property (JObj m) k', st'))
    /\ size st'
       = (inl (List.length m - (if has_own key m then 1 else 0))%nat, st').
Proof.
  intros Hd Hwf Hls.
  destruct (save_then_reads T (JObj (remove key m)) st) as (st' & Es & Hr).
  { apply remove_well_formed, Hwf. }
  { apply remove_strings, Hls. }
  exists st'. split.
  - unfold delete. erewrite bind_value by exact Hd.
    cbn [delete_property]. unfold lift at 1. unfold bind at 1.
    erewrite bind_value by exact Es. reflexivity.
  - destruct (reads_of_object _ _ Hr) as (Hget & _ & Hhas & Hsize & _).
    assert (Hnd : NoDup (map fst m)) by (apply well_formed_JObj in Hwf; tauto).
    split; [|split; [|split]].
    + rewrite Hhas. unfold has_own. rewrite lookup_remove_same by exact Hnd.
      reflexivity.
    + rewrite Hget, lookup_remove_same by exact Hnd. reflexivity.
    + intros k' Hne. rewrite Hget, lookup_remove_other by exact Hne.
      reflexivity.
    + rewrite Hsize, remove_length. reflexivity.
Qed.

(** After [clear()] the store is empty. *)
Theorem clear_then_empty (st : state) :
  exists st',
    clear T st = (inl tt, st')
    /\ data st' = (inl (JObj []), st')
    /\ keys st' = (inl [], st')
    /\ size st' = (inl 0%nat, st')
    /\ (forall key, has key st' = (inl false, st')
                    /\ get key st' = (inl (not_own key), st')).
Proof.
  destruct (save_then_reads T (JObj []) st) as (st' & Es & Hr).
  { split; [constructor|split; [reflexivity|exact I]]. }
  { constructor. }
  exists st'. split; [exact Es|]. split; [exact Hr|].
  destruct (reads_of_object _ _ Hr) as (Hget & Hkeys & Hhas & Hsize & _).
  split; [exact Hkeys|]. split; [exact Hsize|].
  intros key. split; [apply Hhas|apply Hget].
Qed.

(** After [set(key, value)] the store has the key, and one key more than
    before when the key is new. *)
Theorem set_then_has (st : state) (m : list (text * json))
    (key : text) (value : json) :
  data st = (inl (JObj m), st) ->
  well_formed_json (JObj m) ->
  Forall no_line_separator (strings_of (JObj m)) ->
  well_formed key -> no_line_separator key ->
  well_formed_json value -> Forall no_line_separator (strings_of value) ->
  key <> lit "__proto__" ->
  exists st',
    set T key value st = (inl tt, st')
    /\ data st' = (inl (JObj (put key value m)), st')
    /\ has key st' = (inl true, st')
    /\ get key st' = (inl (Own value), st')
    /\ size st'
       = (inl (List.length m + (if has_own key m then 0 else 1))%nat, st').
Proof.
  intros Hd Hwm Hlm Hwk Hlk Hwv Hlv Hproto.
  destruct (save_then_reads T (JObj (put key value m)) st) as (st' & Es & Hr).
  { apply put_well_formed; assumption. }
  { apply put_strings; assumption. }
  exists st'. split.
  - unfold set. erewrite bind_value by exact Hd. cbn [set_property].
    rewrite (text_eqb_neq _ _ Hproto). cbn [andb].
    unfold lift at 1. unfold bind at 1. exact Es.
  - split; [exact Hr|].
    destruct (reads_of_object _ _ Hr) as (Hget & _ & Hhas & Hsize & _).
    split; [|split].
    + rewrite Hhas. unfold has_own. rewrite lookup_put_same. reflexivity.
    + rewrite Hget, lookup_put_same. reflexivity.
    + rewrite Hsize, put_length. reflexivity.
Qed.

(** [set("__proto__", value)] stores nothing: the assignment runs the
    setter of the prototype and the document is saved as it was. *)
Theorem set_proto_stores_nothing (st : state) (m : list (text * json)) (value : json) :
  data st = (inl (JObj m), st) ->
  well_formed_json (JObj m) ->
  Forall no_line_separator (strings_of (JObj m)) ->
  has_own (lit "__proto__") m = false ->
  exists st',
    set T (lit "__proto__") value st = (inl tt, st')
    /\ data st' = (inl (JObj m), st')
    /\ has (lit "__proto__") st' = (inl false, st').
Proof.
  intros Hd Hwm Hlm Hown.
  destruct (save_then_reads T (JObj m) st Hwm Hlm) as (st' & Es & Hr).
  exists st'. split.
  - unfold set. erewrite bind_value by exact Hd. cbn [set_property].
    rewrite Hown, text_eqb_refl. cbn [andb negb].
    unfold lift at 1. unfold bind at 1. exact Es.
  - split; [exact Hr|].
    destruct (reads_of_object _ _ Hr) as (_ & _ & Hhas & _).
    rewrite Hhas, Hown. reflexivity.
Qed.

End KeyOperations.

(** * What the store leaves alone *)

Section Frame.

Variable T : text.

(** A table that is neither the table of the store nor one of its chunk
    tables. *)
Variable o : text.
Hypothesis o_not_table : o <> T.
Hypothesis o_not_chunk : forall j, o <> chunk_table T j.

Lemma remove_chunk_frame (i : N) (w : scoreboard) :
  scores_in o (exec (ObjectivesRemove (chunk_table T i)) w) = scores_in o w.
Proof.
  apply exec_remove_scores. intros E. apply (o_not_chunk i). symmetry; exact E.
Qed.

Lemma text_eqb_table : text_eqb T o = false.
Proof. apply text_eqb_neq. intros E. apply o_not_table. symmetry; exact E. Qed.

Lemma text_eqb_chunk (i : N) : text_eqb (chunk_table T i) o = false.
Proof. apply text_eqb_neq. intros E. apply (o_not_chunk i). symmetry; exact E. Qed.

Lemma add_frame (m : text) (w : scoreboard) :
  text_eqb m o = false ->
  scores_in o (exec (ObjectivesAdd m) w) = scores_in o w.
Proof.
  intros E. rewrite exec_add_scores, E. destruct (scores_in o w); reflexivity.
Qed.

Lemma build_frame (st : state) :
  scores_in o (world (snd (build T st))) = scores_in o (world st).
Proof.
  rewrite build_exec. cbn [snd world].
  rewrite exec_players_add_scores, text_eqb_table.
  apply add_frame, text_eqb_table.
Qed.

Lemma wipe_loop_frame (fuel : nat) :
  forall (i : N) (st : state),
  scores_in o (world (snd (for_SAVE_NAMES T fuel i (wipe_round T) st)))
  = scores_in o (world st).
Proof.
  induction fuel as [|fuel IH]; intros i st; [reflexivity|].
  cbn [for_SAVE_NAMES]. erewrite bind_value by apply SAVE_NAMES_bound.
  destruct (Z.of_N i <=? bound T (world st))%Z; [|reflexivity].
  unfold wipe_round at 1. erewrite bind_value by apply runCommand_exec.
  rewrite IH. cbn [world]. apply remove_chunk_frame.
Qed.

Lemma wipe_frame (st : state) :
  scores_in o (world (snd (wipe T st))) = scores_in o (world st).
Proof.
  unfold wipe. unfold set_MEMORY at 1. unfold bind at 1.
  set (st0 := {| MEMORY := []; world := world st |}).
  unfold for_each_saved.
  destruct (wipe_loop T (S (Z.to_nat (bound T (world st0) + 1))) 0 st0)
    as (w1 & E & _).
  { change (Z.of_N 0) with 0%Z. lia. }
  pose proof (wipe_loop_frame (S (Z.to_nat (bound T (world st0) + 1))) 0 st0)
    as Hf.
  rewrite E in Hf. cbn [snd world] in Hf.
  unfold bind at 1. erewrite bind_value by apply SAVE_NAMES_bound.
  rewrite E. erewrite bind_value by apply runCommand_exec.
  rewrite build_frame. cbn [world].
  rewrite exec_remove_scores by exact (fun E' => o_not_table (eq_sym E')).
  exact Hf.
Qed.

Lemma save_chunks_frame (chunks : list text) :
  forall (index : N) (st : state),
  has_objective T (world st) = true ->
  scores_in o (world (snd (save_chunks T index chunks st)))
  = scores_in o (world st).
Proof.
  induction chunks as [|chunk rest IH]; intros index st HT; [reflexivity|].
  cbn [save_chunks].
  erewrite bind_value by (apply set_SAVE_NAMES_exec; exact HT).
  unfold push at 1. unfold bind at 1. cbn [MEMORY world].
  erewrite bind_value by apply runCommand_exec. cbn [MEMORY world].
  erewrite bind_value by apply runCommand_exec. cbn [MEMORY world].
  rewrite IH; cbn [world].
  - rewrite exec_set_scores, text_eqb_chunk.
    rewrite add_frame by apply text_eqb_chunk.
    rewrite exec_set_scores, text_eqb_table. reflexivity.
  - rewrite exec_set_has, exec_add_has, exec_set_has, HT. reflexivity.
Qed.

Lemma save_text_frame (s : text) (st : state) :
  scores_in o (world (snd (save_text T s st))) = scores_in o (world st).
Proof.
  pose proof (wipe_frame st) as Hw. unfold save_text.
  rewrite chunkString_MAX. unfold lift at 1. unfold bind at 1.
  destruct (wipe_returns T st) as (w0 & Ew & Hsc & _).
  rewrite Ew in Hw. cbn [snd world] in Hw.
  erewrite bind_value by exact Ew.
  destruct (match_dots s (N.to_nat MAX_DATABASE_STRING_SIZE)) as [chunks|];
    [|exact Hw].
  rewrite save_chunks_frame; [exact Hw|].
  cbn [world]. rewrite scores_in_has, Hsc. reflexivity.
Qed.

Lemma fetch_loop_world (fuel : nat) :
  forall (i : N) (st : state),
  world (snd (for_SAVE_NAMES T fuel i (fetch_round T) st)) = world st.
Proof.
  induction fuel as [|fuel IH]; intros i st; [reflexivity|].
  cbn [for_SAVE_NAMES]. erewrite bind_value by apply SAVE_NAMES_bound.
  destruct (Z.of_N i <=? bound T (world st))%Z; [|reflexivity].
  unfold bind at 1. rewrite fetch_round_returns.
  destruct (regex_match (chunk_table T i) (players_list (world st)));
    [|reflexivity].
  rewrite IH. reflexivity.
Qed.

(** [fetch] reads: it leaves the scoreboard as it is. *)
Lemma fetch_world (st : state) : world (snd (fetch T st)) = world st.
Proof.
  unfold fetch, try_catch, for_each_saved.
  erewrite bind_value by apply SAVE_NAMES_bound.
  pose proof (fetch_loop_world (S (Z.to_nat (bound T (world st) + 1))) 0 st) as H.
  destruct (for_SAVE_NAMES T _ 0 (fetch_round T) st) as [[[]|e] st1];
    cbn [snd] in *; [exact H|]. unfold set_MEMORY.
  destruct (catchable e); cbn [snd world]; exact H.
Qed.

Lemma data_state (st : state) : snd (data st) = st.
Proof. rewrite data_returns. reflexivity. Qed.

(** The writers and the constructor leave every other table with the
    scores it had. *)
Theorem database_leaves_other_tables (st : state) (w : scoreboard) (d : json)
    (key : text) (value : json) :
  scores_in o (world (snd (save T d st))) = scores_in o (world st)
  /\ scores_in o (world (snd (set T key value st))) = scores_in o (world st)
  /\ scores_in o (world (snd (delete T key st))) = scores_in o (world st)
  /\ scores_in o (world (snd (clear T st))) = scores_in o (world st)
  /\ scores_in o (world (snd (wipe T st))) = scores_in o (world st)
  /\ scores_in o (world (snd (new_Database T w))) = scores_in o w.
Proof.
  split; [apply save_text_frame|]. split; [|split; [|split; [|split]]].
  - unfold set, bind. rewrite data_returns.
    destruct (caught (JSON_parse (cached_text st))) as [d0|e0]; [|reflexivity].
    destruct (set_property d0 key value) as [d'|e]; cbn [lift];
      [apply save_text_frame|reflexivity].
  - unfold delete, bind. rewrite data_returns.
    destruct (caught (JSON_parse (cached_text st))) as [d0|e0]; [|reflexivity].
    destruct (delete_property d0 key) as [[status d']|e]; cbn [lift];
      [|reflexivity].
    pose proof (save_text_frame (JSON_stringify d') st) as H. unfold save.
    destruct (save_text T (JSON_stringify d') st) as [[[]|e] st1]; exact H.
  - apply save_text_frame.
  - apply wipe_frame.
  - unfold new_Database.
    pose proof (build_frame {| MEMORY := []; world := w |}) as Hb.
    rewrite build_exec in Hb. cbn [snd world] in Hb.
    erewrite bind_value by apply build_exec.
    rewrite fetch_world. exact Hb.
Qed.

End Frame.

(** * The class CommandBuilder *)

Section CommandBuilderFacts.

Import CommandBuilder.

Variable toLowerCase : text -> text.
Variable Callback : Type.

Local Abbreviation stored := (storedRegisterInformation Callback).
Local Abbreviation builder := (t Callback).

Local Abbreviation passed_over := (@CommandBuilder.passed_over toLowerCase Callback).
Local Abbreviation lookup_step := (@CommandBuilder.lookup_step toLowerCase Callback).
Local Abbreviation lower_case := (@CommandBuilder.lower_case toLowerCase Callback).

Lemma lookup_passed_over (name' : text) (l : list stored) (acc : option stored) :
  Forall (passed_over name') l -> fold_left (lookup_step name') l acc = acc.
Proof.
  intros H; revert acc. induction H as [|e l He _ IH]; intros acc; [reflexivity|].
  cbn [fold_left]. rewrite IH. unfold lookup_step.
  destruct He as [-> | ->]; [reflexivity|]. destruct (private e); reflexivity.
Qed.

Lemma lookup_splits (name' : text) (l : list stored) (acc : option stored) :
  (Forall (passed_over name') l /\ fold_left (lookup_step name') l acc = acc)
  \/ exists before e after,
       l = before ++ e :: after
       /\ private e = false /\ answers_to toLowerCase name' e = true
       /\ Forall (passed_over name') after
       /\ fold_left (lookup_step name') l acc = Some e.
Proof.
  revert acc. induction l as [|x l IH]; intros acc.
  - left. split; [constructor|reflexivity].
  - cbn [fold_left]. destruct (IH (lookup_step name' acc x))
      as [[Hall E]|(before & e & after & -> & Hp & Ha & Hafter & E)].
    + unfold lookup_step in E |- *.
      destruct (private x) eqn:Hp.
      * left. split; [constructor; [left; exact Hp|exact Hall]|exact E].
      * destruct (answers_to toLowerCase name' x) eqn:Ha; cbn [negb] in *.
        -- right. exists [], x, l. repeat split; assumption.
        -- left. split; [constructor; [right; exact Ha|exact Hall]|exact E].
    + right. exists (x :: before), e, after. repeat split; assumption.
Qed.

Lemma answers_nowhere (name' : text) (l : list stored) :
  existsb (answers_to toLowerCase name') l = false ->
  Forall (passed_over name') l.
Proof.
  induction l as [|x l IH]; [constructor|]. cbn [existsb].
  intros H. apply orb_false_iff in H as [Hx H].
  constructor; [right; exact Hx|apply IH, H].
Qed.

Lemma getRegistration_fold (name' : text) (this : builder) :
  getRegistration toLowerCase name' this
  = fold_left (lookup_step name') (_registrationInformation this) None.
Proof.
  unfold getRegistration. fold (lookup_step name').
  destruct (existsb (answers_to toLowerCase name') (_registrationInformation this))
    eqn:E; [reflexivity|].
  cbn [negb]. symmetry. apply lookup_passed_over, answers_nowhere, E.
Qed.

(** [getRegistration(name)] answers the registration made last among
    those that are not private and answer to the name, and [undefined]
    when there is none. *)
Theorem getRegistration_last (name' : text) (this : builder) :
  (forall e, getRegistration toLowerCase name' this = Some e <->
     exists before after,
       _registrationInformation this = before ++ e :: after
       /\ private e = false /\ answers_to toLowerCase name' e = true
       /\ Forall (passed_over name') after)
  /\ (getRegistration toLowerCase name' this = None <->
      Forall (passed_over name') (_registrationInformation this)).
Proof.
  rewrite getRegistration_fold.
  destruct (lookup_splits name' (_registrationInformation this) None)
    as [[Hall E]|(before & e0 & after & El & Hp & Ha & Hafter & E)].
  - split.
    + intros e. rewrite E. split; [discriminate|].
      intros (before & after & El & Hp & Ha & _). exfalso.
      rewrite El in Hall. apply Forall_app in Hall as [_ Hall].
      inversion Hall as [|? ? [H|H] _]; subst; congruence.
    + rewrite E. split; [intros _; exact Hall|reflexivity].
  - split.
    + intros e. rewrite E. split.
      * intros H; injection H as <-. exists before, after. repeat split; assumption.
      * intros (before' & after' & El' & Hp' & Ha' & Hafter'). f_equal.
        rewrite El' in E. rewrite fold_left_app in E. cbn [fold_left] in E.
        rewrite lookup_passed_over in E by exact Hafter'.
        unfold lookup_step in E. rewrite Hp', Ha' in E. cbn [negb] in E.
        congruence.
    + rewrite E. split; [discriminate|]. intros Hall. exfalso.
      rewrite El in Hall. apply Forall_app in Hall as [_ Hall].
      inversion Hall as [|? ? [H|H] _]; subst; congruence.
Qed.

Lemma get_filter (this : builder) :
  get this
  = map name
      (filter (fun e => negb (private e)) (_registrationInformation this)).
Proof.
  unfold get.
  assert (H : forall l acc,
            fold_left
              (fun (commands : list text) (element : stored) =>
                 if private element then commands else commands ++ [name element])
              l acc
            = acc ++ map name (filter (fun e => negb (private e)) l)).
  { induction l as [|x l IH]; intros acc; cbn [fold_left filter map].
    - rewrite app_nil_r. reflexivity.
    - rewrite IH. destruct (private x); cbn [negb map]; [reflexivity|].
      rewrite <- app_assoc. reflexivity. }
  apply (H _ []).
Qed.

(** A private registration shows nowhere: [get] lists what it listed
    and [getRegistration] answers what it answered, for every name. *)
Theorem register_private_hidden (r : registerInformation) (cb : Callback)
    (this : builder) :
  register_private r = Some true ->
  get (register toLowerCase r cb this) = get this
  /\ forall name',
       getRegistration toLowerCase name' (register toLowerCase r cb this)
       = getRegistration toLowerCase name' this.
Proof.
  intros Hp. split.
  - rewrite !get_filter. cbn [register _registrationInformation].
    rewrite filter_app. cbn [filter private]. rewrite Hp. cbn [truthy_bool negb].
    rewrite app_nil_r. reflexivity.
  - intros name'. rewrite !getRegistration_fold.
    cbn [register _registrationInformation]. rewrite fold_left_app.
    cbn [fold_left]. unfold lookup_step at 1. cbn [private]. rewrite Hp.
    reflexivity.
Qed.

(** A registration that is not private is found under its name in lower
    case and under each of its aliases in lower case, and [get] lists its
    name last. *)
Theorem register_then_found (r : registerInformation) (cb : Callback)
    (this : builder) :
  truthy_bool (register_private r) = false ->
  toLowerCase (toLowerCase (register_name r)) = toLowerCase (register_name r) ->
  exists e,
    _registrationInformation (register toLowerCase r cb this)
    = _registrationInformation this ++ [e]
    /\ name e = toLowerCase (register_name r) /\ callback e = cb
    /\ getRegistration toLowerCase (toLowerCase (register_name r))
         (register toLowerCase r cb this) = Some e
    /\ (forall l a, register_aliases r = Some l -> In a l ->
          getRegistration toLowerCase (toLowerCase a)
            (register toLowerCase r cb this) = Some e)
    /\ get (register toLowerCase r cb this)
       = get this ++ [toLowerCase (register_name r)].
Proof.
  intros Hp Hidem. eexists. split; [reflexivity|].
  split; [reflexivity|]. split; [reflexivity|]. split; [|split].
  - rewrite getRegistration_fold. cbn [register _registrationInformation].
    rewrite fold_left_app. cbn [fold_left]. unfold lookup_step at 1.
    cbn [private]. rewrite Hp. unfold answers_to. cbn [name].
    rewrite Hidem, text_eqb_refl. reflexivity.
  - intros l a Hl Ha. rewrite getRegistration_fold.
    cbn [register _registrationInformation].
    rewrite fold_left_app. cbn [fold_left]. unfold lookup_step at 1.
    cbn [private]. rewrite Hp. unfold answers_to. cbn [name aliases].
    rewrite Hl.
    assert (Hin : includes (toLowerCase a) (map toLowerCase l) = true).
    { unfold includes. apply existsb_exists. exists (toLowerCase a).
      split; [apply in_map, Ha|apply text_eqb_refl]. }
    rewrite Hin, orb_true_r. reflexivity.
  - rewrite !get_filter. cbn [register _registrationInformation].
    rewrite filter_app, map_app. cbn [filter private]. rewrite Hp.
    reflexivity.
Qed.

(** ** Names in upper case *)

Hypothesis toLowerCase_idempotent :
  forall s, toLowerCase (toLowerCase s) = toLowerCase s.

(** Every name and alias a builder holds is in lower case. *)
Lemma registered_lower_case (calls : list (registerInformation * Callback)) :
  Forall lower_case
    (_registrationInformation (registered toLowerCase calls)).
Proof.
  unfold registered.
  assert (H : forall (this : builder),
            Forall lower_case (_registrationInformation this) ->
            Forall lower_case
              (_registrationInformation
                 (fold_left (fun this rc => register toLowerCase (fst rc) (snd rc) this)
                    calls this))).
  { induction calls as [|[r cb] calls IH]; intros this Hthis; [exact Hthis|].
    cbn [fold_left]. apply IH. cbn [register _registrationInformation fst snd].
    apply Forall_app. split; [exact Hthis|]. constructor; [|constructor].
    split; cbn [name aliases].
    - apply toLowerCase_idempotent.
    - intros l a Hl Ha. destruct (register_aliases r) as [l0|]; [|discriminate].
      injection Hl as <-. apply in_map_iff in Ha as (a0 & <- & _).
      apply toLowerCase_idempotent. }
  apply H. constructor.
Qed.

(** Registration puts names in lower case and lookup does not: a name
    that is not in lower case already finds nothing, under whatever
    spelling the command was registered. *)
Theorem getRegistration_upper_case
    (calls : list (registerInformation * Callback)) (name' : text) :
  toLowerCase name' <> name' ->
  getRegistration toLowerCase name' (registered toLowerCase calls) = None.
Proof.
  intros Hup. rewrite getRegistration_fold. apply lookup_passed_over.
  pose proof (registered_lower_case calls) as H.
  rewrite Forall_forall in *. intros e He. right.
  destruct (H e He) as [Hn Ha]. unfold answers_to. rewrite Hn.
  apply orb_false_iff. split.
  - apply text_eqb_neq. intros E. apply Hup. rewrite <- E. exact Hn.
  - destruct (aliases e) as [l|] eqn:El; [|reflexivity].
    unfold includes. destruct (existsb (text_eqb name') l) eqn:Ex; [|reflexivity].
    exfalso. apply existsb_exists in Ex as (a & Hin & Ea).
    apply text_eqb_eq in Ea. subst a. apply Hup. apply (Ha l); [reflexivity|exact Hin].
Qed.

End CommandBuilderFacts.

(** * betweenXYZ *)

Lemma filter_index_length {A : Type} (f : A -> nat -> bool) (l : list A) :
  forall i, (List.length (filter_index f i l) <= List.length l)%nat.
Proof.
  induction l as [|c l IH]; intros i; cbn [filter_index List.length]; [lia|].
  specialize (IH (S i)). destruct (f c i); cbn [List.length]; lia.
Qed.

Lemma filter_index_all {A : Type} (f : A -> nat -> bool) (l : list A) :
  forall i,
  List.length (filter_index f i l) = List.length l
  <-> forall k c, nth_error l k = Some c -> f c (i + k)%nat = true.
Proof.
  induction l as [|c l IH]; intros i; cbn [filter_index List.length].
  - split; [intros _ [|k] c H; discriminate|reflexivity].
  - pose proof (filter_index_length f l (S i)) as Hle.
    destruct (f c i) eqn:E; cbn [List.length].
    + split.
      * intros H [|k] c' Hk.
        -- injection Hk as <-. rewrite Nat.add_0_r. exact E.
        -- replace (i + S k)%nat with (S i + k)%nat by lia.
           apply (proj1 (IH (S i))); [lia|exact Hk].
      * intros H. f_equal. apply IH. intros k c' Hk.
        replace (S i + k)%nat with (i + S k)%nat by lia. apply H. exact Hk.
    + split; [lia|]. intros H. specialize (H 0%nat c eq_refl).
      rewrite Nat.add_0_r in H. congruence.
Qed.

Lemma Qle_bool_total (p q : QArith_base.Q) :
  QArith_base.Qle_bool p q = false -> QArith_base.Qle_bool q p = true.
Proof.
  unfold QArith_base.Qle_bool. intros H.
  apply Z.leb_le. apply Z.leb_gt in H. lia.
Qed.

Lemma Qle_bool_trans (p q r : QArith_base.Q) :
  QArith_base.Qle_bool p q = true -> QArith_base.Qle_bool q r = true ->
  QArith_base.Qle_bool p r = true.
Proof.
  rewrite !QArith_base.Qle_bool_iff. apply QArith_base.Qle_trans.
Qed.

Lemma double_le_trans (x y z : double) :
  double_le x y = true -> double_le y z = true -> double_le x z = true.
Proof.
  destruct x as [|p|[|]], y as [|q|[|]], z as [|r|[|]]; cbn [double_le];
    try discriminate; try reflexivity.
  apply Qle_bool_trans.
Qed.

Lemma double_le_total (x y : double) :
  x <> DNaN -> y <> DNaN -> double_le x y = false -> double_le y x = true.
Proof.
  destruct x as [|p|[|]], y as [|q|[|]]; cbn [double_le];
    try congruence; try reflexivity.
  intros _ _. apply Qle_bool_total.
Qed.

(** Between the smaller and the larger is between the two, whichever
    comes first. *)
Lemma min_max_within (a b c : double) :
  double_ge c (Math_min a b) && double_le c (Math_max a b) = within a b c.
Proof.
  unfold double_ge, within.
  destruct a as [|p|na].
  - destruct c as [|r|[|]], b as [|q|[|]]; cbn;
      rewrite ?andb_false_r, ?orb_false_r, ?andb_true_r; reflexivity.
  - destruct b as [|q|nb].
    + destruct c as [|r|[|]]; cbn;
        rewrite ?andb_false_r, ?orb_false_r, ?andb_true_r; reflexivity.
    + unfold Math_min, Math_max.
      destruct (double_le (Finite p) (Finite q)) eqn:E.
      * destruct (double_le (Finite p) c && double_le c (Finite q)) eqn:E1;
          [reflexivity|]. cbn [orb].
        destruct (double_le (Finite q) c && double_le c (Finite p)) eqn:E2;
          [|reflexivity].
        apply andb_true_iff in E2 as [H1 H2].
        rewrite (double_le_trans _ _ _ E H1) in E1.
        rewrite (double_le_trans _ _ _ H2 E) in E1. discriminate.
      * apply double_le_total in E; try discriminate.
        rewrite orb_comm.
        destruct (double_le (Finite q) c && double_le c (Finite p)) eqn:E1;
          [reflexivity|]. cbn [orb].
        destruct (double_le (Finite p) c && double_le c (Finite q)) eqn:E2;
          [|reflexivity].
        apply andb_true_iff in E2 as [H1 H2].
        rewrite (double_le_trans _ _ _ E H1) in E1.
        rewrite (double_le_trans _ _ _ H2 E) in E1. discriminate.
    + destruct nb, c as [|r|[|]]; cbn; rewrite ?andb_false_r, ?orb_false_r;
        reflexivity.
  - destruct na, b as [|q|[|]], c as [|r|[|]]; cbn;
      rewrite ?andb_false_r, ?orb_false_r, ?andb_true_r; reflexivity.
Qed.

Lemma within_sym (a b c : double) : within a b c = within b a c.
Proof. unfold within. apply orb_comm. Qed.

(** [betweenXYZ(a, b, c)] holds exactly when every coordinate of [c]
    lies between the coordinates of [a] and [b] at its index, the ends
    included; so it does not matter which corner is given first, and a
    coordinate that is [NaN] or has no counterpart in [a] or [b] makes
    it [false]. *)
Theorem betweenXYZ_within (XYZa XYZb XYZc : list double) :
  (betweenXYZ XYZa XYZb XYZc = true
   <-> forall i c, nth_error XYZc i = Some c ->
         within (element_at XYZa i) (element_at XYZb i) c = true)
  /\ betweenXYZ XYZa XYZb XYZc = betweenXYZ XYZb XYZa XYZc
  /\ (forall i c, nth_error XYZc i = Some c ->
        (List.length XYZa <= i)%nat \/ (List.length XYZb <= i)%nat \/ c = DNaN ->
        betweenXYZ XYZa XYZb XYZc = false).
Proof.
  assert (Hiff : forall a b,
            betweenXYZ a b XYZc = true
            <-> forall i c, nth_error XYZc i = Some c ->
                  within (element_at a i) (element_at b i) c = true).
  { intros a b. unfold betweenXYZ. rewrite Nat.eqb_eq. split.
    - intros H i c Hi. symmetry in H.
      rewrite filter_index_all in H. specialize (H i c Hi). cbn [Nat.add] in H.
      rewrite min_max_within in H. exact H.
    - intros H. symmetry. apply filter_index_all. intros k c Hk. cbn [Nat.add].
      rewrite min_max_within. apply H, Hk. }
  split; [apply Hiff|]. split.
  - apply eq_true_iff_eq. rewrite !Hiff. split; intros H i c Hi;
      rewrite within_sym; apply H, Hi.
  - intros i c Hi Hbad.
    destruct (betweenXYZ XYZa XYZb XYZc) eqn:E; [|reflexivity].
    rewrite Hiff in E. specialize (E i c Hi). exfalso.
    assert (Hnan : forall x, within DNaN x c = false /\ within x DNaN c = false).
    { intros x. unfold within. destruct x as [|q|[|]], c as [|r|[|]]; cbn;
        rewrite ?andb_false_r; split; reflexivity. }
    destruct Hbad as [Ha|[Hb| ->]].
    + unfold element_at in E. rewrite (nth_overflow XYZa DNaN Ha) in E.
      rewrite (proj1 (Hnan _)) in E. discriminate.
    + unfold element_at in E at 2. rewrite (nth_overflow XYZb DNaN Hb) in E.
      rewrite (proj2 (Hnan _)) in E. discriminate.
    + unfold within in E.
      destruct (element_at XYZa i) as [|q|[|]], (element_at XYZb i) as [|r|[|]];
        cbn in E; rewrite ?andb_false_r in E; discriminate.
Qed.

(** * The class tickTimeout *)

Lemma number_of_Z_exact (z : Z) :
  (0 <= z < 2 ^ 53)%Z -> number_of_Z z = Int z.
Proof.
  intros H. unfold number_of_Z.
  rewrite to_double_small.
  - destruct (Z.ltb_spec z 0); [lia|]. f_equal.
    rewrite N2Z.inj_abs_N. lia.
  - apply N2Z.inj_lt. rewrite N2Z.inj_abs_N, N2Z.inj_pow. cbn. lia.
Qed.

Lemma ticks_from_succ (t0 : Z) (n : nat) :
  ticks_from t0 (S n) = Int t0 :: ticks_from (t0 + 1) n.
Proof.
  unfold ticks_from. cbn [seq map]. rewrite Z.add_0_r. f_equal.
  rewrite <- seq_shift, map_map. apply map_ext. intros k. f_equal. lia.
Qed.

Section Timeouts.

Import tickTimeout.

Variable d : Z.
Hypothesis d_positive : (1 <= d)%Z.

Lemma timeout_armed (n : nat) :
  forall a r, (0 <= a)%Z -> (0 <= r)%Z -> (a + r + Z.of_nat n < 2 ^ 53)%Z ->
  (0 < a + r)%Z ->
  run (fun _ => false) (ticks_from a n) (armed d a r false)
  = if (r <? Z.of_nat n)%Z then [Int (a + r)] else [].
Proof.
  unfold armed.
  induction n as [|n IH]; intros a r Ha Hr Hb Hpos.
  - destruct (Z.ltb_spec r (Z.of_nat 0)); [lia|reflexivity].
  - rewrite ticks_from_succ. cbn [run]. unfold subscriber.
    cbn [callbackTick number_is_zero].
    destruct (Z.eqb_spec (a + r) 0) as [|_]; [lia|].
    cbn [callbackTick number_le].
    destruct (Z.leb_spec (a + r) a) as [Hle|Hgt]; cbn [loop called unsubscribed after].
    + assert (r = 0)%Z by lia. subst r.
      destruct (Z.ltb_spec 0 (Z.of_nat (S n))); [|lia].
      rewrite Z.add_0_r. reflexivity.
    + cbn [app].
      replace (a + r)%Z with (a + 1 + (r - 1))%Z by lia.
      rewrite IH by lia.
      destruct (Z.ltb_spec (r - 1) (Z.of_nat n)), (Z.ltb_spec r (Z.of_nat (S n)));
        try lia; reflexivity.
Qed.

Lemma hits_none (r : Z) : (0 <= r)%Z -> hits d 0 r = 0%nat.
Proof.
  intros Hr. unfold hits. cbn [Z.of_nat].
  assert ((0 - 1 - r + d) / d <= 0)%Z; [|lia].
  apply Z.lt_succ_r. apply Z.div_lt_upper_bound; lia.
Qed.

Lemma hits_fire (n : nat) : hits d (S n) 0 = S (hits d n (d - 1)).
Proof.
  unfold hits.
  replace (Z.of_nat (S n) - 1 - 0 + d)%Z with (Z.of_nat n + 1 * d)%Z by lia.
  replace (Z.of_nat n - 1 - (d - 1) + d)%Z with (Z.of_nat n) by lia.
  rewrite Z.div_add by lia.
  assert (0 <= Z.of_nat n / d)%Z by (apply Z.div_pos; lia).
  lia.
Qed.

Lemma hits_wait (n : nat) (r : Z) : hits d (S n) r = hits d n (r - 1).
Proof. unfold hits. f_equal. f_equal. lia. Qed.

Lemma interval_armed (n : nat) :
  forall a r, (0 <= a)%Z -> (0 <= r <= d)%Z ->
  (a + Z.of_nat n + 2 * d < 2 ^ 53)%Z -> (0 < a + r)%Z ->
  run (fun _ => false) (ticks_from a n) (armed d a r true)
  = map (fun k => Int (a + r + Z.of_nat k * d)) (seq 0 (hits d n r)).
Proof.
  unfold armed.
  induction n as [|n IH]; intros a r Ha Hr Hb Hpos.
  - rewrite hits_none by lia. reflexivity.
  - rewrite ticks_from_succ. cbn [run]. unfold subscriber.
    cbn [callbackTick number_is_zero].
    destruct (Z.eqb_spec (a + r) 0) as [|_]; [lia|].
    cbn [callbackTick number_le].
    destruct (Z.leb_spec (a + r) a) as [Hle|Hgt]; cbn [loop called unsubscribed after].
    + assert (r = 0)%Z by lia. subst r.
      unfold set_callbackTick. cbn [tickDelay loop number_add app].
      rewrite number_of_Z_exact by lia.
      replace (a + d)%Z with (a + 1 + (d - 1))%Z by lia.
      rewrite IH by lia. rewrite hits_fire. cbn [seq map].
      f_equal; [f_equal; lia|].
      rewrite <- seq_shift, map_map. apply map_ext. intros k. f_equal. lia.
    + cbn [app].
      replace (a + r)%Z with (a + 1 + (r - 1))%Z by lia.
      rewrite IH by lia. rewrite hits_wait. reflexivity.
Qed.

Lemma first_tick (t0 : Z) (repeats : bool) (n : nat) :
  (0 <= t0)%Z -> (t0 + d < 2 ^ 53)%Z ->
  run (fun _ => false) (ticks_from t0 (S n)) (new (Int d) repeats)
  = run (fun _ => false) (ticks_from (t0 + 1) n)
      (armed d (t0 + 1) (d - 1) repeats).
Proof.
  intros Ht Hb. rewrite ticks_from_succ. cbn [run]. unfold subscriber.
  cbn [new callbackTick number_is_zero Z.eqb tickDelay].
  unfold set_callbackTick. cbn [tickDelay loop number_add callbackTick].
  rewrite number_of_Z_exact by lia. cbn [number_le].
  destruct (Z.leb_spec (t0 + d) t0) as [Hle|Hgt]; [lia|].
  cbn [called unsubscribed after app]. f_equal.
  unfold armed. do 2 f_equal. lia.
Qed.

(** A timeout runs its callback once, [d] ticks after the first tick it
    sees, and an interval every [d] ticks from then on. *)
Theorem timeout_and_interval (t0 : Z) (n : nat) :
  (0 <= t0)%Z -> (t0 + Z.of_nat n + 2 * d < 2 ^ 53)%Z ->
  run (fun _ => false) (ticks_from t0 n) (setTickTimeout (Int d))
  = (if (d <? Z.of_nat n)%Z then [Int (t0 + d)] else [])
  /\ run (fun _ => false) (ticks_from t0 n) (setTickInterval (Int d))
     = map (fun k => Int (t0 + Z.of_nat (S k) * d))
         (seq 0 (Z.to_nat ((Z.of_nat n - 1) / d))).
Proof.
  intros Ht Hb. unfold setTickTimeout, setTickInterval.
  destruct n as [|n].
  - split; [destruct (Z.ltb_spec d (Z.of_nat 0)); [lia|reflexivity]|].
    cbn [Z.of_nat]. replace ((0 - 1) / d)%Z with (-1)%Z; [reflexivity|].
    apply Z.div_unique with (r := (d - 1)%Z); lia.
  - rewrite !first_tick by lia. split.
    + rewrite timeout_armed by lia.
      destruct (Z.ltb_spec (d - 1) (Z.of_nat n)), (Z.ltb_spec d (Z.of_nat (S n)));
        try lia; [|reflexivity]. do 2 f_equal. lia.
    + rewrite interval_armed by lia. unfold hits.
      replace (Z.of_nat n - 1 - (d - 1) + d)%Z with (Z.of_nat (S n) - 1)%Z by lia.
      apply map_ext. intros k. f_equal. lia.
Qed.

Lemma throwing_overdue (repeats : bool) (c : Z) (n : nat) :
  forall a, (0 < c <= a)%Z ->
  run (fun _ => true) (ticks_from a n)
    {| tickDelay := Int d; callbackTick := Int c; loop := repeats |}
  = ticks_from a n.
Proof.
  induction n as [|n IH]; intros a Ha; [reflexivity|].
  rewrite ticks_from_succ. cbn [run]. unfold subscriber.
  cbn [callbackTick number_is_zero].
  destruct (Z.eqb_spec c 0) as [|_]; [lia|]. cbn [callbackTick number_le].
  destruct (Z.leb_spec c a) as [_|]; [|lia].
  cbn [called unsubscribed after app]. f_equal. apply IH. lia.
Qed.

Lemma throwing_armed (repeats : bool) (n : nat) :
  forall a r, (0 <= a)%Z -> (0 <= r)%Z -> (0 < a + r)%Z ->
  run (fun _ => true) (ticks_from a n) (armed d a r repeats)
  = ticks_from (a + r) (n - Z.to_nat r).
Proof.
  unfold armed.
  induction n as [|n IH]; intros a r Ha Hr Hpos; [reflexivity|].
  destruct (Z.eq_dec r 0) as [->|Hne].
  - rewrite throwing_overdue by lia. rewrite Z.add_0_r. reflexivity.
  - rewrite ticks_from_succ. cbn [run]. unfold subscriber.
    cbn [callbackTick number_is_zero].
    destruct (Z.eqb_spec (a + r) 0) as [|_]; [lia|]. cbn [callbackTick number_le].
    destruct (Z.leb_spec (a + r) a) as [|_]; [lia|].
    cbn [called unsubscribed after app].
    replace (a + r)%Z with (a + 1 + (r - 1))%Z by lia.
    rewrite IH by lia. f_equal. lia.
Qed.

(** A callback that throws is run again at every tick, from the tick it
    was due on: the timeout does not unsubscribe and the interval does
    not move on. *)
Theorem throwing_callback_retried (t0 : Z) (n : nat) (repeats : bool) :
  (0 <= t0)%Z -> (t0 + d < 2 ^ 53)%Z ->
  run (fun _ => true) (ticks_from t0 n) (new (Int d) repeats)
  = ticks_from (t0 + d) (n - Z.to_nat d).
Proof.
  intros Ht Hb. destruct n as [|n]; [reflexivity|].
  rewrite ticks_from_succ. cbn [run]. unfold subscriber, new.
  cbn [callbackTick number_is_zero Z.eqb tickDelay].
  unfold set_callbackTick. cbn [tickDelay loop number_add callbackTick].
  rewrite number_of_Z_exact by lia. cbn [number_le].
  destruct (Z.leb_spec (t0 + d) t0) as [Hle|Hgt]; [lia|].
  cbn [called unsubscribed after app].
  change {| tickDelay := Int d; callbackTick := Int (t0 + d); loop := repeats |}
    with (armed d t0 d repeats).
  replace (armed d t0 d repeats) with (armed d (t0 + 1) (d - 1) repeats)
    by (unfold armed; do 2 f_equal; lia).
  rewrite throwing_armed by lia. f_equal; lia.
Qed.

End Timeouts.

Section TimeoutEdges.

Import tickTimeout.

Lemma unarmed_never_runs (throws : number -> bool) (ticks : list number)
    (repeats : bool) (armed_for : number) :
  armed_for = Int 0 \/ armed_for = NaN ->
  run throws ticks
    {| tickDelay := NaN; callbackTick := armed_for; loop := repeats |} = [].
Proof.
  revert armed_for. induction ticks as [|c ticks IH]; intros armed_for H;
    [reflexivity|].
  cbn [run]. unfold subscriber. cbn [callbackTick tickDelay].
  assert (E : (if number_is_zero armed_for
               then set_callbackTick (number_add c NaN)
                      {| tickDelay := NaN; callbackTick := armed_for; loop := repeats |}
               else {| tickDelay := NaN; callbackTick := armed_for; loop := repeats |})
              = {| tickDelay := NaN; callbackTick := NaN; loop := repeats |}).
  { destruct H as [-> | ->]; cbn [number_is_zero Z.eqb]; [|reflexivity].
    unfold set_callbackTick. cbn [tickDelay loop]. destruct c; reflexivity. }
  rewrite E. cbn [callbackTick number_le called unsubscribed after app].
  apply IH. right; reflexivity.
Qed.

(** Without a delay the callback never runs: the sum with [undefined]
    is [NaN], which is not below any tick.  The example of
    [setTickTimeout] in the file gives no delay. *)
Theorem timeout_without_delay_never_runs (throws : number -> bool)
    (ticks : list number) (repeats : bool) :
  run throws ticks (new NaN repeats) = [].
Proof. apply unarmed_never_runs. left; reflexivity. Qed.

End TimeoutEdges.

(** * Tags and stacks *)

Lemma startsWith_app (value rest : text) : startsWith (value ++ rest) value = true.
Proof.
  unfold startsWith.
  assert (H : strip_prefix value (value ++ rest) = Some rest).
  { induction value as [|a p IH]; [reflexivity|]. cbn [app strip_prefix].
    rewrite N.eqb_refl. exact IH. }
  rewrite H. reflexivity.
Qed.

Lemma startsWith_split (s value : text) :
  startsWith s value = true -> s = value ++ skipn (List.length value) s.
Proof.
  unfold startsWith. destruct (strip_prefix value s) as [r|] eqn:E; [|discriminate].
  intros _. apply strip_prefix_app in E. rewrite E at 1.
  rewrite E, skipn_app, skipn_all, Nat.sub_diag. reflexivity.
Qed.

Lemma find_first {A : Type} (f : A -> bool) (before after : list A) (x : A) :
  Forall (fun y => f y = false) before -> f x = true ->
  find f (before ++ x :: after) = Some x.
Proof.
  induction 1 as [|y before Hy _ IH]; intros Hx; cbn [app find].
  - rewrite Hx. reflexivity.
  - rewrite Hy. apply IH, Hx.
Qed.

Lemma find_none_all {A : Type} (f : A -> bool) (l : list A) :
  Forall (fun y => f y = false) l -> find f l = None.
Proof.
  induction 1 as [|y l Hy _ IH]; [reflexivity|]. cbn [find]. rewrite Hy. exact IH.
Qed.

Lemma getTagStartsWith_found (value : text) (before : list text)
    (rest : text) (after : list text) :
  Forall (fun tag => startsWith tag value = false) before ->
  value ++ rest <> [] ->
  getTagStartsWith (before ++ (value ++ rest) :: after) value = Some rest.
Proof.
  intros Hb Hne. unfold getTagStartsWith.
  destruct (before ++ (value ++ rest) :: after) as [|t0 l0] eqn:El;
    [destruct before; discriminate|].
  cbn [List.length Nat.eqb]. rewrite <- El.
  rewrite (find_first _ before after (value ++ rest) Hb (startsWith_app _ _)).
  destruct (value ++ rest) as [|c s] eqn:Es; [congruence|]. rewrite <- Es.
  rewrite length_app.
  destruct (Nat.ltb_spec (List.length value + List.length rest) (List.length value));
    [lia|].
  rewrite skipn_app, skipn_all, Nat.sub_diag. reflexivity.
Qed.

Lemma getTagStartsWith_none (value : text) (tags : list text) :
  Forall (fun tag => startsWith tag value = false) tags ->
  getTagStartsWith tags value = None.
Proof.
  intros H. unfold getTagStartsWith.
  destruct (Nat.eqb (List.length tags) 0); [reflexivity|].
  rewrite find_none_all by exact H. reflexivity.
Qed.

(** [getTagStartsWith] answers what follows the value in the first tag
    that starts with it, and [null] when no tag does; what it answers
    always completes the value to a tag of the entity. *)
Theorem getTagStartsWith_first (value : text) :
  (forall before rest after,
     Forall (fun tag => startsWith tag value = false) before ->
     value ++ rest <> [] ->
     getTagStartsWith (before ++ (value ++ rest) :: after) value = Some rest)
  /\ (forall tags,
        Forall (fun tag => startsWith tag value = false) tags ->
        getTagStartsWith tags value = None)
  /\ (forall tags rest,
        getTagStartsWith tags value = Some rest -> In (value ++ rest) tags).
Proof.
  split; [apply getTagStartsWith_found|]. split; [apply getTagStartsWith_none|].
  intros tags rest. unfold getTagStartsWith.
  destruct (Nat.eqb (List.length tags) 0); [discriminate|].
  destruct (find (fun tag => startsWith tag value) tags) as [tag|] eqn:E;
    [|discriminate].
  apply find_some in E as [Hin Hs].
  destruct tag as [|c s] eqn:Et; [discriminate|]. rewrite <- Et in *.
  destruct (Nat.ltb (List.length tag) (List.length value)); [discriminate|].
  intros H; injection H as <-.
  rewrite <- (startsWith_split _ _ Hs). exact Hin.
Qed.

(** ** parseInt of decimal digits *)

Lemma digit_value_decimal (c : char16) :
  is_digit c = true -> digit_value c = Some (c - 48) /\ c - 48 < 10.
Proof.
  intros H. unfold digit_value. rewrite H. split; [reflexivity|].
  unfold is_digit in H. apply andb_true_iff in H as [H1 H2].
  apply N.leb_le in H1, H2. lia.
Qed.

Lemma radix_digits_uint (d : Decimal.uint) :
  forall acc count,
  radix_digits 10 (uint_text d) acc count
  = (uint_value d acc, (count + List.length (uint_text d))%nat).
Proof.
  induction d; intros acc count; cbn [uint_text uint_value List.length];
    [cbn [radix_digits]; f_equal; lia|..];
    (cbn [radix_digits];
     match goal with |- context [digit_value ?c] =>
       change (digit_value c) with (Some (c - 48)) end;
     cbv iota;
     match goal with |- context [?v <? 10] => change (v <? 10) with true end;
     cbv iota; rewrite IHd; apply (f_equal2 pair); [f_equal; lia|lia]).
Qed.

Lemma radix_digits_decimal (n : N) :
  exists count,
    radix_digits 10 (decimal n) 0 O = (n, S count).
Proof.
  unfold decimal. rewrite radix_digits_uint, uint_value_of_uint,
    DecimalN.Unsigned.of_to.
  fold (decimal n). destruct (decimal n) as [|c tl] eqn:E.
  - exfalso. revert E. apply decimal_nonempty.
  - exists (List.length tl). reflexivity.
Qed.

Lemma skip_spaces_digit (c : char16) (s : text) :
  is_digit c = true -> skip_spaces (c :: s) = c :: s.
Proof.
  intros H. cbn [skip_spaces].
  assert (E : is_space c = false); [|rewrite E; reflexivity].
  unfold is_digit in H. apply andb_true_iff in H as [H1 H2].
  apply N.leb_le in H1, H2.
  unfold is_space, is_white_space, is_line_terminator.
  repeat match goal with
         | |- context [?a =? ?b] =>
             destruct (N.eqb_spec a b); [lia|]
         | |- context [?a <=? ?b] =>
             destruct (N.leb_spec a b); [lia|]
         end. reflexivity.
Qed.

(** [parseInt] reads the decimal digits of a natural number back. *)
Lemma parseInt_decimal (n : N) : n < 2 ^ 53 -> parseInt (decimal n) = Int (Z.of_N n).
Proof.
  intros Hn. unfold parseInt.
  destruct (decimal_head n) as (c & tl & E & Hc).
  pose proof (decimal_digits n) as Hd. rewrite E in Hd.
  rewrite E, skip_spaces_digit by exact Hc.
  assert (H45 : (c =? 45) = false /\ (c =? 43) = false).
  { unfold is_digit in Hc. apply andb_true_iff in Hc as [H1 H2].
    apply N.leb_le in H1, H2. split; apply N.eqb_neq; lia. }
  destruct H45 as [-> ->].
  assert (Hradix : match c :: tl with
                   | 48 :: x :: s' =>
                       if (x =? 120) || (x =? 88) then (16, s') else (10, c :: tl)
                   | _ => (10, c :: tl)
                   end = (10, c :: tl)).
  { destruct c as [|p]; [reflexivity|].
    destruct tl as [|x s'].
    - do 6 (destruct p as [p|p|]; try reflexivity).
    - inversion Hd as [|? ? _ Hd']; subst. inversion Hd' as [|? ? Hx _]; subst.
      assert (Ex : (x =? 120) || (x =? 88) = false).
      { unfold is_digit in Hx. apply andb_true_iff in Hx as [H1 H2].
        apply N.leb_le in H1, H2. apply orb_false_iff.
        split; apply N.eqb_neq; lia. }
      rewrite Ex. do 6 (destruct p as [p|p|]; try reflexivity). }
  rewrite Hradix. rewrite <- E.
  destruct (radix_digits_decimal n) as (count & ->).
  rewrite to_double_small by exact Hn. reflexivity.
Qed.

Lemma parseInt_number_text (z : Z) :
  (Z.abs z < 2 ^ 53)%Z -> parseInt (number_text z) = Int z.
Proof.
  intros Hz. destruct z as [|p|p].
  - reflexivity.
  - change (number_text (Z.pos p)) with (decimal (N.pos p)).
    rewrite parseInt_decimal; [reflexivity|].
    apply N2Z.inj_lt. rewrite N2Z.inj_pow. cbn in *. lia.
  - cbn [number_text]. unfold parseInt. cbn [skip_spaces].
    change (is_space 45) with false. cbv iota.
    change (45 =? 45) with true. cbv iota.
    assert (Hn : N.pos p < 2 ^ 53).
    { apply N2Z.inj_lt. rewrite N2Z.inj_pow. cbn in *. lia. }
    pose proof (parseInt_decimal (N.pos p) Hn) as H. unfold parseInt in H.
    destruct (decimal_head (N.pos p)) as (c & tl & E & Hc).
    rewrite E in H |- *. rewrite skip_spaces_digit in H by exact Hc.
    assert (H45 : (c =? 45) = false /\ (c =? 43) = false).
    { unfold is_digit in Hc. apply andb_true_iff in Hc as [H1 H2].
      apply N.leb_le in H1, H2. split; apply N.eqb_neq; lia. }
    destruct H45 as [E45 E43]. rewrite E45, E43 in H.
    destruct (match c :: tl with
              | 48 :: x :: s' =>
                  if (x =? 120) || (x =? 88) then (16, s') else (10, c :: tl)
              | _ => (10, c :: tl)
              end) as [radix s3].
    destruct (radix_digits radix s3 0 0) as [m [|k]]; [discriminate|].
    destruct (to_double m) as [v|]; [|discriminate].
    injection H as H. f_equal. lia.
Qed.

(** ** getStack *)

(** [getStack] reads back the tag that [setStack] adds, when it is the
    first tag that starts with [stack:], and answers 1 for an entity
    without such a tag. *)
Theorem getStack_reads :
  (forall before after z,
     Forall (fun tag => startsWith tag (lit "stack:") = false) before ->
     (Z.abs z < 2 ^ 53)%Z ->
     getStack (before ++ stack_tag z :: after) = Int z)
  /\ (forall tags,
        Forall (fun tag => startsWith tag (lit "stack:") = false) tags ->
        getStack tags = Int 1).
Proof.
  split.
  - intros before after z Hb Hz. unfold getStack, stack_tag.
    rewrite (getTagStartsWith_found (lit "stack:") before _ after Hb)
      by discriminate.
    apply parseInt_number_text, Hz.
  - intros tags Ht. unfold getStack.
    rewrite (getTagStartsWith_none (lit "stack:") tags Ht).
    reflexivity.
Qed.

(** ** getGenericName *)

Lemma underscores_gone (piece : text) :
  ~ In 95 (map (fun c => if c =? 95 then 32 else c) piece).
Proof.
  intros H. apply in_map_iff in H as (c & Hc & _).
  destruct (N.eqb_spec c 95); [discriminate|]. congruence.
Qed.

(** [getGenericName] answers what stands between the first colon and
    the second, with a space for every underscore, and throws a
    [TypeError] on a name without a colon. *)
Lemma getGenericName_piece :
  (forall namespace piece,
     ~ In 58 namespace -> ~ In 58 piece ->
     getGenericName (namespace ++ 58 :: piece)
     = inl (map (fun c => if c =? 95 then 32 else c) piece)
     /\ forall rest,
          getGenericName (namespace ++ 58 :: piece ++ 58 :: rest)
          = inl (map (fun c => if c =? 95 then 32 else c) piece))
  /\ (forall entityName,
        ~ In 58 entityName -> getGenericName entityName = inr TypeError)
  /\ (forall entityName answer,
        getGenericName entityName = inl answer ->
        In 58 entityName /\ ~ In 95 answer).
Proof.
  split; [|split].
  - intros namespace piece Hn Hp. unfold getGenericName. split.
    + rewrite split_on_app, split_on_plain by assumption. reflexivity.
    + intros rest. rewrite !split_on_app by assumption. reflexivity.
  - intros entityName H. unfold getGenericName.
    rewrite split_on_plain by exact H. reflexivity.
  - intros entityName answer. unfold getGenericName.
    destruct (in_dec N.eq_dec 58 entityName) as [Hin|Hno].
    + destruct (nth_error (split_on 58 entityName) 1); [|discriminate].
      intros H; injection H as <-. split; [exact Hin|apply underscores_gone].
    + rewrite split_on_plain by exact Hno. discriminate.
Qed.

(** * More on the codec *)

(** ** chunkString and null *)


(** ** The size of the binary text *)

Lemma bits_of_positive_length (p : positive) (acc : text) :
  List.length (bits_of_positive p acc)
  = (N.to_nat (N.size (N.pos p)) + List.length acc)%nat.
Proof.
  revert acc; induction p as [p IH|p IH|]; intros acc; cbn [bits_of_positive].
  - rewrite IH. cbn [List.length].
    change (N.size (N.pos p~1)) with (N.succ (N.size (N.pos p))). lia.
  - rewrite IH. cbn [List.length].
    change (N.size (N.pos p~0)) with (N.succ (N.size (N.pos p))). lia.
  - reflexivity.
Qed.

Lemma toString2_length (c : char16) :
  is_char16 c ->
  (1 <= List.length (toString2 (Int (Z.of_N c))) <= 16)%nat.
Proof.
  unfold is_char16. intros Hc. destruct c as [|p]; [cbn; lia|].
  change (Z.of_N (N.pos p)) with (Z.pos p). cbn [toString2].
  rewrite bits_of_positive_length. cbn [List.length].
  rewrite N.size_log2 by discriminate.
  assert (N.log2 (N.pos p) < 16); [|lia].
  apply N.log2_lt_pow2; [lia|]. exact Hc.
Qed.

(** The binary text of [n] units has from [2n - 1] to [17n - 1] units,
    each a digit 0 or 1 or a space. *)
Lemma textToBinary_size (s : text) :
  well_formed s -> s <> [] ->
  (2 * List.length s - 1 <= List.length (textToBinary s)
   <= 17 * List.length s - 1)%nat
  /\ Forall (fun c => c = 48 \/ c = 49 \/ c = 32) (textToBinary s).
Proof.
  intros Hwf Hne. split.
  - clear Hne. induction Hwf as [|c s Hc Hs IH]; [cbn; lia|].
    rewrite textToBinary_cons, length_app.
    pose proof (toString2_length c Hc) as Ht.
    destruct s as [|d s]; cbn [List.length] in *; lia.
  - pose proof (textToBinary_payload s) as Hp.
    rewrite forallb_forall in Hp. apply Forall_forall. intros c Hin.
    pose proof (Hp c Hin) as H.
    assert (Hs : In c (textToBinary s) -> c = 48 \/ c = 49 \/ c = 32).
    { clear. induction s as [|d s IH]; [intros []|].
      rewrite textToBinary_cons. intros H. apply in_app_or in H as [H|H].
      - destruct d as [|p]; [destruct H as [<-|[]]; left; reflexivity|].
        change (Z.of_N (N.pos p)) with (Z.pos p) in H. cbn [toString2] in H.
        pose proof (bits_of_positive_binary p [] (Forall_nil _)) as Hb.
        rewrite Forall_forall in Hb. destruct (Hb _ H); tauto.
      - destruct s as [|e s]; [destruct H|].
        destruct H as [<-|H]; [right; right; reflexivity|]. apply IH, H. }
    apply Hs, Hin.
Qed.

(** ** The units of a decoded text *)

Lemma split_on_length (sep : char16) (s : text) :
  List.length (split_on sep s) = S (count_occ N.eq_dec s sep).
Proof.
  induction s as [|c s IH]; [reflexivity|]. cbn [split_on count_occ].
  destruct (N.eqb_spec c sep) as [->|Hne].
  - destruct (N.eq_dec sep sep); [|congruence]. cbn [List.length]. rewrite IH.
    reflexivity.
  - destruct (N.eq_dec c sep); [congruence|].
    destruct (split_on sep s) as [|h t]; [discriminate|]. exact IH.
Qed.

Lemma ToUint16_char16 (x : number) : is_char16 (ToUint16 x).
Proof.
  unfold is_char16, ToUint16. destruct x as [|z|b]; try reflexivity.
  pose proof (Z.mod_pos_bound z 65536 eq_refl). lia.
Qed.

(** [binaryToText] answers one unit for every piece between spaces,
    whatever the pieces hold. *)
Lemma binaryToText_units (binary : text) :
  List.length (binaryToText binary) = S (count_occ N.eq_dec binary 32)
  /\ well_formed (binaryToText binary).
Proof.
  unfold binaryToText. rewrite <- split_on_length.
  generalize (split_on 32 binary) as l. intros l. rewrite join_nil.
  unfold fromCharCode. split.
  - induction l as [|x l IH]; [reflexivity|]. cbn [map List.concat app List.length].
    rewrite IH. reflexivity.
  - unfold well_formed. induction l as [|x l IH]; [constructor|].
    cbn [map List.concat app]. constructor; [apply ToUint16_char16|exact IH].
Qed.

(** The sizes of the codec: the binary text of [n] units has from
    [2n - 1] to [17n - 1] units, each a digit 0 or 1 or a space, so a piece
    of 32000 units makes an entry name of up to 543999 units besides the
    table name; and [binaryToText] answers one 16-bit unit for every
    piece between spaces, whatever the pieces hold. *)
Theorem codec_sizes :
  (forall s, well_formed s -> s <> [] ->
     (2 * List.length s - 1 <= List.length (textToBinary s)
      <= 17 * List.length s - 1)%nat
     /\ Forall (fun c => c = 48 \/ c = 49 \/ c = 32) (textToBinary s))
  /\ (forall binary,
        List.length (binaryToText binary) = S (count_occ N.eq_dec binary 32)
        /\ well_formed (binaryToText binary)).
Proof. split; [apply textToBinary_size|apply binaryToText_units]. Qed.

(** * The read path *)


Section ReadPath.

Variable T : text.


End ReadPath.

(** * A store that was never saved *)

Section NewStore.

Variable T : text.

Hypothesis T_plain : plain_name T.

Lemma fetch_loop_nothing (fuel : nat) (st : state) :
  (bound T (world st) < 0)%Z ->
  for_SAVE_NAMES T (S fuel) 0 (fetch_round T) st = (inl tt, st).
Proof.
  intros H. cbn [for_SAVE_NAMES]. erewrite bind_value by apply SAVE_NAMES_bound.
  change (Z.of_N 0) with 0%Z.
  destruct (Z.leb_spec 0 (bound T (world st))); [lia|reflexivity].
Qed.

(** On a scoreboard that lists no name with a parenthesis, the
    constructor finds nothing to load and the store reads empty. *)
Theorem new_Database_empty (w : scoreboard) :
  (forall o q, In (o, q) (players w) -> ~ In 40 q) ->
  exists st,
    new_Database T w = (inl tt, st)
    /\ has_objective T (world st) = true
    /\ data st = (inl (JObj []), st)
    /\ size st = (inl 0%nat, st)
    /\ forall key, has key st = (inl false, st) /\ get key st = (inl (not_own key), st).
Proof.
  intros Hw. unfold new_Database.
  erewrite bind_value by apply build_exec. cbn [MEMORY world].
  set (w1 := exec (PlayersAdd DB_SAVE T 0) (exec (ObjectivesAdd T) w)).
  assert (Hhas : has_objective T w1 = true).
  { unfold w1. rewrite exec_players_add_has, exec_add_has, text_eqb_refl.
    apply orb_true_r. }
  assert (Hnames : forall j, Forall (harmless T j) (tracked_players w1)).
  { intros j. apply Forall_forall. intros q Hq.
    apply tracked_players_in in Hq as [o Hq]. unfold w1 in Hq. left.
    apply exec_players_add_players in Hq as [Hq|[_ ->]];
      [|apply DB_SAVE_no_parenthesis].
    apply exec_add_players in Hq. eapply Hw, Hq. }
  assert (Hfetch : exists m,
            fetch T {| MEMORY := []; world := w1 |}
            = (inl tt, {| MEMORY := m; world := w1 |})
            /\ (m = [] \/ m = [{| Chunk.index := 0; Chunk.data := fallback_data |}])).
  { destruct (Z.lt_ge_cases (bound T w1) 0) as [Hneg|Hpos].
    - exists []. split; [|left; reflexivity].
      unfold fetch, try_catch, for_each_saved.
      erewrite bind_value by apply SAVE_NAMES_bound.
      rewrite fetch_loop_nothing by exact Hneg. reflexivity.
    - eexists. split; [|right; reflexivity].
      apply (fetch_falls_back T 0); cbn [world].
      + apply (regex_match_harmless T T_plain 0 _ (Hnames 0)).
      + exact Hpos. }
  destruct Hfetch as (m & E & Hm). eexists. split; [exact E|].
  split; [exact Hhas|].
  assert (Hd : data {| MEMORY := m; world := w1 |}
               = (inl (JObj []), {| MEMORY := m; world := w1 |})).
  { rewrite data_returns. destruct Hm as [-> | ->]; reflexivity. }
  split; [exact Hd|].
  destruct (reads_of_object _ _ Hd) as (Hget & _ & Hh & Hsize & _).
  split; [exact Hsize|]. intros key. split; [apply Hh|apply Hget].
Qed.

End NewStore.

(** * The log of block breaks *)

Lemma log_get_set (name p : text) (t : Z) (log : break_log) :
  log_get p (log_set name t log)
  = if text_eqb name p then Some t else log_get p log.
Proof.
  induction log as [|[q y] log IH]; cbn [log_set log_get].
  - destruct (text_eqb name p); reflexivity.
  - destruct (text_eqb q name) eqn:E; cbn [log_get].
    + apply text_eqb_eq in E; subst q. destruct (text_eqb name p); reflexivity.
    + rewrite IH. destruct (text_eqb q p) eqn:Ep; [|reflexivity].
      apply text_eqb_eq in Ep; subst q. rewrite text_eqb_sym, E. reflexivity.
Qed.

Lemma log_after_app (events : list log_event) (e : log_event) :
  log_after (events ++ [e])
  = match e with
    | BlockBreak name staff now1 now2 =>
        fst (on_blockBreak name staff now1 now2 (log_after events))
    | PlayerLeave playerName => on_playerLeave playerName (log_after events)
    end.
Proof. unfold log_after. rewrite fold_left_app. reflexivity. Qed.

Lemma on_blockBreak_log (name : text) (staff : bool) (now1 now2 : Z)
    (log : break_log) :
  fst (on_blockBreak name staff now1 now2 log) = log_set name now1 log.
Proof.
  unfold on_blockBreak.
  destruct ((match log_get name log with
             | Some t => (t <? now2 - 50)%Z
             | None => false
             end) || staff); reflexivity.
Qed.

(** The block is put back exactly when the player is not of the staff
    and either has no time in the log or broke its last block less than
    51 milliseconds ago. *)
Lemma on_blockBreak_decides (name : text) (staff : bool) (now1 now2 : Z)
    (log : break_log) :
  snd (on_blockBreak name staff now1 now2 log) = true
  <-> staff = false
      /\ (log_get name log = None
          \/ exists t, log_get name log = Some t /\ (now2 - t <= 50)%Z).
Proof.
  unfold on_blockBreak. destruct (log_get name log) as [t|].
  - destruct (Z.ltb_spec t (now2 - 50)) as [Hlt|Hge], staff; cbn [orb snd].
    + split; [discriminate|intros [H _]; discriminate].
    + split; [discriminate|].
      intros [_ [H|(t' & H1 & H2)]]; [discriminate|]. injection H1 as <-. lia.
    + split; [discriminate|intros [H _]; discriminate].
    + split; [|reflexivity]. intros _. split; [reflexivity|].
      right. exists t. split; [reflexivity|lia].
  - destruct staff; cbn [orb snd].
    + split; [discriminate|intros [H _]; discriminate].
    + split; [|reflexivity]. intros _. split; [reflexivity|left; reflexivity].
Qed.

Lemma log_get_delete (name p : text) (log : break_log) :
  NoDup (map fst log) ->
  log_get p (log_delete name log)
  = if text_eqb name p then None else log_get p log.
Proof.
  induction log as [|[q y] log IH]; cbn [log_delete log_get map fst]; intros Hnd.
  - destruct (text_eqb name p); reflexivity.
  - inversion Hnd as [|? ? Hnot Hrest]; subst.
    destruct (text_eqb q name) eqn:E; cbn [log_get].
    + apply text_eqb_eq in E; subst q.
      destruct (text_eqb name p) eqn:Ep; [|reflexivity].
      apply text_eqb_eq in Ep; subst p.
      clear IH Hnd Hrest. induction log as [|[r y'] log IH]; [reflexivity|].
      cbn [log_get]. cbn [map fst In] in Hnot.
      destruct (text_eqb r name) eqn:Er.
      * apply text_eqb_eq in Er. tauto.
      * apply IH. tauto.
    + rewrite IH by exact Hrest.
      destruct (text_eqb q p) eqn:Ep; [|reflexivity].
      apply text_eqb_eq in Ep; subst q. rewrite text_eqb_sym, E. reflexivity.
Qed.

Lemma log_set_keys (name : text) (t : Z) (log : break_log) (q : text) :
  In q (map fst (log_set name t log)) -> q = name \/ In q (map fst log).
Proof.
  induction log as [|[r y] log IH]; cbn [log_set map fst In].
  - intros [H|[]]; left; congruence.
  - destruct (text_eqb r name) eqn:E; cbn [map fst In].
    + intros [H|H]; right; [left|right]; assumption.
    + intros [H|H]; [right; left; exact H|].
      destruct (IH H) as [H1|H1]; [left|right; right]; assumption.
Qed.

Lemma log_set_NoDup (name : text) (t : Z) (log : break_log) :
  NoDup (map fst log) -> NoDup (map fst (log_set name t log)).
Proof.
  induction log as [|[r y] log IH]; cbn [log_set map fst]; intros H.
  - constructor; [intros []|constructor].
  - inversion H as [|? ? Hnot Hrest]; subst.
    destruct (text_eqb r name) eqn:E; cbn [map fst].
    + constructor; assumption.
    + constructor; [|apply IH, Hrest].
      intros Hin. apply log_set_keys in Hin as [->|Hin]; [|contradiction].
      rewrite text_eqb_refl in E; discriminate.
Qed.

Lemma log_delete_keys (name : text) (log : break_log) (q : text) :
  In q (map fst (log_delete name log)) -> In q (map fst log).
Proof.
  induction log as [|[r y] log IH]; [intros []|]. cbn [log_delete].
  destruct (text_eqb r name); cbn [map fst In]; [tauto|].
  intros [H|H]; [left; exact H|right; apply IH, H].
Qed.

Lemma log_delete_NoDup (name : text) (log : break_log) :
  NoDup (map fst log) -> NoDup (map fst (log_delete name log)).
Proof.
  induction log as [|[r y] log IH]; [intros H; exact H|].
  cbn [log_delete map fst]. intros H. inversion H as [|? ? Hnot Hrest]; subst.
  destruct (text_eqb r name); [exact Hrest|]. cbn [map fst].
  constructor; [|apply IH, Hrest]. intros Hin. apply Hnot.
  eapply log_delete_keys, Hin.
Qed.

Lemma log_after_NoDup (events : list log_event) :
  NoDup (map fst (log_after events)).
Proof.
  induction events as [|e events IH] using rev_ind; [constructor|].
  rewrite log_after_app. destruct e as [name staff now1 now2|playerName].
  - rewrite on_blockBreak_log. apply log_set_NoDup, IH.
  - apply log_delete_NoDup, IH.
Qed.

(** In the log after a sequence of events a player has a time exactly
    when it broke a block and has not left since. *)
Lemma log_after_entry (events : list log_event) (name : text) :
  log_get name (log_after events) = None
  <-> forall before staff now1 now2 after,
        events = before ++ BlockBreak name staff now1 now2 :: after ->
        In (PlayerLeave name) after.
Proof.
  induction events as [|e events IH] using rev_ind.
  - split; [|reflexivity]. intros _ before staff now1 now2 after H.
    destruct before; discriminate.
  - rewrite log_after_app. destruct e as [p staff now1 now2|p].
    + rewrite on_blockBreak_log, log_get_set.
      destruct (text_eqb p name) eqn:E.
      * apply text_eqb_eq in E; subst p. split; [discriminate|].
        intros H. specialize (H events staff now1 now2 [] eq_refl). destruct H.
      * rewrite IH. split.
        -- intros H before staff' n1 n2 after Hev.
           destruct after as [|a after] using rev_ind.
           ++ apply app_inj_tail in Hev as [_ Hev]. injection Hev as -> _ _ _.
              rewrite text_eqb_refl in E. discriminate.
           ++ clear IHafter. rewrite app_comm_cons, app_assoc in Hev.
              apply app_inj_tail in Hev as [Hev <-].
              apply in_or_app; left. eapply H, Hev.
        -- intros H before staff' n1 n2 after Hev.
           specialize (H before staff' n1 n2 (after ++ [BlockBreak p staff now1 now2])).
           rewrite Hev, <- app_assoc in H. specialize (H eq_refl).
           apply in_app_or in H as [H|[H|[]]]; [exact H|discriminate].
    + unfold on_playerLeave. rewrite log_get_delete by apply log_after_NoDup.
      destruct (text_eqb p name) eqn:E.
      * apply text_eqb_eq in E; subst p. split; [|reflexivity].
        intros _ before staff n1 n2 after Hev.
        destruct after as [|a after] using rev_ind.
        -- apply app_inj_tail in Hev as [_ Hev]. discriminate.
        -- clear IHafter. rewrite app_comm_cons, app_assoc in Hev.
           apply app_inj_tail in Hev as [_ <-].
           apply in_or_app; right; left; reflexivity.
      * rewrite IH. split.
        -- intros H before staff n1 n2 after Hev.
           destruct after as [|a after] using rev_ind.
           ++ apply app_inj_tail in Hev as [_ Hev]. discriminate.
           ++ clear IHafter. rewrite app_comm_cons, app_assoc in Hev.
              apply app_inj_tail in Hev as [Hev <-].
              apply in_or_app; left. eapply H, Hev.
        -- intros H before staff n1 n2 after Hev.
           specialize (H before staff n1 n2 (after ++ [PlayerLeave p])).
           rewrite Hev, <- app_assoc in H. specialize (H eq_refl).
           apply in_app_or in H as [H|[H|[]]]; [exact H|].
           injection H as ->. rewrite text_eqb_refl in E. discriminate.
Qed.

(** The first block a player breaks after it joined is put back,
    whenever it breaks it: a player that is not of the staff and has
    broken no block since the file was loaded, or since it left, has its
    block put back.  After that a block is put back exactly when it is
    broken less than 51 milliseconds after the last one. *)
Theorem first_break_put_back (events : list log_event) (name : text)
    (now1 now2 : Z) :
  ((forall before staff n1 n2 after,
      events = before ++ BlockBreak name staff n1 n2 :: after ->
      In (PlayerLeave name) after) ->
   snd (on_blockBreak name false now1 now2 (log_after events)) = true)
  /\ (forall staff,
        snd (on_blockBreak name staff now1 now2 (log_after events)) = true
        <-> staff = false
            /\ (log_get name (log_after events) = None
                \/ exists t, log_get name (log_after events) = Some t
                             /\ (now2 - t <= 50)%Z)).
Proof.
  split; [|intros staff; apply on_blockBreak_decides].
  intros H. apply on_blockBreak_decides. split; [reflexivity|]. left.
  apply log_after_entry, H.
Qed.

(** * The check of positions *)

(** The check ends at the first player of the staff: whoever comes after
    it in the list of players is not checked, and is not kicked wherever
    it stands.  Without staff and with a command that does not throw,
    the players out of range are kicked, all of them. *)
Theorem position_check_stops_at_staff (kick_throws : text -> bool) :
  (forall before player after,
     Player.staff player = true ->
     position_check kick_throws (before ++ player :: after)
     = position_check kick_throws before)
  /\ (forall players,
        Forall (fun p => Player.staff p = false) players ->
        position_check (fun _ => false) players
        = map Player.nameTag (filter out_of_range players)).
Proof.
  split.
  - intros before player after Hs.
    induction before as [|p before IH]; cbn [app position_check].
    + rewrite Hs. reflexivity.
    + rewrite IH. reflexivity.
  - induction 1 as [|p l Hp _ IH]; [reflexivity|].
    cbn [position_check filter]. rewrite Hp.
    destruct (out_of_range p); cbn [map]; rewrite IH; reflexivity.
Qed.

(** * The store, from one object to the next *)

(** What one [Database] saved, the next one loads: on a scoreboard the
    store can share, and for a document whose entry names are within the
    bound of the backing system, a [Database] constructed after [save(d)]
    holds the cache of the one that saved and leaves the scoreboard as it
    was, and its [data] is [d] for the documents that survive the split. *)
Theorem load_after_save (T : text) (st : state) (d : json) :
  plain_name T -> well_kept T (world st) -> no_stale_chunk T (world st) ->
  names_fit T (JSON_stringify d) = true ->
  exists st1,
    save T d st = (inl tt, st1)
    /\ new_Database T (world st1) = (inl tt, st1)
    /\ (well_formed_json d -> Forall no_line_separator (strings_of d) ->
        data st1 = (inl d, st1)).
Proof.
  intros Hplain Hkept Hstale Hfit.
  destruct (new_Database_after_save T st d Hplain Hkept Hstale Hfit)
    as (st1 & Es & En).
  exists st1. split; [exact Es|]. split; [exact En|].
  intros Hwf Hls. destruct (save_then_reads T d st Hwf Hls) as (st' & Es' & Hd).
  rewrite Es in Es'. injection Es' as <-. exact Hd.
Qed.

Lemma load_after_save_witness :
  exists st1,
    save store_T doc_a fresh = (inl tt, st1)
    /\ new_Database store_T (world st1) = (inl tt, st1)
    /\ data st1 = (inl doc_a, st1).
Proof.
  destruct (load_after_save store_T fresh doc_a store_T_plain fresh_well_kept
              fresh_no_stale eq_refl) as (st1 & A & B & C).
  exists st1. split; [exact A|]. split; [exact B|].
  apply C; [exact doc_a_well_formed|exact doc_a_no_line_separator].
Defined.

(** [save] never throws on a document, whatever the scoreboard holds:
    it leaves the encoded chunks of the text in the cache, and the store
    that saved reads the document back when it survives the split. *)
Theorem save_never_throws (T : text) (d : json) (st : state) :
  exists chunks st',
    chunkString (JSON_stringify d) MAX_DATABASE_STRING_SIZE = inl (Some chunks)
    /\ save T d st = (inl tt, st')
    /\ MEMORY st' = encode_chunks 0 chunks
    /\ (well_formed_json d -> Forall no_line_separator (strings_of d) ->
        data st' = (inl d, st')).
Proof.
  destruct (save_any_state T d st) as (p & l & w' & Esplit & Es).
  exists (p :: l). eexists. split; [exact Esplit|]. split; [exact Es|].
  split; [reflexivity|]. intros Hwf Hls.
  destruct (save_then_reads T d st Hwf Hls) as (st' & Es' & Hd).
  rewrite Es in Es'. injection Es' as <-. exact Hd.
Qed.

(** * Witnesses *)

Lemma saved_data : data saved = (inl doc_a, saved).
Proof. vm_compute. reflexivity. Qed.

Lemma delete_then_absent_witness :
  exists st',
    delete store_T (lit "a") saved = (inl true, st')
    /\ has (lit "a") st' = (inl false, st')
    /\ get (lit "a") st' = (inl Undefined, st')
    /\ get (lit "toString") st' = (inl (Inherited (lit "toString")), st')
    /\ size st' = (inl 0%nat, st').
Proof.
  destruct (delete_then_absent store_T saved [(lit "a", JNum 1)] (lit "a")
              saved_data doc_a_well_formed doc_a_no_line_separator)
    as (st' & A & B & C & D & E).
  exists st'. split; [exact A|]. split; [exact B|]. split; [exact C|].
  split; [|exact E]. apply (D (lit "toString")). discriminate.
Defined.

Lemma set_then_has_witness :
  exists st',
    set store_T (lit "1") (JNum 2) saved_b = (inl tt, st')
    /\ data st' = (inl (JObj [(lit "1", JNum 2); (lit "b", JNum 1)]), st')
    /\ keys st' = (inl [lit "1"; lit "b"], st')
    /\ has (lit "1") st' = (inl true, st')
    /\ get (lit "1") st' = (inl (Own (JNum 2)), st')
    /\ size st' = (inl 2%nat, st').
Proof.
  destruct (set_then_has store_T saved_b [(lit "b", JNum 1)] (lit "1") (JNum 2))
    as (st' & A & B & C & D & E).
  - vm_compute. reflexivity.
  - apply well_formed_JObj. split; [|split].
    + constructor; [intros []|constructor].
    + reflexivity.
    + constructor; [|constructor]. split; [repeat constructor|reflexivity].
  - constructor; [|constructor]. split; intros [H|[]]; discriminate.
  - repeat constructor.
  - split; intros [H|[]]; discriminate.
  - reflexivity.
  - constructor.
  - discriminate.
  - exists st'. split; [exact A|]. split; [exact B|].
    split; [unfold keys, bind; rewrite B; reflexivity|].
    split; [exact C|]. split; [exact D|exact E].
Defined.

Lemma set_proto_stores_nothing_witness :
  exists st',
    set store_T (lit "__proto__") (JNum 1) saved = (inl tt, st')
    /\ data st' = (inl doc_a, st')
    /\ has (lit "__proto__") st' = (inl false, st').
Proof.
  exact (set_proto_stores_nothing store_T saved [(lit "a", JNum 1)] (JNum 1)
           saved_data doc_a_well_formed doc_a_no_line_separator eq_refl).
Defined.

Lemma other_table_not_chunk (j : N) : other_table <> chunk_table store_T j.
Proof. discriminate. Qed.

Lemma database_leaves_other_tables_witness :
  scores_in other_table (world (snd (save store_T doc_a fresh)))
  = scores_in other_table (world fresh).
Proof.
  refine (proj1 (database_leaves_other_tables store_T other_table _
                   other_table_not_chunk fresh [] doc_a [] JNull)).
  discriminate.
Defined.

Lemma new_Database_empty_witness :
  exists st,
    new_Database store_T [] = (inl tt, st)
    /\ data st = (inl (JObj []), st)
    /\ get (lit "a") st = (inl Undefined, st)
    /\ get (lit "constructor") st = (inl (Inherited (lit "constructor")), st).
Proof.
  destruct (new_Database_empty store_T store_T_plain []) as (st & A & _ & B & _ & C).
  - intros o q [].
  - exists st. split; [exact A|]. split; [exact B|].
    split; [apply (C (lit "a"))|apply (C (lit "constructor"))].
Defined.

Lemma codec_sizes_witness :
  (2 * 2 - 1 <= List.length (textToBinary (lit "{}")) <= 17 * 2 - 1)%nat.
Proof.
  refine (proj1 (proj1 codec_sizes (lit "{}") _ _)).
  - repeat constructor.
  - discriminate.
Defined.

(** ** The command builder, with [toLowerCase] on ASCII text *)

Lemma ascii_toLowerCase_idempotent (s : text) :
  ascii_toLowerCase (ascii_toLowerCase s) = ascii_toLowerCase s.
Proof.
  unfold ascii_toLowerCase. rewrite map_map. apply map_ext. intros c.
  destruct ((65 <=? c) && (c <=? 90)) eqn:E; [|rewrite E; reflexivity].
  apply andb_true_iff in E as [H1 H2]. apply N.leb_le in H1, H2.
  destruct (N.leb_spec (c + 32) 90); [lia|]. rewrite andb_false_r. reflexivity.
Qed.

Lemma register_private_hidden_witness :
  CommandBuilder.get
    (CommandBuilder.register ascii_toLowerCase register_op tt
       (CommandBuilder.new unit))
  = CommandBuilder.get (CommandBuilder.new unit).
Proof.
  exact (proj1 (register_private_hidden ascii_toLowerCase unit register_op tt
                  (CommandBuilder.new unit) eq_refl)).
Defined.

Lemma register_then_found_witness :
  exists e,
    CommandBuilder.name e = lit "ping"
    /\ CommandBuilder.getRegistration ascii_toLowerCase (lit "ping")
         (CommandBuilder.register ascii_toLowerCase register_ping tt
            (CommandBuilder.new unit)) = Some e
    /\ CommandBuilder.getRegistration ascii_toLowerCase (lit "p")
         (CommandBuilder.register ascii_toLowerCase register_ping tt
            (CommandBuilder.new unit)) = Some e.
Proof.
  destruct (register_then_found ascii_toLowerCase unit register_ping tt
              (CommandBuilder.new unit) eq_refl eq_refl)
    as (e & _ & Hn & _ & Hfound & Halias & _).
  exists e. split; [exact Hn|]. split; [exact Hfound|].
  apply (Halias [lit "P"] (lit "P")); [reflexivity|left; reflexivity].
Defined.

Lemma getRegistration_upper_case_witness :
  CommandBuilder.getRegistration ascii_toLowerCase (lit "Ping")
    (CommandBuilder.registered ascii_toLowerCase [(register_ping, tt)])
  = None.
Proof.
  apply (getRegistration_upper_case ascii_toLowerCase unit
           ascii_toLowerCase_idempotent).
  discriminate.
Defined.

(** ** Timeouts *)

Lemma timeout_and_interval_witness :
  tickTimeout.run (fun _ => false) (ticks_from 100 50) (setTickTimeout (Int 20))
  = [Int 120]
  /\ tickTimeout.run (fun _ => false) (ticks_from 100 50) (setTickInterval (Int 20))
     = [Int 120; Int 140].
Proof.
  refine (timeout_and_interval 20 _ 100 50 _ _); [lia|lia|reflexivity].
Defined.

Lemma throwing_callback_retried_witness :
  tickTimeout.run (fun _ => true) (ticks_from 100 23) (setTickTimeout (Int 20))
  = [Int 120; Int 121; Int 122].
Proof.
  refine (throwing_callback_retried 20 _ 100 23 false _ _);
    [lia|lia|reflexivity].
Defined.

(** ** Tags *)

Lemma getTagStartsWith_first_witness :
  getTagStartsWith [lit "staff"; lit "rank:Admin"] (lit "rank:")
  = Some (lit "Admin").
Proof.
  apply (proj1 (getTagStartsWith_first (lit "rank:")) [lit "staff"] (lit "Admin") []).
  - repeat constructor.
  - discriminate.
Defined.

Lemma getStack_reads_witness :
  getStack [lit "is_stacked"; stack_tag 3] = Int 3.
Proof.
  apply (proj1 getStack_reads [lit "is_stacked"] [] 3%Z).
  - repeat constructor.
  - reflexivity.
Defined.

(** ** The log of block breaks *)

Lemma first_break_put_back_witness :
  snd (on_blockBreak (lit "Steve") false 1000 1000
         (log_after [BlockBreak (lit "Steve") false 10 10;
                     PlayerLeave (lit "Steve")])) = true.
Proof.
  apply (proj1 (first_break_put_back _ (lit "Steve") 1000 1000)).
  intros [|e0 [|e1 [|e2 before]]] staff n1 n2 after H; try discriminate.
  injection H as _ _ _ <-. left; reflexivity.
Defined.
